(** * jsolines: Marching Squares isolines of a regular grid

    A shallow embedding of the isoline extractor (the revision with
    [followLoop], [interpolate], [noInterpolate] and [maxCoordinates]) and
    the properties of its classifier, ring tracer, interpolator and nester.

    The earlier revision of the module, which writes the exit table and the
    interpolation inline in [jsolines], has the same [getContour], the same
    tracing loop and the same nesting; it differs in the Interpolator (no
    replacement of boundary samples by the cutoff, and only [=== Infinity]
    tested on a fraction) and in a fixed cap of 10000 coordinates. It is
    embedded in the module [Earlier] and compared with the later one.

    Conventions of the embedding.
    - A JavaScript number that holds a sample, the cutoff, a fraction or an
      output coordinate is an IEEE-754 binary64 value: Rocq's primitive
      [float], whose [+ - / < ===] are the ones JavaScript uses.
    - A JavaScript number that holds a cell coordinate, a size, an array
      index, a case code or the winding accumulator is an integer: [Z].
      (Exact as long as the values stay below 2^53, which grids do.)
    - [undefined] read from an array is [None]; a typed array ignores a write
      outside its bounds; an exception is the [Throws] completion.
    - [console.error] is a list of diagnostic events, oldest first. *)

From Stdlib Require Import ZArith Lia Bool.
From Stdlib Require Import Floats.
From Stdlib Require Uint63.
From stdpp Require Import base numbers option list list_numbers.

Local Open Scope Z_scope.

(** ** JavaScript values *)

Module JS.

(** [ToNumber] of an array read: [undefined] becomes [NaN]. *)
Definition toNumber (v : option float) : float :=
  match v with
  | Some f => f
  | None => nan
  end.

(** The number that holds the integer [z]. *)
Definition ofZ (z : Z) : float :=
  match z with
  | Z0 => zero
  | Zpos _ => of_uint63 (Uint63Axioms.of_Z z)
  | Zneg p => PrimFloat.opp (of_uint63 (Uint63Axioms.of_Z (Zpos p)))
  end.

Definition lt (a b : float) : bool := PrimFloat.ltb a b.
Definition strictEq (a b : float) : bool := PrimFloat.eqb a b.
Definition isNaN (a : float) : bool := PrimFloat.is_nan a.
Definition isFinite (a : float) : bool := PrimFloat.is_finite a.
Definition Infinity : float := PrimFloat.infinity.

(** [a[i]]: [undefined] outside the bounds. *)
Definition get {A : Type} (a : list A) (i : Z) : option A :=
  if decide (0 ≤ i) then a !! Z.to_nat i else None.

(** [a[i] = v] on a [Uint8Array]: stored modulo 256, ignored outside the
    bounds. *)
Definition uint8_set (a : list Z) (i v : Z) : list Z :=
  if decide (0 ≤ i) then <[Z.to_nat i := v mod 256]> a else a.

Inductive exn : Type := RangeError | TypeError | LibraryError.

(** How a call ends: with a value, with an exception, or (an artefact of
    the embedding of [while (true)]) with the model's fuel used up. *)
Inductive completion (A : Type) : Type :=
| Normal (a : A)
| Throws (e : exn)
| OutOfFuel.
Arguments Normal {A} a.
Arguments Throws {A} e.
Arguments OutOfFuel {A}.

Definition bind {A B : Type} (m : completion A) (k : A → completion B)
  : completion B :=
  match m with
  | Normal a => k a
  | Throws e => Throws e
  | OutOfFuel => OutOfFuel
  end.

(** [new Uint8Array(n)]: zero filled; a negative length is a RangeError.
    An engine answers a length it cannot allocate with the same RangeError;
    the embedding has memory for every length, so what is stated of an array
    that was made, or of a call that returns, does not depend on it, and
    "the array can be made" is rendered as a length that is not negative. *)
Definition new_Uint8Array (n : Z) : completion (list Z) :=
  if decide (n < 0) then Throws RangeError
  else Normal (replicate (Z.to_nat n) 0).

End JS.

Notation "'do' x <- m ; k" := (JS.bind m (fun x => k))
  (at level 10, x name, m at level 100, k at level 200, only parsing).

Definition Coordinate : Type := float * float.
Definition Surface : Type := list float.

(** ** Contour Classifier: [getContour] *)

(** The body of the two loops of [getContour]: the case code of cell
    [(x, y)]. *)
Definition contourCase (surface : Surface) (width height : Z) (cutoff : float)
    (x y : Z) : Z :=
  let index := y * width + x in
  let topLeft := JS.lt (JS.toNumber (JS.get surface index)) cutoff in
  let topRight := JS.lt (JS.toNumber (JS.get surface (index + 1))) cutoff in
  let botLeft := JS.lt (JS.toNumber (JS.get surface (index + width))) cutoff in
  let botRight :=
    JS.lt (JS.toNumber (JS.get surface (index + width + 1))) cutoff in
  let '(topLeft, botLeft) :=
    if x =? 0 then (false, false) else (topLeft, botLeft) in
  let '(topRight, botRight) :=
    if x =? width - 2 then (false, false) else (topRight, botRight) in
  let '(topLeft, topRight) :=
    if y =? 0 then (false, false) else (topLeft, topRight) in
  let '(botRight, botLeft) :=
    if y =? height - 2 then (false, false) else (botRight, botLeft) in
  let idx := 0 in
  let idx := if topLeft then Z.lor idx (Z.shiftl 1 3) else idx in
  let idx := if topRight then Z.lor idx (Z.shiftl 1 2) else idx in
  let idx := if botRight then Z.lor idx (Z.shiftl 1 1) else idx in
  let idx := if botLeft then Z.lor idx 1 else idx in
  idx.

(** The inner loop, over [y], for one column [x]. *)
Definition contourColumn (surface : Surface) (width height : Z)
    (cutoff : float) (contour : list Z) (x : Z) : list Z :=
  foldl
    (fun contour y =>
       JS.uint8_set contour (y * (width - 1) + x)
         (contourCase surface width height cutoff x y))
    contour (seqZ 0 (height - 1)).

Definition getContour (surface : Surface) (width height : Z) (cutoff : float)
  : JS.completion (list Z) :=
  do contour <- JS.new_Uint8Array ((width - 1) * (height - 1));
  JS.Normal
    (foldl (contourColumn surface width height cutoff) contour
       (seqZ 0 (width - 1))).

(** ** Diagnostics *)

(** The side of the cell a segment came in from: the strings ['left'],
    ['right'], ['bottom'] and ['top'] of the source. *)
Inductive side : Type := fromLeft | fromRight | fromBottom | fromTop.

(** One [logError] call each. *)
Inductive event : Type :=
| RingCrossesOtherRing (x y : Z) (idx : option Z)
| LastFewIndices (indices : list (option Z))
| RanOffOutsideOfRing
| Case5WrongDirection
| Case10WrongDirection
| SegmentFractionIs (direction : side) (frac : float)
| UnexpectedCoordinateShift (startx starty x y : Z)
| RingCoordinatesExceeded (maxCoordinates : Z)
| NoFittingShellForHole.

(** ** Ring Tracer: [followLoop] *)

(** Returns the next cell, or [None] where the [switch] falls through and the
    function returns [undefined]. *)
Definition followLoop (idx : option Z) (prevx prevy x y : Z)
  : list event * option (Z * Z) :=
  match idx with
  | Some 1 => ([], Some (x - 1, y))
  | Some 2 => ([], Some (x, y + 1))
  | Some 3 => ([], Some (x - 1, y))
  | Some 4 => ([], Some (x + 1, y))
  | Some 5 =>
      if prevy >? y then ([], Some (x + 1, y))
      else if prevy <? y then ([], Some (x - 1, y))
      else ([Case5WrongDirection], Some (x, y))
  | Some 6 => ([], Some (x, y + 1))
  | Some 7 => ([], Some (x - 1, y))
  | Some 8 => ([], Some (x, y - 1))
  | Some 9 => ([], Some (x, y - 1))
  | Some 10 =>
      if prevx <? x then ([], Some (x, y + 1))
      else if prevx >? x then ([], Some (x, y - 1))
      else ([Case10WrongDirection], Some (x, y))
  | Some 11 => ([], Some (x, y - 1))
  | Some 12 => ([], Some (x + 1, y))
  | Some 13 => ([], Some (x + 1, y))
  | Some 14 => ([], Some (x, y + 1))
  | _ => ([], None)
  end.

(** ** Interpolator *)

Definition ensureFractionIsNumber (frac : float) (direction : side)
  : list event * float :=
  if JS.isNaN frac || JS.strictEq frac JS.Infinity
  then ([SegmentFractionIs direction frac], 0.5%float)
  else ([], frac).

(** The first part of [interpolate]: the four corner samples of cell
    [(x, y)], read from the surface and then set to the cutoff on the sides
    that touch the edge of the grid. The result is
    (topLeft, topRight, botLeft, botRight). *)
Definition cornerSamples (cutoff : float) (height : Z) (surface : Surface)
    (width x y : Z) : float * float * float * float :=
  let index := y * width + x in
  let topLeft := JS.toNumber (JS.get surface index) in
  let topRight := JS.toNumber (JS.get surface (index + 1)) in
  let botLeft := JS.toNumber (JS.get surface (index + width)) in
  let botRight := JS.toNumber (JS.get surface (index + width + 1)) in
  let '(topLeft, botLeft) :=
    if x =? 0 then (cutoff, cutoff) else (topLeft, botLeft) in
  let '(topLeft, topRight) :=
    if y =? 0 then (cutoff, cutoff) else (topLeft, topRight) in
  let '(botRight, botLeft) :=
    if y =? height - 2 then (cutoff, cutoff) else (botRight, botLeft) in
  let '(topRight, botRight) :=
    if x =? width - 2 then (cutoff, cutoff) else (topRight, botRight) in
  (topLeft, topRight, botLeft, botRight).

(** The rest of [interpolate]: the crossing on the side the segment came in
    from, between the two corner samples of that side. *)
Definition crossing (cutoff : float) (startx starty x y : Z)
    (corners : float * float * float * float)
  : list event * option Coordinate :=
  let '(topLeft, topRight, botLeft, botRight) := corners in
  if startx <? x then
    let frac := ((cutoff - topLeft) / (botLeft - topLeft))%float in
    let '(log, f) := ensureFractionIsNumber frac fromLeft in
    (log, Some (JS.ofZ x, (JS.ofZ y + f)%float))
  else if startx >? x then
    let frac := ((cutoff - topRight) / (botRight - topRight))%float in
    let '(log, f) := ensureFractionIsNumber frac fromRight in
    (log, Some (JS.ofZ (x + 1), (JS.ofZ y + f)%float))
  else if starty >? y then
    let frac := ((cutoff - botLeft) / (botRight - botLeft))%float in
    let '(log, f) := ensureFractionIsNumber frac fromBottom in
    (log, Some ((JS.ofZ x + f)%float, JS.ofZ (y + 1)))
  else if starty <? y then
    let frac := ((cutoff - topLeft) / (topRight - topLeft))%float in
    let '(log, f) := ensureFractionIsNumber frac fromTop in
    (log, Some ((JS.ofZ x + f)%float, JS.ofZ y))
  else ([], None).

Definition interpolate (cutoff : float) (height startx starty : Z)
    (surface : Surface) (width x y : Z) : list event * option Coordinate :=
  crossing cutoff startx starty x y
    (cornerSamples cutoff height surface width x y).

Definition noInterpolate (startx starty x y : Z) : option Coordinate :=
  if startx <? x then Some (JS.ofZ x, (JS.ofZ y + 0.5)%float)
  else if startx >? x then Some (JS.ofZ (x + 1), (JS.ofZ y + 0.5)%float)
  else if starty >? y then Some ((JS.ofZ x + 0.5)%float, JS.ofZ (y + 1))
  else if starty <? y then Some ((JS.ofZ x + 0.5)%float, JS.ofZ y)
  else None.

(** ** Ring Tracer: the scan and the tracing loop of [jsolines] *)

Definition MAX_COORDS : Z := 20000.

Definition Ring : Type := list Coordinate.

(** A GeoJSON polygon feature, kept as its [geometry.coordinates]: the outer
    ring first, then the holes. *)
Definition Polygon : Type := list Ring.

(** What the scan mutates: the two typed arrays' worth of marks, the debug
    list of visited cases, the rings found so far, and the console. *)
Record tracer : Type := Tracer {
  found : list Z;
  indices : list (option Z);
  shells : list Polygon;
  holes : list Polygon;
  log : list event
}.

(** The variables of one [while (true)] loop. *)
Record cursor : Type := Cursor {
  x : Z;
  y : Z;
  prevx : Z;
  prevy : Z;
  startx : Z;
  starty : Z;
  idx : option Z;
  direction : Z;
  coords : list Coordinate
}.

(** The [break] that ended a trace. *)
Inductive ended : Type :=
| Crossed        (* the cell was already marked *)
| RanOff         (* case 0 or 15 *)
| Shifted        (* no coordinate for the move *)
| Oversized      (* more than maxCoordinates coordinates *)
| ClosedShell    (* back at the start, pushed to shells *)
| ClosedHole.    (* back at the start, pushed to holes *)

(** What one pass through the loop body does. *)
Inductive iteration : Type :=
| Continue (c : cursor) (t : tracer)
| Break (why : ended) (t : tracer)
| Raise (e : JS.exn).

(** [v === n] for a possibly undefined [v] and an integer literal [n]. *)
Definition strictEqZ (v : option Z) (n : Z) : bool :=
  match v with
  | Some m => m =? n
  | None => false
  end.

(** [indices.slice(Math.max(0, indices.length - 10))] *)
Definition lastFew {A : Type} (l : list A) : list A :=
  drop (length l - 10)%nat l.

Section Jsolines.

(** The arguments of [jsolines]. *)
Variable cutoff : float.
Variable height : Z.
Variable maxCoordinates : Z.
Variable project : Coordinate → Coordinate.
Variable interpolation : bool.
Variable surface : Surface.
Variable width : Z.

(** The two functions imported from turf, taken as functions that return:
    the point feature of a coordinate, and the test whether a point lies in
    a polygon. *)
Variable PointFeature : Type.
Variable point : Coordinate → PointFeature.
Variable inside : PointFeature → Polygon → bool.

(** "Shift exact coordinates": the coordinate of the move from
    [(startx, starty)] to [(x, y)], in the mode the caller asked for. *)
Definition shiftCoordinates (startx starty x y : Z)
  : list event * option Coordinate :=
  if interpolation
  then interpolate cutoff height startx starty surface width x y
  else ([], noInterpolate startx starty x y).

Definition ringBody (contour : list Z) (origx origy : Z) (c : cursor)
    (t : tracer) : iteration :=
  let cWidth := width - 1 in
  let cell := y c * cWidth + x c in
  if strictEqZ (JS.get (found t) cell) 1 then
    Break Crossed
      (Tracer (found t) (indices t) (shells t) (holes t)
         (log t ++ [RingCrossesOtherRing (x c) (y c) (idx c);
                    LastFewIndices (lastFew (indices t))]))
  else
    let prevx := startx c in
    let prevy := starty c in
    let startx := x c in
    let starty := y c in
    let idx := JS.get contour cell in
    let indices := indices t ++ [idx] in
    let found :=
      if negb (strictEqZ idx 5) && negb (strictEqZ idx 10)
      then JS.uint8_set (found t) cell 1
      else found t in
    if strictEqZ idx 0 || strictEqZ idx 15 then
      Break RanOff
        (Tracer found indices (shells t) (holes t)
           (log t ++ [RanOffOutsideOfRing]))
    else
      let '(followed, next) := followLoop idx prevx prevy (x c) (y c) in
      match next with
      | None => Raise JS.TypeError
      | Some (x, y) =>
          let direction := direction c + (x - startx) * (y + starty) in
          let '(shifted, coord) := shiftCoordinates startx starty x y in
          let log := log t ++ followed ++ shifted in
          match coord with
          | None =>
              Break Shifted
                (Tracer found indices (shells t) (holes t)
                   (log ++ [UnexpectedCoordinateShift startx starty x y]))
          | Some coord =>
              let pushed := project coord in
              let coords := coords c ++ [pushed] in
              if Z.of_nat (length coords) >? maxCoordinates then
                Break Oversized
                  (Tracer found indices (shells t) (holes t)
                     (log ++ [RingCoordinatesExceeded maxCoordinates]))
              else if (x =? origx) && (y =? origy) then
                (* coords[0] exists: a coordinate was just pushed *)
                let coords := coords ++ [hd pushed coords] in
                let geom : Polygon := [coords] in
                if direction >? 0
                then Break ClosedShell
                       (Tracer found indices (shells t ++ [geom]) (holes t)
                          log)
                else Break ClosedHole
                       (Tracer found indices (shells t) (holes t ++ [geom])
                          log)
              else
                Continue
                  (Cursor x y prevx prevy startx starty idx direction coords)
                  (Tracer found indices (shells t) (holes t) log)
          end
      end.

(** [while (true)]: every pass that does not break pushes a coordinate, and
    the pass that pushes coordinate number [maxCoordinates + 1] breaks, so
    [S (Z.to_nat maxCoordinates)] passes are all there can be
    (see [ringLoop_fuel]). *)
Fixpoint ringLoop (fuel : nat) (contour : list Z) (origx origy : Z)
    (c : cursor) (t : tracer) : JS.completion (ended * tracer) :=
  match fuel with
  | O => JS.OutOfFuel
  | S fuel =>
      match ringBody contour origx origy c t with
      | Continue c t => ringLoop fuel contour origx origy c t
      | Break why t => JS.Normal (why, t)
      | Raise e => JS.Throws e
      end
  end.

(** The body of the inner [for] loop: [None] is a [continue] before any
    trace, otherwise how the trace from this cell ended. *)
Definition scanCell (contour : list Z) (origy origx : Z) (t : tracer)
  : JS.completion (option ended * tracer) :=
  let cWidth := width - 1 in
  if strictEqZ (JS.get (found t) (origy * cWidth + origx)) 1
  then JS.Normal (None, t)
  else
    let idx := JS.get contour (origy * cWidth + origx) in
    if strictEqZ idx 0 || strictEqZ idx 5 || strictEqZ idx 10
       || strictEqZ idx 15
    then JS.Normal (None, t)
    else
      do r <- ringLoop (S (Z.to_nat maxCoordinates)) contour origx origy
                (Cursor origx origy (-1) (-1) (-1) (-1) idx 0 []) t;
      JS.Normal (Some (fst r), snd r).

(** A [for] loop over [l] whose body may throw. *)
Fixpoint forEach {A : Type} (body : A → tracer → JS.completion tracer)
    (l : list A) (t : tracer) : JS.completion tracer :=
  match l with
  | [] => JS.Normal t
  | a :: l => do t <- body a t; forEach body l t
  end.

Definition scanRow (contour : list Z) (origy : Z) (t : tracer)
  : JS.completion tracer :=
  forEach
    (fun origx t => do r <- scanCell contour origy origx t; JS.Normal (snd r))
    (seqZ 0 (width - 1)) t.

Definition scan (contour : list Z) (t : tracer) : JS.completion tracer :=
  forEach (scanRow contour) (seqZ 0 (height - 1)) t.

(** ** Nester *)

(** The callback of [holes.forEach], on the shells and the console. *)
Definition nestHole (st : list Polygon * list event) (hole : Polygon)
  : JS.completion (list Polygon * list event) :=
  match hole with
  | [] => JS.Throws JS.TypeError          (* coordinates[0][0] of nothing *)
  | [] :: _ => JS.Throws JS.LibraryError  (* point(undefined) *)
  | (first :: _) as ring :: _ =>
      let holePoint := point first in
      match list_find (fun shell => Is_true (inside holePoint shell)) st.1 with
      | Some (i, containingShell) =>
          JS.Normal (<[i := containingShell ++ [ring]]> st.1, st.2)
      | None => JS.Normal (st.1, st.2 ++ [NoFittingShellForHole])
      end
  end.

Fixpoint nest (holes : list Polygon) (st : list Polygon * list event)
  : JS.completion (list Polygon * list event) :=
  match holes with
  | [] => JS.Normal st
  | hole :: holes => do st <- nestHole st hole; nest holes st
  end.

(** The MultiPolygon's [coordinates], and what was logged. *)
Definition jsolines : JS.completion (list Polygon * list event) :=
  do contour <- getContour surface width height cutoff;
  do found <- JS.new_Uint8Array ((width - 1) * (height - 1));
  do t <- scan contour (Tracer found [] [] [] []);
  nest (holes t) (shells t, log t).

End Jsolines.

(** The call as a caller writes it: [maxCoordinates] and [interpolation] may
    be left out of the argument object and then take their defaults. *)
Definition jsolinesWithDefaults (cutoff : float) (height : Z)
    (maxCoordinates : option Z) (project : Coordinate → Coordinate)
    (interpolation : option bool) (surface : Surface) (width : Z)
    (PointFeature : Type) (point : Coordinate → PointFeature)
    (inside : PointFeature → Polygon → bool)
  : JS.completion (list Polygon * list event) :=
  jsolines cutoff height (default MAX_COORDS maxCoordinates) project
    (default true interpolation) surface width PointFeature point inside.

(** ** The earlier revision

    [jsolines] and [getContour] as the earlier revision of the module has
    them: the exit table and the interpolation are written inline in the
    tracing loop, a fraction is only tested against Infinity (and that is
    reported through [debug], not on the console), the corner samples are
    used as they are, and a ring is given up after 10000 coordinates. *)

Module Earlier.

(** What is written out: the lines that have the text of a diagnostic of the
    later revision, the two lines of their own, and the [debug] line. *)
Inductive line : Type :=
| Logged (e : event)
| RanOffInsideOfRing
| MoreThan10000Coordinates
| SegmentFractionIsInfinity (direction : side) (x y : Z).

Record tracer : Type := Tracer {
  found : list Z;
  indices : list (option Z);
  shells : list Polygon;
  holes : list Polygon;
  log : list line
}.

Inductive iteration : Type :=
| Continue (c : cursor) (t : tracer)
| Break (why : ended) (t : tracer).

Definition contourCase (surface : Surface) (width height : Z) (cutoff : float)
    (x y : Z) : Z :=
  let topLeft := JS.lt (JS.toNumber (JS.get surface (y * width + x))) cutoff in
  let topRight :=
    JS.lt (JS.toNumber (JS.get surface (y * width + x + 1))) cutoff in
  let botLeft :=
    JS.lt (JS.toNumber (JS.get surface ((y + 1) * width + x))) cutoff in
  let botRight :=
    JS.lt (JS.toNumber (JS.get surface ((y + 1) * width + x + 1))) cutoff in
  let '(topLeft, botLeft) :=
    if x =? 0 then (false, false) else (topLeft, botLeft) in
  let '(topRight, botRight) :=
    if x =? width - 2 then (false, false) else (topRight, botRight) in
  let '(topLeft, topRight) :=
    if y =? 0 then (false, false) else (topLeft, topRight) in
  let '(botRight, botLeft) :=
    if y =? height - 2 then (false, false) else (botRight, botLeft) in
  let idx := 0 in
  let idx := if topLeft then Z.lor idx (Z.shiftl 1 3) else idx in
  let idx := if topRight then Z.lor idx (Z.shiftl 1 2) else idx in
  let idx := if botRight then Z.lor idx (Z.shiftl 1 1) else idx in
  let idx := if botLeft then Z.lor idx 1 else idx in
  idx.

Definition getContour (surface : Surface) (width height : Z) (cutoff : float)
  : JS.completion (list Z) :=
  do contour <- JS.new_Uint8Array ((width - 1) * (height - 1));
  JS.Normal
    (foldl
       (fun contour x =>
          foldl
            (fun contour y =>
               JS.uint8_set contour (y * (width - 1) + x)
                 (contourCase surface width height cutoff x y))
            contour (seqZ 0 (height - 1)))
       contour (seqZ 0 (width - 1))).

(** The [switch] of the tracing loop: [inl] is a [break RING] with its line,
    [inr] the lines logged and the cell the loop goes on with. A value that
    is no case label leaves [x] and [y] as they are. *)
Definition switch (idx : option Z) (prevx prevy x y : Z)
  : line + list line * (Z * Z) :=
  match idx with
  | Some 0 => inl (Logged RanOffOutsideOfRing)
  | Some 1 => inr ([], (x - 1, y))
  | Some 2 => inr ([], (x, y + 1))
  | Some 3 => inr ([], (x - 1, y))
  | Some 4 => inr ([], (x + 1, y))
  | Some 5 =>
      if prevy >? y then inr ([], (x + 1, y))
      else if prevy <? y then inr ([], (x - 1, y))
      else inr ([Logged Case5WrongDirection], (x, y))
  | Some 6 => inr ([], (x, y + 1))
  | Some 7 => inr ([], (x - 1, y))
  | Some 8 => inr ([], (x, y - 1))
  | Some 9 => inr ([], (x, y - 1))
  | Some 10 =>
      if prevx <? x then inr ([], (x, y + 1))
      else if prevx >? x then inr ([], (x, y - 1))
      else inr ([Logged Case10WrongDirection], (x, y))
  | Some 11 => inr ([], (x, y - 1))
  | Some 12 => inr ([], (x + 1, y))
  | Some 13 => inr ([], (x + 1, y))
  | Some 14 => inr ([], (x, y + 1))
  | Some 15 => inl RanOffInsideOfRing
  | _ => inr ([], (x, y))
  end.

(** [if (frac === Infinity) { debug(...); frac = 0.5 }] *)
Definition infinityToHalf (frac : float) (direction : side) (x y : Z)
  : list line * float :=
  if JS.strictEq frac JS.Infinity
  then ([SegmentFractionIsInfinity direction x y], 0.5%float)
  else ([], frac).

(** The coordinate of the move from [(startx, starty)] to [(x, y)]: the
    chain of [if]s after the [switch], [None] for its last [else]. *)
Definition shiftCoordinates (interpolation : bool) (cutoff : float)
    (surface : Surface) (width startx starty x y : Z)
  : list line * option Coordinate :=
  let topLeft := JS.toNumber (JS.get surface (y * width + x)) in
  let topRight := JS.toNumber (JS.get surface (y * width + x + 1)) in
  let botLeft := JS.toNumber (JS.get surface ((y + 1) * width + x)) in
  let botRight := JS.toNumber (JS.get surface ((y + 1) * width + x + 1)) in
  if startx <? x then
    let frac :=
      if interpolation
      then ((cutoff - topLeft) / (botLeft - topLeft))%float
      else 0.5%float in
    let '(log, frac) := infinityToHalf frac fromLeft x y in
    (log, Some (JS.ofZ x, (JS.ofZ y + frac)%float))
  else if startx >? x then
    let frac :=
      if interpolation
      then ((cutoff - topRight) / (botRight - topRight))%float
      else 0.5%float in
    let '(log, frac) := infinityToHalf frac fromRight x y in
    (log, Some (JS.ofZ (x + 1), (JS.ofZ y + frac)%float))
  else if starty >? y then
    let frac :=
      if interpolation
      then ((cutoff - botLeft) / (botRight - botLeft))%float
      else 0.5%float in
    let '(log, frac) := infinityToHalf frac fromBottom x y in
    (log, Some ((JS.ofZ x + frac)%float, JS.ofZ (y + 1)))
  else if starty <? y then
    let frac :=
      if interpolation
      then ((cutoff - topLeft) / (topRight - topLeft))%float
      else 0.5%float in
    let '(log, frac) := infinityToHalf frac fromTop x y in
    (log, Some ((JS.ofZ x + frac)%float, JS.ofZ y))
  else ([], None).

Section Jsolines.

Variable surface : Surface.
Variable width : Z.
Variable height : Z.
Variable cutoff : float.
Variable project : Coordinate → Coordinate.
Variable interpolation : bool.
Variable PointFeature : Type.
Variable point : Coordinate → PointFeature.
Variable inside : PointFeature → Polygon → bool.

Definition ringBody (contour : list Z) (origx origy : Z) (c : cursor)
    (t : tracer) : iteration :=
  let cWidth := width - 1 in
  let cell := y c * cWidth + x c in
  if strictEqZ (JS.get (found t) cell) 1 then
    Break Crossed
      (Tracer (found t) (indices t) (shells t) (holes t)
         (log t ++ [Logged (RingCrossesOtherRing (x c) (y c) (idx c));
                    Logged (LastFewIndices (lastFew (indices t)))]))
  else
    let prevx := startx c in
    let prevy := starty c in
    let startx := x c in
    let starty := y c in
    let idx := JS.get contour cell in
    let indices := indices t ++ [idx] in
    let found :=
      if negb (strictEqZ idx 5) && negb (strictEqZ idx 10)
      then JS.uint8_set (found t) cell 1
      else found t in
    match switch idx prevx prevy (x c) (y c) with
    | inl ranOff =>
        Break RanOff
          (Tracer found indices (shells t) (holes t) (log t ++ [ranOff]))
    | inr (followed, (x, y)) =>
        let direction := direction c + (x - startx) * (y + starty) in
        let '(shifted, coord) :=
          shiftCoordinates interpolation cutoff surface width
            startx starty x y in
        let log := log t ++ followed ++ shifted in
        match coord with
        | None =>
            Break Shifted
              (Tracer found indices (shells t) (holes t)
                 (log ++ [Logged
                            (UnexpectedCoordinateShift startx starty x y)]))
        | Some coord =>
            let pushed := project coord in
            let coords := coords c ++ [pushed] in
            if Z.of_nat (length coords) >? 10000 then
              Break Oversized
                (Tracer found indices (shells t) (holes t)
                   (log ++ [MoreThan10000Coordinates]))
            else if (x =? origx) && (y =? origy) then
              let coords := coords ++ [hd pushed coords] in
              let geom : Polygon := [coords] in
              if direction >? 0
              then Break ClosedShell
                     (Tracer found indices (shells t ++ [geom]) (holes t)
                        log)
              else Break ClosedHole
                     (Tracer found indices (shells t) (holes t ++ [geom])
                        log)
            else
              Continue
                (Cursor x y prevx prevy startx starty idx direction coords)
                (Tracer found indices (shells t) (holes t) log)
        end
    end.

(** [RING: while (true)]: 10001 passes are all there can be. *)
Fixpoint ringLoop (fuel : nat) (contour : list Z) (origx origy : Z)
    (c : cursor) (t : tracer) : JS.completion tracer :=
  match fuel with
  | O => JS.OutOfFuel
  | S fuel =>
      match ringBody contour origx origy c t with
      | Continue c t => ringLoop fuel contour origx origy c t
      | Break _ t => JS.Normal t
      end
  end.

Definition scanCell (contour : list Z) (origy origx : Z) (t : tracer)
  : JS.completion tracer :=
  let cWidth := width - 1 in
  if strictEqZ (JS.get (found t) (origy * cWidth + origx)) 1
  then JS.Normal t
  else
    let idx := JS.get contour (origy * cWidth + origx) in
    if strictEqZ idx 0 || strictEqZ idx 5 || strictEqZ idx 10
       || strictEqZ idx 15
    then JS.Normal t
    else
      ringLoop (S (Z.to_nat 10000)) contour origx origy
        (Cursor origx origy (-1) (-1) (-1) (-1) idx 0 []) t.

Fixpoint forEach {A : Type} (body : A → tracer → JS.completion tracer)
    (l : list A) (t : tracer) : JS.completion tracer :=
  match l with
  | [] => JS.Normal t
  | a :: l => do t <- body a t; forEach body l t
  end.

Definition scan (contour : list Z) (t : tracer) : JS.completion tracer :=
  forEach
    (fun origy t =>
       forEach (fun origx t => scanCell contour origy origx t)
         (seqZ 0 (width - 1)) t)
    (seqZ 0 (height - 1)) t.

(** The body of [HOLES: for (let hole of holes)]: the point of the hole is
    made anew for every shell it is tested against, so with no shell at all
    the hole is not even looked at. *)
Definition nestHole (st : list Polygon * list line) (hole : Polygon)
  : JS.completion (list Polygon * list line) :=
  match st.1 with
  | [] => JS.Normal (st.1, st.2 ++ [Logged NoFittingShellForHole])
  | _ :: _ =>
      match hole with
      | [] => JS.Throws JS.TypeError
      | [] :: _ => JS.Throws JS.LibraryError
      | (first :: _) as ring :: _ =>
          match list_find (fun shell => Is_true (inside (point first) shell))
                  st.1 with
          | Some (i, shell) => JS.Normal (<[i := shell ++ [ring]]> st.1, st.2)
          | None => JS.Normal (st.1, st.2 ++ [Logged NoFittingShellForHole])
          end
      end
  end.

Fixpoint nest (holes : list Polygon) (st : list Polygon * list line)
  : JS.completion (list Polygon * list line) :=
  match holes with
  | [] => JS.Normal st
  | hole :: holes => do st <- nestHole st hole; nest holes st
  end.

Definition jsolines : JS.completion (list Polygon * list line) :=
  do contour <- getContour surface width height cutoff;
  do found <- JS.new_Uint8Array ((width - 1) * (height - 1));
  do t <- scan contour (Tracer found [] [] [] []);
  nest (holes t) (shells t, log t).

End Jsolines.

(** The line the earlier revision writes where the later one logs [e]. *)
Definition lineOf (e : event) : line :=
  match e with
  | RingCoordinatesExceeded _ => MoreThan10000Coordinates
  | _ => Logged e
  end.

End Earlier.

(** ** The two revisions side by side *)

(** The state of the later revision's tracer, as the earlier revision holds
    it: the same arrays and rings, every diagnostic as the line the earlier
    revision writes for it. *)
Definition earlier (t : tracer) : Earlier.tracer :=
  Earlier.Tracer (found t) (indices t) (shells t) (holes t)
    (Earlier.lineOf <$> log t).

(** The value of a completion seen through [f]. *)
Definition onValue {A B : Type} (f : A → B) (m : JS.completion A)
  : JS.completion B :=
  match m with
  | JS.Normal a => JS.Normal (f a)
  | JS.Throws e => JS.Throws e
  | JS.OutOfFuel => JS.OutOfFuel
  end.

(** ** The specification's vocabulary

    Definitions that follow the words of the specification, to state the
    claims against; none of them is used by the embedding above. *)

Module Spec.

(** "A flat row-major array of numeric samples, width × height": the
    sample at grid point (col, row). *)
Definition sampleAt (surface : Surface) (width col row : Z) : float :=
  JS.toNumber (JS.get surface (row * width + col)).

(** "Each corner is below threshold iff its sample is strictly less than
    cutoff." *)
Definition below (sample cutoff : float) : Prop :=
  (sample <? cutoff)%float = true.

(** "Ring: an ordered, non-empty sequence of 2-D coordinates, first and
    last coordinate identical (closed)." *)
Definition closed (ring : Ring) : Prop :=
  ring ≠ [] ∧ head ring = last ring.

End Spec.

(** ** Invariants of the scan *)

(** [(x, y)] is a cell of the grid. *)
Definition inGrid (width height x y : Z) : Prop :=
  0 ≤ x < width - 1 ∧ 0 ≤ y < height - 1.

(** [contour] is the case grid of the surface: what [getContour] returns. *)
Definition classified (surface : Surface) (width height : Z) (cutoff : float)
    (contour : list Z) : Prop :=
  ∀ x y, inGrid width height x y →
    JS.get contour (y * (width - 1) + x)
    = Some (contourCase surface width height cutoff x y).

(** A polygon as the tracer pushes it: one closed ring, of at most
    [maxCoordinates] traced coordinates and the closing one. *)
Definition traced (maxCoordinates : Z) (polygon : Polygon) : Prop :=
  ∃ ring, polygon = [ring] ∧ Spec.closed ring ∧
    Z.of_nat (length ring) ≤ maxCoordinates + 1.

(** The rings the scan has collected are traced ones. *)
Definition tidy (maxCoordinates : Z) (t : tracer) : Prop :=
  Forall (traced maxCoordinates) (shells t) ∧
  Forall (traced maxCoordinates) (holes t).

(** A polygon of the output: an outer ring and holes, all of them traced
    rings. *)
Definition nested (maxCoordinates : Z) (polygon : Polygon) : Prop :=
  polygon ≠ [] ∧
  Forall (fun ring => traced maxCoordinates [ring]) polygon.

(** The diagnostics of the defensive branches of the tracer: a trace that
    runs into a cell without a line, a saddle entered from a side it has no
    passage for, a move that stays in its cell. *)
Definition defensive (e : event) : Prop :=
  match e with
  | RanOffOutsideOfRing | Case5WrongDirection | Case10WrongDirection
  | UnexpectedCoordinateShift _ _ _ _ => True
  | _ => False
  end.

(** The cell the tracer is in has a line, and when it is a saddle the cell
    before it lies on a side the saddle has a passage from: above or below
    for case 5, left or right for case 10. *)
Definition wellEntered (surface : Surface) (width height : Z) (cutoff : float)
    (c : cursor) : Prop :=
  let case := contourCase surface width height cutoff (x c) (y c) in
  case ≠ 0 ∧ case ≠ 15 ∧
  (case = 5 → starty c ≠ y c) ∧
  (case = 10 → startx c ≠ x c).

(** The midpoint of a side shared by two cells of the grid: on a vertical
    grid line strictly inside the grid, half-way down a cell, or on a
    horizontal grid line strictly inside the grid, half-way along a cell. *)
Definition edgeMidpoint (width height : Z) (m : Coordinate) : Prop :=
  (∃ a b, 0 < a < width - 1 ∧ 0 ≤ b < height - 1 ∧
          m = (JS.ofZ a, (JS.ofZ b + 0.5)%float)) ∨
  (∃ a b, 0 ≤ a < width - 1 ∧ 0 < b < height - 1 ∧
          m = ((JS.ofZ a + 0.5)%float, JS.ofZ b)).

(** A point on a grid line strictly inside the grid. *)
Definition onGridLine (width height : Z) (m : Coordinate) : Prop :=
  (∃ a, 0 < a < width - 1 ∧ m.1 = JS.ofZ a) ∨
  (∃ b, 0 < b < height - 1 ∧ m.2 = JS.ofZ b).

(** ** The order of binary64 numbers *)

(** The value of a binary64 number that is not NaN, in units of 2^-1074,
    the smallest exponent of the format; the infinities lie beyond every
    finite value. Comparison of numbers is comparison of their keys
    ([SFcompare_key]). *)
Definition key (x : spec_float) : Z :=
  match x with
  | S754_zero _ | S754_nan => 0
  | S754_infinity s => cond_Zopp s (2 ^ 2099)
  | S754_finite s m e => cond_Zopp s (Zpos m * 2 ^ (e + 1074))
  end.

(** NaN, or a zero, a finite number or an infinity of sign [s]. *)
Definition signed (s : bool) (x : spec_float) : Prop :=
  match x with
  | S754_nan => True
  | S754_zero s' | S754_infinity s' | S754_finite s' _ _ => s' = s
  end.

(** A zero, or a finite number of magnitude at most 2^k. *)
Definition atMost (k : Z) (x : spec_float) : Prop :=
  match x with
  | S754_zero _ => True
  | S754_finite _ m e => Zpos m * 2 ^ (e + 1074) ≤ 2 ^ (k + 1074)
  | _ => False
  end.

(** The lines of the earlier revision's defensive branches: those of
    [defensive], and the one its [switch] writes at case 15. *)
Definition defensiveLine (l : Earlier.line) : Prop :=
  match l with
  | Earlier.Logged e => defensive e
  | Earlier.RanOffInsideOfRing => True
  | _ => False
  end.

(** ** Sample grids *)

Module Examples.

(** 4 × 4 samples: a 2 × 2 block below the cutoff 60 in the middle. *)
Definition block4 : Surface :=
  JS.ofZ <$> [100; 100; 100; 100;
              100;  10;  10; 100;
              100;  10;  10; 100;
              100; 100; 100; 100].

(** 5 × 5 samples: a band below the cutoff 60 around a centre above it. *)
Definition band5 : Surface :=
  JS.ofZ <$> [100; 100; 100; 100; 100;
              100;  10;  10;  10; 100;
              100;  10; 100;  10; 100;
              100;  10;  10;  10; 100;
              100; 100; 100; 100; 100].

(** 4 × 4 samples, all above the cutoff 60. *)
Definition flat4 : Surface := JS.ofZ <$> replicate 16 100.

(** 4 × 4 samples, all below the cutoff 60: the region below the cutoff
    touches every edge of the grid. *)
Definition low4 : Surface := JS.ofZ <$> replicate 16 10.

(** The two rings [jsolines] traces on [band5], in grid coordinates: the
    crossings between a sample 10 and a sample 100 lie 50/90 of the way, at
    1.5555555555555556 and 2.4444444444444446. *)
Definition band5_shell : Ring :=
  [(0, 1); (0, 2); (0, 3); (1, 4); (2, 4); (3, 4); (4, 3); (4, 2); (4, 1);
   (3, 0); (2, 0); (1, 0); (0, 1)]%float.
Definition band5_hole : Ring :=
  [(2, 0x1.8e38e38e38e39p+0); (0x1.38e38e38e38e4p+1, 2);
   (2, 0x1.38e38e38e38e4p+1); (0x1.8e38e38e38e39p+0, 2);
   (2, 0x1.8e38e38e38e39p+0)]%float.

(** The ring [jsolines] traces on [block4] without interpolation. *)
Definition block4_midpoints : Ring :=
  [(0.5, 1); (0.5, 2); (1, 2.5); (2, 2.5); (2.5, 2); (2.5, 1); (2, 0.5);
   (1, 0.5); (0.5, 1)]%float.

(** The ring [jsolines] traces on [low4], in grid coordinates. *)
Definition low4_ring : Ring :=
  [(0, 1); (0, 2); (1, 3); (2, 3); (3, 2); (3, 1); (2, 0); (1, 0);
   (0, 1)]%float.

(** 5 × 5 samples: the band of [band5] at −Infinity. Across a side between
    the band and a sample 100 the fraction is ∞ / ∞. *)
Definition cliff5 : Surface :=
  [100; 100; 100; 100; 100;
   100; neg_infinity; neg_infinity; neg_infinity; 100;
   100; neg_infinity; 100; neg_infinity; 100;
   100; neg_infinity; neg_infinity; neg_infinity; 100;
   100; 100; 100; 100; 100]%float.

(** A projection that keeps grid coordinates. *)
Definition keep (c : Coordinate) : Coordinate := c.

(** Stand-ins for turf's [point] and [inside]. *)
Definition asPoint (c : Coordinate) : Coordinate := c.
Definition always (_ : Coordinate) (_ : Polygon) : bool := true.
Definition never (_ : Coordinate) (_ : Polygon) : bool := false.

End Examples.

(** * Properties *)

(** ** Typed arrays *)

Section TypedArrays.

Implicit Types (a : list Z) (i j v : Z).

Lemma uint8_set_length a i v : length (JS.uint8_set a i v) = length a.
Proof.
  unfold JS.uint8_set. case_decide; [apply length_insert | reflexivity].
Qed.

Lemma get_uint8_set_eq a i v :
  0 ≤ i < Z.of_nat (length a) →
  JS.get (JS.uint8_set a i v) i = Some (v mod 256).
Proof.
  intros Hi. unfold JS.get, JS.uint8_set.
  rewrite !decide_True by lia.
  apply list_lookup_insert_eq. lia.
Qed.

Lemma get_uint8_set_ne a i j v :
  i ≠ j → JS.get (JS.uint8_set a i v) j = JS.get a j.
Proof.
  intros Hij. unfold JS.get, JS.uint8_set.
  destruct (decide (0 ≤ j)); [|reflexivity].
  destruct (decide (0 ≤ i)); [|reflexivity].
  apply list_lookup_insert_ne. lia.
Qed.

(** A run of writes [a[ix k] = val k], one per element of [ks]. *)
Variables (K : Type) (ix val : K → Z).

Lemma writes_length a (ks : list K) : length (foldl (fun a k => JS.uint8_set a (ix k) (val k)) a ks) = length a.
Proof.
  revert a. induction ks as [|k ks IH]; intros a; simpl; [reflexivity|].
  rewrite IH. apply uint8_set_length.
Qed.

(** The slot of [k0] holds [val k0] once the run is over, when no other
    element of the run writes to it. *)
Lemma writes_get a (ks : list K) k0 :
  k0 ∈ ks →
  (∀ k, k ∈ ks → ix k = ix k0 → k = k0) →
  0 ≤ ix k0 < Z.of_nat (length a) →
  JS.get (foldl (fun a k => JS.uint8_set a (ix k) (val k)) a ks) (ix k0)
  = Some (val k0 mod 256).
Proof.
  induction ks as [|k ks IH] using rev_ind; intros Hin Hinj Hrange.
  - inversion Hin.
  - rewrite foldl_snoc.
    destruct (decide (ix k = ix k0)) as [Heq|Hne].
    + assert (k = k0) as ->.
      { apply Hinj; [|exact Heq]. apply elem_of_app. right.
        apply list_elem_of_singleton. reflexivity. }
      apply get_uint8_set_eq. rewrite writes_length. exact Hrange.
    + rewrite get_uint8_set_ne by exact Hne.
      apply IH; [|intros k' Hk' Hix; apply Hinj;
                    [apply elem_of_app; left|]; assumption|exact Hrange].
      apply elem_of_app in Hin as [Hin|Hin]; [exact Hin|].
      apply list_elem_of_singleton in Hin. congruence.
Qed.

End TypedArrays.

(** ** Contour Classifier *)

Section Classifier.

Variables (surface : Surface) (width height : Z) (cutoff : float).

(** Two nested [for] loops are one loop over the pairs. *)
Lemma nested_loops {A B C : Type} (g : A → B → C → A) (xs : list B)
    (ys : list C) (a : A) :
  foldl (fun a x => foldl (fun a y => g a x y) a ys) a xs
  = foldl (fun a p => g a p.1 p.2) a (xs ≫= fun x => pair x <$> ys).
Proof.
  revert a. induction xs as [|x xs IH]; intros a; [reflexivity|].
  rewrite bind_cons, foldl_app, foldl_fmap. simpl. apply IH.
Qed.

Lemma contourCase_range x y :
  0 ≤ contourCase surface width height cutoff x y < 16.
Proof.
  unfold contourCase.
  destruct (JS.lt _ cutoff), (JS.lt _ cutoff), (JS.lt _ cutoff),
    (JS.lt _ cutoff), (x =? 0), (x =? width - 2), (y =? 0),
    (y =? height - 2); vm_compute; intuition discriminate.
Qed.

Lemma cell_index_inj x y x' y' :
  0 ≤ x < width - 1 → 0 ≤ x' < width - 1 →
  y * (width - 1) + x = y' * (width - 1) + x' → x = x' ∧ y = y'.
Proof.
  intros Hx Hx' Heq.
  assert (y = y') as ->; [|lia].
  destruct (Z.lt_trichotomy y y') as [Hlt|[Heq'|Hgt]]; [|exact Heq'|].
  - assert (1 * (width - 1) ≤ (y' - y) * (width - 1))
      by (apply Z.mul_le_mono_nonneg_r; lia). lia.
  - assert (1 * (width - 1) ≤ (y - y') * (width - 1))
      by (apply Z.mul_le_mono_nonneg_r; lia). lia.
Qed.

Lemma cell_index_range x y :
  0 ≤ x < width - 1 → 0 ≤ y < height - 1 →
  0 ≤ y * (width - 1) + x < (width - 1) * (height - 1).
Proof. intros Hx Hy. nia. Qed.

(** The array [getContour] returns holds, in the slot of every cell, what
    the loop body computed for it. *)
Lemma getContour_get x y :
  0 ≤ x < width - 1 → 0 ≤ y < height - 1 →
  ∃ contour,
    getContour surface width height cutoff = JS.Normal contour ∧
    Z.of_nat (length contour) = (width - 1) * (height - 1) ∧
    JS.get contour (y * (width - 1) + x)
    = Some (contourCase surface width height cutoff x y).
Proof.
  intros Hx Hy. pose proof (cell_index_range x y Hx Hy) as Hrange.
  unfold getContour, JS.new_Uint8Array.
  rewrite decide_False by lia. simpl.
  eexists; split; [reflexivity|]. unfold contourColumn.
  rewrite (nested_loops
             (fun a x y => JS.uint8_set a (y * (width - 1) + x)
                             (contourCase surface width height cutoff x y))).
  split.
  - rewrite (writes_length _ (fun p => p.2 * (width - 1) + p.1)
               (fun p => contourCase surface width height cutoff p.1 p.2)).
    rewrite length_replicate. lia.
  - pose proof (writes_get _ (fun p => p.2 * (width - 1) + p.1)
                  (fun p => contourCase surface width height cutoff p.1 p.2)
                  (replicate (Z.to_nat ((width - 1) * (height - 1))) 0)
                  (seqZ 0 (width - 1) ≫= fun x => pair x <$> seqZ 0 (height - 1))
                  (x, y)) as Hget.
    simpl in Hget. rewrite Hget.
    + f_equal. apply Z.mod_small.
      pose proof (contourCase_range x y). lia.
    + apply list_elem_of_bind. exists x. split.
      * apply list_elem_of_fmap. exists y. split; [reflexivity|].
        apply elem_of_seqZ. lia.
      * apply elem_of_seqZ. lia.
    + intros [x' y'] Hin Heq. simpl in Heq.
      apply list_elem_of_bind in Hin as (x'' & Hin & Hx'').
      apply list_elem_of_fmap in Hin as (y'' & [= -> ->] & Hy'').
      apply elem_of_seqZ in Hx''.
      destruct (cell_index_inj x'' y'' x y) as [-> ->]; auto with lia.
    + rewrite length_replicate. lia.
Qed.

Lemma contourCase_bits x y :
  let index := y * width + x in
  let sample i := JS.lt (JS.toNumber (JS.get surface i)) cutoff in
  let idx := contourCase surface width height cutoff x y in
  Z.testbit idx 3 = sample index && negb (x =? 0) && negb (y =? 0) ∧
  Z.testbit idx 2
  = sample (index + 1) && negb (x =? width - 2) && negb (y =? 0) ∧
  Z.testbit idx 1
  = sample (index + width + 1) && negb (x =? width - 2)
    && negb (y =? height - 2) ∧
  Z.testbit idx 0
  = sample (index + width) && negb (x =? 0) && negb (y =? height - 2).
Proof.
  unfold contourCase. cbv zeta.
  destruct (JS.lt _ cutoff), (JS.lt _ cutoff), (JS.lt _ cutoff),
    (JS.lt _ cutoff), (x =? 0), (x =? width - 2), (y =? 0),
    (y =? height - 2); vm_compute; auto.
Qed.

(** On binary64, [a === b] excludes [a < b]. *)
Lemma strictEq_not_lt (a b : float) :
  JS.strictEq a b = true → JS.lt a b = false.
Proof.
  unfold JS.strictEq, JS.lt.
  rewrite FloatAxioms.eqb_spec, FloatAxioms.ltb_spec.
  unfold SFeqb, SFltb. destruct (SFcompare _ _) as [[]|]; congruence.
Qed.

End Classifier.

(** C2. For every cell (x, y) with 0 ≤ x < width−1 and 0 ≤ y < height−1,
    the slot of the cell in the array [getContour] returns holds a 4-bit
    value whose bit 3 is set iff the top-left corner is below threshold, bit
    2 iff the top-right one is, bit 1 iff the bottom-right one is and bit 0
    iff the bottom-left one is, each after the boundary forcing; a corner is
    below threshold exactly when its sample is strictly less than the cutoff,
    so a sample equal to the cutoff sets no bit. *)
Theorem getContour_encodes_corners (surface : Surface) (width height : Z)
    (cutoff : float) (x y : Z) :
  0 ≤ x < width - 1 → 0 ≤ y < height - 1 →
  ∃ contour idx,
    getContour surface width height cutoff = JS.Normal contour ∧
    JS.get contour (y * (width - 1) + x) = Some idx ∧
    0 ≤ idx < 16 ∧
    (Z.testbit idx 3 = true ↔
       Spec.below (Spec.sampleAt surface width x y) cutoff
       ∧ x ≠ 0 ∧ y ≠ 0) ∧
    (Z.testbit idx 2 = true ↔
       Spec.below (Spec.sampleAt surface width (x + 1) y) cutoff
       ∧ x ≠ width - 2 ∧ y ≠ 0) ∧
    (Z.testbit idx 1 = true ↔
       Spec.below (Spec.sampleAt surface width (x + 1) (y + 1)) cutoff
       ∧ x ≠ width - 2 ∧ y ≠ height - 2) ∧
    (Z.testbit idx 0 = true ↔
       Spec.below (Spec.sampleAt surface width x (y + 1)) cutoff
       ∧ x ≠ 0 ∧ y ≠ height - 2) ∧
    (∀ col row,
       JS.strictEq (Spec.sampleAt surface width col row) cutoff = true →
       ¬ Spec.below (Spec.sampleAt surface width col row) cutoff).
Proof.
  intros Hx Hy.
  destruct (getContour_get surface width height cutoff x y Hx Hy)
    as (contour & Hcontour & _ & Hget).
  exists contour, (contourCase surface width height cutoff x y).
  split; [exact Hcontour|]. split; [exact Hget|].
  split; [apply contourCase_range|].
  destruct (contourCase_bits surface width height cutoff x y)
    as (H3 & H2 & H1 & H0).
  unfold Spec.below, Spec.sampleAt.
  replace ((y + 1) * width + (x + 1)) with (y * width + x + width + 1) by lia.
  replace ((y + 1) * width + x) with (y * width + x + width) by lia.
  replace (y * width + (x + 1)) with (y * width + x + 1) by lia.
  rewrite H3, H2, H1, H0. unfold JS.lt.
  rewrite !andb_true_iff, !negb_true_iff, !Z.eqb_neq.
  repeat split; try tauto.
  intros col row Heq Hlt. apply strictEq_not_lt in Heq.
  unfold JS.lt in Heq. congruence.
Qed.

(** C3. Whatever the samples are, the case bits of the corners on a side
    where the cell touches the grid boundary are clear in the output of
    [getContour]: x = 0 clears top-left (bit 3) and bottom-left (bit 0),
    x = width−2 clears top-right (bit 2) and bottom-right (bit 1), y = 0
    clears top-left and top-right, y = height−2 clears bottom-left and
    bottom-right. *)
Theorem getContour_boundary_forced (surface : Surface) (width height : Z)
    (cutoff : float) (x y : Z) :
  0 ≤ x < width - 1 → 0 ≤ y < height - 1 →
  ∃ contour idx,
    getContour surface width height cutoff = JS.Normal contour ∧
    JS.get contour (y * (width - 1) + x) = Some idx ∧
    (x = 0 → Z.testbit idx 3 = false ∧ Z.testbit idx 0 = false) ∧
    (x = width - 2 → Z.testbit idx 2 = false ∧ Z.testbit idx 1 = false) ∧
    (y = 0 → Z.testbit idx 3 = false ∧ Z.testbit idx 2 = false) ∧
    (y = height - 2 → Z.testbit idx 0 = false ∧ Z.testbit idx 1 = false).
Proof.
  intros Hx Hy.
  destruct (getContour_get surface width height cutoff x y Hx Hy)
    as (contour & Hcontour & _ & Hget).
  exists contour, (contourCase surface width height cutoff x y).
  split; [exact Hcontour|]. split; [exact Hget|].
  destruct (contourCase_bits surface width height cutoff x y)
    as (H3 & H2 & H1 & H0).
  rewrite H3, H2, H1, H0.
  split; [|split; [|split]]; intros ->;
    rewrite Z.eqb_refl; simpl; rewrite ?andb_false_r; split; reflexivity.
Qed.

(** Cell (1, 2) of [band5]. *)
Lemma getContour_encodes_corners_witness :
  0 ≤ 1 < 5 - 1 ∧ 0 ≤ 2 < 5 - 1 ∧
  ∃ contour idx,
    getContour Examples.band5 5 5 60 = JS.Normal contour ∧
    JS.get contour (2 * (5 - 1) + 1) = Some idx ∧
    (Z.testbit idx 3 = true ↔
       Spec.below (Spec.sampleAt Examples.band5 5 1 2) 60 ∧ 1 ≠ 0 ∧ 2 ≠ 0).
Proof.
  split; [lia|]. split; [lia|].
  destruct (getContour_encodes_corners Examples.band5 5 5 60 1 2)
    as (contour & idx & Hc & Hget & _ & H3 & _); [lia|lia|].
  exists contour, idx. split; [exact Hc|]. split; [exact Hget|exact H3].
Defined.

(** Cell (0, 2) of [block4], in the bottom-left corner of the grid. *)
Lemma getContour_boundary_forced_witness :
  0 ≤ 0 < 4 - 1 ∧ 0 ≤ 2 < 4 - 1 ∧
  ∃ contour idx,
    getContour Examples.block4 4 4 60 = JS.Normal contour ∧
    JS.get contour (2 * (4 - 1) + 0) = Some idx ∧
    (0 = 0 → Z.testbit idx 3 = false ∧ Z.testbit idx 0 = false) ∧
    (2 = 4 - 2 → Z.testbit idx 0 = false ∧ Z.testbit idx 1 = false).
Proof.
  split; [lia|]. split; [lia|].
  destruct (getContour_boundary_forced Examples.block4 4 4 60 0 2)
    as (contour & idx & Hc & Hget & Hx0 & _ & _ & Hy2); [lia|lia|].
  exists contour, idx. split; [exact Hc|]. split; [exact Hget|].
  split; [exact Hx0|exact Hy2].
Defined.

(** ** Ring Tracer: one pass through the loop body *)

(** Splits a goal about [ringBody] into its eight ways out: marked cell,
    case 0 or 15, too many coordinates, closed as shell, closed as hole, next
    pass, no coordinate, no exit. *)
Ltac ringBody_cases :=
  unfold ringBody; cbv zeta;
  match goal with
  | |- context [strictEqZ (JS.get (found ?t) ?cell) 1] =>
      destruct (strictEqZ (JS.get (found t) cell) 1) eqn:Hmarked
  end;
  [|match goal with
    | |- context [strictEqZ ?i 0 || strictEqZ ?i 15] =>
        destruct (strictEqZ i 0 || strictEqZ i 15) eqn:Hoff
    end;
    [|match goal with
      | |- context [followLoop ?i ?px ?py ?cx ?cy] =>
          destruct (followLoop i px py cx cy)
            as [followed [[nx ny]|]] eqn:Hfollow
      end;
      [match goal with
       | |- context [shiftCoordinates ?a1 ?a2 ?a3 ?a4 ?a5 ?a6 ?a7 ?a8 ?a9] =>
           destruct (shiftCoordinates a1 a2 a3 a4 a5 a6 a7 a8 a9)
             as [shifted [coord|]] eqn:Hcoord
       end;
       [match goal with
        | |- context [Z.of_nat (length ?l) >? ?m] =>
            destruct (Z.of_nat (length l) >? m) eqn:Hsize
        end;
        [|match goal with
          | |- context [(?a =? ?ox) && (?b =? ?oy)] =>
              destruct ((a =? ox) && (b =? oy)) eqn:Hback
          end;
          [match goal with
           | |- context [?d >? 0] => destruct (d >? 0) eqn:Hwinding
           end|]]|]|]]].

Section Tracer.

Variable cutoff : float.
Variable height : Z.
Variable maxCoordinates : Z.
Variable project : Coordinate → Coordinate.
Variable interpolation : bool.
Variable surface : Surface.
Variable width : Z.

Local Abbreviation body :=
  (ringBody cutoff height maxCoordinates project interpolation surface width).

(** What a pass that goes on to the next one has done. *)
Lemma ringBody_Continue contour origx origy c t c' t' :
  body contour origx origy c t = Continue c' t' →
  ∃ followed shifted coord,
    followLoop (JS.get contour (y c * (width - 1) + x c))
      (startx c) (starty c) (x c) (y c) = (followed, Some (x c', y c')) ∧
    shiftCoordinates cutoff height interpolation surface width
      (x c) (y c) (x c') (y c') = (shifted, Some coord) ∧
    strictEqZ (JS.get (found t) (y c * (width - 1) + x c)) 1 = false ∧
    prevx c' = startx c ∧ prevy c' = starty c ∧
    startx c' = x c ∧ starty c' = y c ∧
    idx c' = JS.get contour (y c * (width - 1) + x c) ∧
    direction c' = direction c + (x c' - x c) * (y c' + y c) ∧
    coords c' = coords c ++ [project coord] ∧
    Z.of_nat (length (coords c')) ≤ maxCoordinates ∧
    shells t' = shells t ∧ holes t' = holes t ∧
    log t' = log t ++ followed ++ shifted.
Proof.
  ringBody_cases; intros [= <- <-]; simpl.
  exists followed, shifted, coord.
  repeat split; try reflexivity; try assumption.
  rewrite Z.gtb_ltb in Hsize. apply Z.ltb_ge in Hsize. exact Hsize.
Qed.

(** What a pass that leaves the loop has done. *)
Lemma ringBody_Break contour origx origy c t why t' :
  body contour origx origy c t = Break why t' →
  let cell := y c * (width - 1) + x c in
  let move nx ny :=
    shiftCoordinates cutoff height interpolation surface width
      (x c) (y c) nx ny in
  match why with
  | Crossed =>
      strictEqZ (JS.get (found t) cell) 1 = true ∧
      shells t' = shells t ∧ holes t' = holes t ∧
      log t' = log t ++ [RingCrossesOtherRing (x c) (y c) (idx c);
                         LastFewIndices (lastFew (indices t))]
  | RanOff =>
      strictEqZ (JS.get contour cell) 0 || strictEqZ (JS.get contour cell) 15
      = true ∧
      shells t' = shells t ∧ holes t' = holes t ∧
      log t' = log t ++ [RanOffOutsideOfRing]
  | Shifted =>
      ∃ followed shifted nx ny,
        followLoop (JS.get contour cell) (startx c) (starty c) (x c) (y c)
        = (followed, Some (nx, ny)) ∧
        move nx ny = (shifted, None) ∧
        shells t' = shells t ∧ holes t' = holes t ∧
        log t' = (log t ++ followed ++ shifted)
                 ++ [UnexpectedCoordinateShift (x c) (y c) nx ny]
  | Oversized =>
      ∃ followed shifted nx ny coord,
        followLoop (JS.get contour cell) (startx c) (starty c) (x c) (y c)
        = (followed, Some (nx, ny)) ∧
        move nx ny = (shifted, Some coord) ∧
        maxCoordinates < Z.of_nat (length (coords c ++ [project coord])) ∧
        shells t' = shells t ∧ holes t' = holes t ∧
        log t' = (log t ++ followed ++ shifted)
                 ++ [RingCoordinatesExceeded maxCoordinates]
  | ClosedShell =>
      ∃ followed shifted coord,
        followLoop (JS.get contour cell) (startx c) (starty c) (x c) (y c)
        = (followed, Some (origx, origy)) ∧
        move origx origy = (shifted, Some coord) ∧
        Z.of_nat (length (coords c ++ [project coord])) ≤ maxCoordinates ∧
        let pushed := coords c ++ [project coord] in
        0 < direction c + (origx - x c) * (origy + y c) ∧
        shells t' = shells t ++ [[pushed ++ [hd (project coord) pushed]]] ∧
        holes t' = holes t ∧
        log t' = log t ++ followed ++ shifted
  | ClosedHole =>
      ∃ followed shifted coord,
        followLoop (JS.get contour cell) (startx c) (starty c) (x c) (y c)
        = (followed, Some (origx, origy)) ∧
        move origx origy = (shifted, Some coord) ∧
        Z.of_nat (length (coords c ++ [project coord])) ≤ maxCoordinates ∧
        let pushed := coords c ++ [project coord] in
        direction c + (origx - x c) * (origy + y c) ≤ 0 ∧
        shells t' = shells t ∧
        holes t' = holes t ++ [[pushed ++ [hd (project coord) pushed]]] ∧
        log t' = log t ++ followed ++ shifted
  end.
Proof.
  ringBody_cases; intros [= <- <-]; simpl.
  - auto.
  - auto.
  - exists followed, shifted, nx, ny, coord.
    rewrite Z.gtb_ltb in Hsize. apply Z.ltb_lt in Hsize.
    repeat split; try reflexivity; assumption.
  - apply andb_true_iff in Hback as [->%Z.eqb_eq ->%Z.eqb_eq].
    exists followed, shifted, coord.
    rewrite Z.gtb_ltb in Hsize, Hwinding.
    apply Z.ltb_ge in Hsize. apply Z.ltb_lt in Hwinding.
    repeat split; try reflexivity; assumption.
  - apply andb_true_iff in Hback as [->%Z.eqb_eq ->%Z.eqb_eq].
    exists followed, shifted, coord.
    rewrite Z.gtb_ltb in Hsize, Hwinding.
    apply Z.ltb_ge in Hsize. apply Z.ltb_ge in Hwinding.
    repeat split; try reflexivity; assumption.
  - exists followed, shifted, nx, ny.
    repeat split; try reflexivity; assumption.
Qed.

(** The only exception of the loop body: [followLoop] returned [undefined]
    and the destructuring assignment failed. *)
Lemma ringBody_Raise contour origx origy c t e :
  body contour origx origy c t = Raise e →
  e = JS.TypeError ∧
  strictEqZ (JS.get contour (y c * (width - 1) + x c)) 0
  || strictEqZ (JS.get contour (y c * (width - 1) + x c)) 15 = false ∧
  ∃ followed,
    followLoop (JS.get contour (y c * (width - 1) + x c))
      (startx c) (starty c) (x c) (y c) = (followed, None).
Proof.
  ringBody_cases; intros [= <-]. split; [reflexivity|].
  split; [reflexivity|]. exists followed. reflexivity.
Qed.

(** C1. Every tracing step advances by the fixed exit table of
    [followLoop]: cases 1, 3 and 7 exit −x; cases 4, 12 and 13 exit +x; cases
    2, 6 and 14 exit +y; cases 8, 9 and 11 exit −y; case 5 exits +x when
    entered from below (previous row greater than the current one) and −x
    when entered from above; case 10 exits +y when entered from the left
    (previous column less than the current one) and −y when entered from the
    right; any other entry into a saddle logs a diagnostic and holds the
    position. The cell a pass of the tracing loop moves to is the one
    [followLoop] gives for the case of the current cell and the cell before
    it. *)
Theorem followLoop_exit_table contour origx origy c t :
  (∀ case prevCol prevRow col row,
     (case ∈ [1; 3; 7] →
      followLoop (Some case) prevCol prevRow col row
      = ([], Some (col - 1, row))) ∧
     (case ∈ [4; 12; 13] →
      followLoop (Some case) prevCol prevRow col row
      = ([], Some (col + 1, row))) ∧
     (case ∈ [2; 6; 14] →
      followLoop (Some case) prevCol prevRow col row
      = ([], Some (col, row + 1))) ∧
     (case ∈ [8; 9; 11] →
      followLoop (Some case) prevCol prevRow col row
      = ([], Some (col, row - 1)))) ∧
  (∀ prevCol prevRow col row,
     (row < prevRow →
      followLoop (Some 5) prevCol prevRow col row
      = ([], Some (col + 1, row))) ∧
     (prevRow < row →
      followLoop (Some 5) prevCol prevRow col row
      = ([], Some (col - 1, row))) ∧
     (prevRow = row →
      followLoop (Some 5) prevCol prevRow col row
      = ([Case5WrongDirection], Some (col, row))) ∧
     (prevCol < col →
      followLoop (Some 10) prevCol prevRow col row
      = ([], Some (col, row + 1))) ∧
     (col < prevCol →
      followLoop (Some 10) prevCol prevRow col row
      = ([], Some (col, row - 1))) ∧
     (prevCol = col →
      followLoop (Some 10) prevCol prevRow col row
      = ([Case10WrongDirection], Some (col, row)))) ∧
  (∀ c' t',
     ringBody cutoff height maxCoordinates project interpolation surface
       width contour origx origy c t = Continue c' t' →
     ∃ followed,
       followLoop (JS.get contour (y c * (width - 1) + x c))
         (startx c) (starty c) (x c) (y c)
       = (followed, Some (x c', y c'))) ∧
  (∀ why t',
     ringBody cutoff height maxCoordinates project interpolation surface
       width contour origx origy c t = Break why t' →
     why = ClosedShell ∨ why = ClosedHole →
     ∃ followed,
       followLoop (JS.get contour (y c * (width - 1) + x c))
         (startx c) (starty c) (x c) (y c)
       = (followed, Some (origx, origy))).
Proof.
  split; [|split; [|split]].
  - intros case prevCol prevRow col row.
    repeat split; intros Hcase;
      repeat (apply elem_of_cons in Hcase as [->|Hcase]; [reflexivity|]);
      inversion Hcase.
  - intros prevCol prevRow col row. unfold followLoop.
    repeat split; intros Hentry.
    + rewrite Z.gtb_ltb. apply Z.ltb_lt in Hentry. rewrite Hentry. reflexivity.
    + rewrite Z.gtb_ltb.
      assert ((row <? prevRow) = false) as -> by (apply Z.ltb_ge; lia).
      apply Z.ltb_lt in Hentry. rewrite Hentry. reflexivity.
    + subst prevRow. rewrite Z.gtb_ltb, Z.ltb_irrefl. reflexivity.
    + apply Z.ltb_lt in Hentry. rewrite Hentry. reflexivity.
    + rewrite Z.gtb_ltb.
      assert ((prevCol <? col) = false) as -> by (apply Z.ltb_ge; lia).
      apply Z.ltb_lt in Hentry. rewrite Hentry. reflexivity.
    + subst prevCol. rewrite Z.gtb_ltb, Z.ltb_irrefl. reflexivity.
  - intros c' t' Hstep.
    apply ringBody_Continue in Hstep as (followed & _ & _ & Hfollow & _).
    exists followed. exact Hfollow.
  - intros why t' Hstep Hclosed. apply ringBody_Break in Hstep.
    destruct Hclosed as [-> | ->]; simpl in Hstep;
      destruct Hstep as (followed & _ & _ & Hfollow & _);
      exists followed; exact Hfollow.
Qed.

(** C4. A pass of the tracing loop that goes on leaves
    direction + (newX − oldX) * (newY + oldY) in the accumulator; the pass
    that closes the ring adds the same term for its move to the start cell
    and then pushes the ring to the shells iff the sum is strictly positive
    and to the holes otherwise, so a ring whose sum is exactly zero is a
    hole. *)
Theorem winding_direction contour origx origy c t :
  (∀ c' t',
     ringBody cutoff height maxCoordinates project interpolation surface
       width contour origx origy c t = Continue c' t' →
     direction c' = direction c + (x c' - x c) * (y c' + y c)) ∧
  (∀ why t',
     ringBody cutoff height maxCoordinates project interpolation surface
       width contour origx origy c t = Break why t' →
     why = ClosedShell ∨ why = ClosedHole →
     let winding := direction c + (origx - x c) * (origy + y c) in
     (why = ClosedShell ↔ 0 < winding) ∧
     (why = ClosedHole ↔ winding ≤ 0) ∧
     (winding = 0 → why = ClosedHole) ∧
     ∃ ring,
       (0 < winding →
        shells t' = shells t ++ [[ring]] ∧ holes t' = holes t) ∧
       (winding ≤ 0 →
        shells t' = shells t ∧ holes t' = holes t ++ [[ring]])).
Proof.
  split.
  - intros c' t' Hstep.
    apply ringBody_Continue in Hstep
      as (_ & _ & _ & _ & _ & _ & _ & _ & _ & _ & _ & Hd & _).
    exact Hd.
  - intros why t' Hstep Hclosed winding.
    apply ringBody_Break in Hstep. subst winding.
    destruct Hclosed as [-> | ->]; simpl in Hstep;
      destruct Hstep as (_ & _ & coord & _ & _ & _ & Hw & Hs & Hh & _).
    + repeat split; try (intros; reflexivity || lia || discriminate).
      eexists. split; [intros _; split; eassumption | lia].
    + repeat split; try (intros; reflexivity || lia || discriminate).
      eexists. split; [lia | intros _; split; eassumption].
Qed.

End Tracer.

(** ** Ring Tracer: the whole loop *)

Lemma closed_ring_pushed (coords : list Coordinate) (coord : Coordinate) :
  let pushed := coords ++ [coord] in
  Spec.closed (pushed ++ [hd coord pushed]).
Proof.
  simpl. split.
  - destruct coords; discriminate.
  - rewrite last_snoc. destruct coords; reflexivity.
Qed.

(** The table never leads out of the grid: an exit to a side needs a corner
    below the cutoff that the edge-closing rule has forced off on the boundary
    cells of that side. *)
Lemma followLoop_inGrid surface width height cutoff prevx prevy x y :
  inGrid width height x y →
  let case := contourCase surface width height cutoff x y in
  case ≠ 0 → case ≠ 15 →
  ∃ followed nx ny,
    followLoop (Some case) prevx prevy x y = (followed, Some (nx, ny)) ∧
    inGrid width height nx ny.
Proof.
  unfold inGrid, contourCase. intros [Hx Hy]. cbv zeta.
  destruct (JS.lt _ cutoff), (JS.lt _ cutoff), (JS.lt _ cutoff),
    (JS.lt _ cutoff), (Z.eqb_spec x 0), (Z.eqb_spec x (width - 2)),
    (Z.eqb_spec y 0), (Z.eqb_spec y (height - 2));
    cbn -[Z.add Z.sub Z.mul]; intros H0 H15; try contradiction;
    unfold followLoop;
    repeat match goal with
           | |- context [if ?b then _ else _] => destruct b
           end;
    (do 3 eexists; split; [reflexivity|lia]).
Qed.

Section RingLoop.

Variable cutoff : float.
Variable height : Z.
Variable maxCoordinates : Z.
Variable project : Coordinate → Coordinate.
Variable interpolation : bool.
Variable surface : Surface.
Variable width : Z.

Local Abbreviation body :=
  (ringBody cutoff height maxCoordinates project interpolation surface width).
Local Abbreviation loop :=
  (ringLoop cutoff height maxCoordinates project interpolation surface width).

Lemma strictEqZ_Some_false (v n : Z) : strictEqZ (Some v) n = false → v ≠ n.
Proof. simpl. apply Z.eqb_neq. Qed.

(** On the case grid of the surface, a pass that starts in the grid throws
    nothing and, when it goes on, goes on in the grid. *)
Lemma ringBody_inGrid contour origx origy c t :
  classified surface width height cutoff contour →
  inGrid width height (x c) (y c) →
  match body contour origx origy c t with
  | Continue c' _ => inGrid width height (x c') (y c')
  | Break _ _ => True
  | Raise _ => False
  end.
Proof.
  intros Hcontour Hc.
  pose proof (followLoop_inGrid surface width height cutoff
                (startx c) (starty c) (x c) (y c) Hc) as Hexit.
  cbv zeta in Hexit.
  destruct (body contour origx origy c t) as [c' t'|why t'|e] eqn:Hstep.
  - apply ringBody_Continue in Hstep
      as (followed & _ & _ & Hfollow & _).
    rewrite (Hcontour _ _ Hc) in Hfollow.
    destruct Hexit as (followed' & nx & ny & Hfollow' & Hin).
    + intros H0. rewrite H0 in Hfollow. discriminate.
    + intros H15. rewrite H15 in Hfollow. discriminate.
    + rewrite Hfollow' in Hfollow. injection Hfollow as _ -> ->. exact Hin.
  - exact I.
  - apply ringBody_Raise in Hstep as (_ & Hoff & followed & Hfollow).
    rewrite (Hcontour _ _ Hc) in Hfollow, Hoff.
    apply orb_false_iff in Hoff as [H0%strictEqZ_Some_false
                                      H15%strictEqZ_Some_false].
    destruct (Hexit H0 H15) as (followed' & nx & ny & Hfollow' & _).
    rewrite Hfollow' in Hfollow. discriminate.
Qed.

(** What a trace leaves behind: a closed ring at the end of the shells or
    of the holes when it came back to its start cell, nothing otherwise. *)
Lemma ringLoop_effect fuel contour origx origy c t why t' :
  loop fuel contour origx origy c t = JS.Normal (why, t') →
  match why with
  | ClosedShell =>
      ∃ ring, traced maxCoordinates [ring] ∧
        shells t' = shells t ++ [[ring]] ∧ holes t' = holes t
  | ClosedHole =>
      ∃ ring, traced maxCoordinates [ring] ∧
        shells t' = shells t ∧ holes t' = holes t ++ [[ring]]
  | Crossed | RanOff | Shifted | Oversized =>
      shells t' = shells t ∧ holes t' = holes t
  end.
Proof.
  revert c t. induction fuel as [|fuel IH]; intros c t; simpl; [discriminate|].
  destruct (body contour origx origy c t) as [c1 t1|why1 t1|e] eqn:Hstep;
    [|intros [= <- <-]|discriminate].
  - intros Hloop. apply IH in Hloop.
    apply ringBody_Continue in Hstep
      as (_ & _ & _ & _ & _ & _ & _ & _ & _ & _ & _ & _ & _ & _ & Hs & Hh & _).
    rewrite Hs, Hh in Hloop. exact Hloop.
  - apply ringBody_Break in Hstep. cbv zeta in Hstep.
    destruct why1.
    + destruct Hstep as (_ & Hs & Hh & _). auto.
    + destruct Hstep as (_ & Hs & Hh & _). auto.
    + destruct Hstep as (? & ? & ? & ? & _ & _ & Hs & Hh & _). auto.
    + destruct Hstep as (? & ? & ? & ? & ? & _ & _ & _ & Hs & Hh & _). auto.
    + destruct Hstep as (? & ? & coord & _ & _ & Hlen & _ & Hs & Hh & _).
      eexists. split; [|split; [exact Hs|exact Hh]].
      eexists. split; [reflexivity|]. split; [apply closed_ring_pushed|].
      rewrite length_app. simpl. lia.
    + destruct Hstep as (? & ? & coord & _ & _ & Hlen & _ & Hs & Hh & _).
      eexists. split; [|split; [exact Hs|exact Hh]].
      eexists. split; [reflexivity|]. split; [apply closed_ring_pushed|].
      rewrite length_app. simpl. lia.
Qed.

(** The loop ends within the fuel the scan gives it, and without an
    exception, on the case grid of the surface. *)
Lemma ringLoop_fuel fuel contour origx origy c t :
  classified surface width height cutoff contour →
  inGrid width height (x c) (y c) →
  maxCoordinates < Z.of_nat (length (coords c)) + Z.of_nat (S fuel) →
  ∃ why t', loop (S fuel) contour origx origy c t = JS.Normal (why, t').
Proof.
  intros Hcontour. revert c t.
  induction fuel as [|fuel IH]; intros c t Hc Hfuel;
    pose proof (ringBody_inGrid contour origx origy c t Hcontour Hc) as Hin;
    cbn [ringLoop];
    destruct (body contour origx origy c t) as [c1 t1|why1 t1|e] eqn:Hstep;
    [|eauto|contradiction| |eauto|contradiction];
    apply ringBody_Continue in Hstep
      as (_ & _ & coord & _ & _ & _ & _ & _ & _ & _ & _ & _ & Hcoords & Hlen
          & _).
  - rewrite Hcoords, length_app in Hlen. simpl in Hlen. lia.
  - apply IH; [exact Hin|].
    rewrite Hcoords, length_app. simpl. lia.
Qed.

End RingLoop.

(** ** Ring Tracer: the scan *)

Lemma forEach_invariant {A : Type} (I : tracer → Prop)
    (body : A → tracer → JS.completion tracer) (l : list A) (t : tracer) :
  (∀ a t, a ∈ l → I t → ∃ t', body a t = JS.Normal t' ∧ I t') →
  I t → ∃ t', forEach body l t = JS.Normal t' ∧ I t'.
Proof.
  revert t. induction l as [|a l IH]; intros t Hbody Ht; simpl.
  - eauto.
  - destruct (Hbody a t) as (t1 & -> & Ht1); [left|exact Ht|]. simpl.
    apply IH; [|exact Ht1].
    intros a' t' Ha'. apply Hbody. right. exact Ha'.
Qed.

Section Scan.

Variable cutoff : float.
Variable height : Z.
Variable maxCoordinates : Z.
Variable project : Coordinate → Coordinate.
Variable interpolation : bool.
Variable surface : Surface.
Variable width : Z.

Local Abbreviation cell :=
  (scanCell cutoff height maxCoordinates project interpolation surface width).
Local Abbreviation row :=
  (scanRow cutoff height maxCoordinates project interpolation surface width).

(** What the scan does at one cell: nothing where it does not start a trace,
    what the trace leaves behind otherwise. *)
Lemma scanCell_effect contour origy origx t r t' :
  cell contour origy origx t = JS.Normal (r, t') →
  match r with
  | None => t' = t
  | Some ClosedShell =>
      ∃ ring, traced maxCoordinates [ring] ∧
        shells t' = shells t ++ [[ring]] ∧ holes t' = holes t
  | Some ClosedHole =>
      ∃ ring, traced maxCoordinates [ring] ∧
        shells t' = shells t ∧ holes t' = holes t ++ [[ring]]
  | Some _ => shells t' = shells t ∧ holes t' = holes t
  end.
Proof.
  unfold scanCell.
  destruct (strictEqZ (JS.get (found t) _) 1); [intros [= <- <-]; reflexivity|].
  destruct (_ || strictEqZ _ 15); [intros [= <- <-]; reflexivity|].
  destruct (ringLoop _ _ _ _ _ _ _ _ _ _ _ _ _) as [[why t1]| |] eqn:Hloop;
    simpl; [|discriminate|discriminate].
  intros [= <- <-]. apply ringLoop_effect in Hloop.
  destruct why; exact Hloop.
Qed.

Lemma scanCell_tidy contour origy origx t r t' :
  cell contour origy origx t = JS.Normal (r, t') →
  tidy maxCoordinates t → tidy maxCoordinates t'.
Proof.
  intros Hcell%scanCell_effect [Hs Hh]. unfold tidy.
  destruct r as [[]|]; simpl in Hcell.
  1-4: destruct Hcell as [Hs' Hh']; rewrite Hs', Hh'; split; assumption.
  - destruct Hcell as (ring & Hring & Hs' & Hh'). rewrite Hs', Hh'.
    split; [|assumption].
    apply Forall_app. split; [assumption|].
    apply Forall_singleton. exact Hring.
  - destruct Hcell as (ring & Hring & Hs' & Hh'). rewrite Hs', Hh'.
    split; [assumption|].
    apply Forall_app. split; [assumption|].
    apply Forall_singleton. exact Hring.
  - subst t'. split; assumption.
Qed.

(** On the case grid of the surface the scan of a cell of the grid ends, and
    without an exception. *)
Lemma scanCell_Normal contour origy origx t :
  classified surface width height cutoff contour →
  inGrid width height origx origy →
  ∃ r t', cell contour origy origx t = JS.Normal (r, t').
Proof.
  intros Hcontour Horig. unfold scanCell.
  destruct (strictEqZ (JS.get (found t) _) 1); [eauto|].
  destruct (_ || strictEqZ _ 15); [eauto|].
  edestruct (ringLoop_fuel cutoff height maxCoordinates project interpolation
               surface width (Z.to_nat maxCoordinates) contour origx origy)
    as (why & t' & ->); [exact Hcontour|exact Horig| |simpl; eauto].
  simpl. lia.
Qed.

Lemma scan_Normal contour t :
  classified surface width height cutoff contour →
  tidy maxCoordinates t →
  ∃ t',
    scan cutoff height maxCoordinates project interpolation surface width
      contour t = JS.Normal t' ∧
    tidy maxCoordinates t'.
Proof.
  intros Hcontour. unfold scan.
  apply forEach_invariant. intros origy t0 Hy%elem_of_seqZ.
  unfold scanRow. apply forEach_invariant.
  intros origx t1 Hx%elem_of_seqZ Ht1.
  destruct (scanCell_Normal contour origy origx t1 Hcontour) as (r & t2 & Hc).
  { split; lia. }
  rewrite Hc. simpl. eexists. split; [reflexivity|].
  eapply scanCell_tidy; eassumption.
Qed.

End Scan.

(** ** Nester *)

Section Nester.

Variable maxCoordinates : Z.
Variable PointFeature : Type.
Variable point : Coordinate → PointFeature.
Variable inside : PointFeature → Polygon → bool.

Lemma traced_nested polygon :
  traced maxCoordinates polygon → nested maxCoordinates polygon.
Proof.
  intros (ring & -> & Hring). split; [discriminate|].
  apply Forall_singleton. exists ring. split; [reflexivity|exact Hring].
Qed.

(** A traced hole goes through the callback without an exception, and the
    shells stay polygons of traced rings. *)
Lemma nestHole_Normal st hole :
  traced maxCoordinates hole →
  ∃ st',
    nestHole PointFeature point inside st hole = JS.Normal st' ∧
    (Forall (nested maxCoordinates) st.1 →
     Forall (nested maxCoordinates) st'.1).
Proof.
  intros (ring & -> & Hring).
  destruct ring as [|first ring].
  { destruct Hring as [[Hne _] _]. exfalso. apply Hne. reflexivity. }
  unfold nestHole.
  destruct (list_find _ st.1) as [[i shell]|] eqn:Hfind.
  - eexists. split; [reflexivity|]. simpl. intros Hshells.
    apply list_find_Some in Hfind as (Hi & _).
    apply Forall_insert; [exact Hshells|].
    pose proof (proj1 (Forall_lookup _ _) Hshells i shell Hi) as [Hne Hrings].
    split; [destruct shell; discriminate|].
    apply Forall_app. split; [exact Hrings|].
    apply Forall_singleton. eexists. split; [reflexivity|exact Hring].
  - eexists. split; [reflexivity|]. simpl. auto.
Qed.

Lemma nest_Normal holes st :
  Forall (traced maxCoordinates) holes →
  Forall (nested maxCoordinates) st.1 →
  ∃ st',
    nest PointFeature point inside holes st = JS.Normal st' ∧
    Forall (nested maxCoordinates) st'.1.
Proof.
  revert st. induction holes as [|hole holes IH]; intros st Hholes Hst; simpl.
  - eauto.
  - apply Forall_cons in Hholes as [Hhole Hholes].
    destruct (nestHole_Normal st hole Hhole) as (st1 & -> & Hst1). simpl.
    apply IH; auto.
Qed.

End Nester.

(** ** The whole call *)

Lemma getContour_classified surface width height cutoff contour :
  getContour surface width height cutoff = JS.Normal contour →
  classified surface width height cutoff contour.
Proof.
  intros Hcontour col row [Hcol Hrow].
  destruct (getContour_get surface width height cutoff col row Hcol Hrow)
    as (contour' & Hcontour' & _ & Hget).
  rewrite Hcontour in Hcontour'. injection Hcontour' as <-. exact Hget.
Qed.

Section Call.

Variable cutoff : float.
Variable height : Z.
Variable maxCoordinates : Z.
Variable project : Coordinate → Coordinate.
Variable interpolation : bool.
Variable surface : Surface.
Variable width : Z.
Variable PointFeature : Type.
Variable point : Coordinate → PointFeature.
Variable inside : PointFeature → Polygon → bool.

Local Abbreviation call :=
  (jsolines cutoff height maxCoordinates project interpolation surface width
     PointFeature point inside).

(** A call throws only where the typed arrays cannot be made; otherwise it
    returns, and returns polygons of traced rings. *)
Lemma jsolines_outcome :
  ((width - 1) * (height - 1) < 0 ∧ call = JS.Throws JS.RangeError) ∨
  (0 ≤ (width - 1) * (height - 1) ∧
   ∃ polygons log,
     call = JS.Normal (polygons, log) ∧
     Forall (nested maxCoordinates) polygons).
Proof.
  unfold jsolines.
  destruct (getContour surface width height cutoff) as [contour| |] eqn:Hc.
  - pose proof (getContour_classified _ _ _ _ _ Hc) as Hcontour.
    unfold getContour, JS.new_Uint8Array in Hc. unfold JS.new_Uint8Array.
    destruct (decide ((width - 1) * (height - 1) < 0)); [discriminate|].
    right. split; [lia|]. simpl.
    destruct (scan_Normal cutoff height maxCoordinates project interpolation
                surface width contour
                (Tracer (replicate (Z.to_nat ((width - 1) * (height - 1))) 0)
                   [] [] [] []) Hcontour)
      as (t & -> & Hs & Hh).
    { split; constructor. }
    simpl.
    destruct (nest_Normal maxCoordinates PointFeature point inside (holes t)
                (shells t, log t) Hh) as ([polygons log'] & Hnest & Hnested).
    { simpl. eapply Forall_impl; [exact Hs|]. apply traced_nested. }
    eauto.
  - unfold getContour, JS.new_Uint8Array in Hc.
    destruct (decide ((width - 1) * (height - 1) < 0)); [|discriminate].
    injection Hc as <-. left. split; [assumption|reflexivity].
  - unfold getContour, JS.new_Uint8Array in Hc.
    destruct (decide ((width - 1) * (height - 1) < 0)); discriminate.
Qed.

(** C6. Every ring of the output geometry, the outer boundary of each shell
    and each hole ring attached to a shell, is a non-empty sequence of
    coordinates whose first coordinate equals its last one; every polygon of
    the output has its outer ring. This holds for every surface, so also where
    the region below the cutoff touches the edge of the grid. *)
Theorem jsolines_rings_closed polygons log :
  jsolines cutoff height maxCoordinates project interpolation surface
       width PointFeature point inside
     = JS.Normal (polygons, log) →
  ∀ polygon, polygon ∈ polygons →
    polygon ≠ [] ∧
    ∀ ring, ring ∈ polygon → ring ≠ [] ∧ head ring = last ring.
Proof.
  intros Hcall polygon Hpolygon.
  destruct jsolines_outcome as [[_ Hthrows]|(_ & ps & l & Hnormal & Hnested)].
  { rewrite Hthrows in Hcall. discriminate. }
  rewrite Hnormal in Hcall. injection Hcall as -> ->.
  pose proof (proj1 (Forall_forall _ _) Hnested polygon Hpolygon)
    as [Hne Hrings].
  split; [exact Hne|]. intros ring Hring.
  pose proof (proj1 (Forall_forall _ _) Hrings ring Hring)
    as (ring' & [= <-] & Hclosed & _).
  exact Hclosed.
Qed.

End Call.

(** The ring of [low4], whose region below the cutoff reaches every edge. *)
Lemma jsolines_rings_closed_witness :
  jsolines 60 4 MAX_COORDS Examples.keep true Examples.low4 4
    Coordinate Examples.asPoint Examples.always
  = JS.Normal ([[Examples.low4_ring]], []) ∧
  [Examples.low4_ring] ≠ [] ∧
  Examples.low4_ring ≠ [] ∧
  head Examples.low4_ring = last Examples.low4_ring.
Proof.
  assert (jsolines 60 4 MAX_COORDS Examples.keep true Examples.low4 4
            Coordinate Examples.asPoint Examples.always
          = JS.Normal ([[Examples.low4_ring]], [])) as Hcall
    by (vm_compute; reflexivity).
  split; [exact Hcall|].
  destruct (jsolines_rings_closed _ _ _ _ _ _ _ _ _ _ _ _ Hcall
              [Examples.low4_ring]) as [Hne Hrings].
  { apply list_elem_of_singleton. reflexivity. }
  split; [exact Hne|].
  apply Hrings. apply list_elem_of_singleton. reflexivity.
Defined.

(** ** Rings the tracer gives up *)

Section Discarded.

Variable cutoff : float.
Variable height : Z.
Variable maxCoordinates : Z.
Variable project : Coordinate → Coordinate.
Variable interpolation : bool.
Variable surface : Surface.
Variable width : Z.
Variable PointFeature : Type.
Variable point : Coordinate → PointFeature.
Variable inside : PointFeature → Polygon → bool.

Local Abbreviation body :=
  (ringBody cutoff height maxCoordinates project interpolation surface width).
Local Abbreviation loop :=
  (ringLoop cutoff height maxCoordinates project interpolation surface width).
Local Abbreviation cell :=
  (scanCell cutoff height maxCoordinates project interpolation surface width).
Local Abbreviation call :=
  (jsolines cutoff height maxCoordinates project interpolation surface width
     PointFeature point inside).

Local Abbreviation shift :=
  (shiftCoordinates cutoff height interpolation surface width).

(** The pass that pushes coordinate number [maxCoordinates + 1] leaves the
    loop. *)
Lemma ringBody_Oversized contour origx origy c t followed shifted nx ny coord :
  strictEqZ (JS.get (found t) (y c * (width - 1) + x c)) 1 = false →
  strictEqZ (JS.get contour (y c * (width - 1) + x c)) 0
  || strictEqZ (JS.get contour (y c * (width - 1) + x c)) 15 = false →
  followLoop (JS.get contour (y c * (width - 1) + x c))
    (startx c) (starty c) (x c) (y c) = (followed, Some (nx, ny)) →
  shift (x c) (y c) nx ny = (shifted, Some coord) →
  maxCoordinates < Z.of_nat (length (coords c)) + 1 →
  ∃ t',
    body contour origx origy c t = Break Oversized t' ∧
    shells t' = shells t ∧ holes t' = holes t ∧
    last (log t') = Some (RingCoordinatesExceeded maxCoordinates).
Proof.
  intros Hmarked Hoff Hfollow Hshift Hsize.
  unfold ringBody. cbv zeta. rewrite Hmarked, Hoff, Hfollow, Hshift.
  assert ((Z.of_nat (length (coords c ++ [project coord])) >? maxCoordinates)
          = true) as ->.
  { rewrite Z.gtb_ltb. apply Z.ltb_lt. rewrite length_app. simpl. lia. }
  eexists. split; [reflexivity|]. simpl.
  split; [reflexivity|]. split; [reflexivity|]. apply last_snoc.
Qed.

(** A move that stays in the cell gets no coordinate, and the pass leaves
    the loop. *)
Lemma ringBody_Shifted contour origx origy c t followed nx ny shifted :
  strictEqZ (JS.get (found t) (y c * (width - 1) + x c)) 1 = false →
  strictEqZ (JS.get contour (y c * (width - 1) + x c)) 0
  || strictEqZ (JS.get contour (y c * (width - 1) + x c)) 15 = false →
  followLoop (JS.get contour (y c * (width - 1) + x c))
    (startx c) (starty c) (x c) (y c) = (followed, Some (nx, ny)) →
  shift (x c) (y c) nx ny = (shifted, None) →
  ∃ t',
    body contour origx origy c t = Break Shifted t' ∧
    shells t' = shells t ∧ holes t' = holes t ∧
    log t' = (log t ++ followed ++ shifted)
             ++ [UnexpectedCoordinateShift (x c) (y c) nx ny].
Proof.
  intros Hmarked Hoff Hfollow Hshift.
  unfold ringBody. cbv zeta. rewrite Hmarked, Hoff, Hfollow, Hshift.
  eexists. split; [reflexivity|]. simpl. auto.
Qed.

Lemma interpolate_None (startx starty x y : Z) :
  (interpolate cutoff height startx starty surface width x y).2 = None
  ↔ startx = x ∧ starty = y.
Proof.
  unfold interpolate, crossing.
  destruct (cornerSamples _ _ _ _ _ _) as [[[topLeft topRight] botLeft] botRight].
  rewrite !Z.gtb_ltb.
  destruct (Z.ltb_spec startx x); [destruct (ensureFractionIsNumber _ _)|
  destruct (Z.ltb_spec x startx); [destruct (ensureFractionIsNumber _ _)|
  destruct (Z.ltb_spec y starty); [destruct (ensureFractionIsNumber _ _)|
  destruct (Z.ltb_spec starty y); [destruct (ensureFractionIsNumber _ _)|]]]];
    simpl; split; try discriminate; try lia; auto.
Qed.

Lemma noInterpolate_None (startx starty x y : Z) :
  noInterpolate startx starty x y = None ↔ startx = x ∧ starty = y.
Proof.
  unfold noInterpolate. rewrite !Z.gtb_ltb.
  destruct (Z.ltb_spec startx x); [|
  destruct (Z.ltb_spec x startx); [|
  destruct (Z.ltb_spec y starty); [|
  destruct (Z.ltb_spec starty y)]]];
    split; try discriminate; try lia; auto.
Qed.

(** C7. When the coordinate a pass pushes takes the ring over
    [maxCoordinates] (20000 when the caller leaves it out, within
    10,000–20,000), the pass leaves the loop with a diagnostic and with the
    shells and the holes as they were: the ring in progress is dropped whole.
    The scan then goes on with the next cell of the row. Whenever the two
    typed arrays can be made the call returns, without an exception, and
    every ring it returns is a closed ring of at most [maxCoordinates] traced
    coordinates, so none is a truncated one. *)
Theorem oversized_ring_discarded contour origx origy c t :
  (10000 ≤ MAX_COORDS ≤ 20000 ∧
   jsolinesWithDefaults cutoff height None project (Some interpolation)
     surface width PointFeature point inside
   = jsolines cutoff height MAX_COORDS project interpolation surface width
       PointFeature point inside) ∧
  (∀ followed shifted nx ny coord,
     strictEqZ (JS.get (found t) (y c * (width - 1) + x c)) 1 = false →
     strictEqZ (JS.get contour (y c * (width - 1) + x c)) 0
     || strictEqZ (JS.get contour (y c * (width - 1) + x c)) 15 = false →
     followLoop (JS.get contour (y c * (width - 1) + x c))
       (startx c) (starty c) (x c) (y c) = (followed, Some (nx, ny)) →
     shiftCoordinates cutoff height interpolation surface width
       (x c) (y c) nx ny = (shifted, Some coord) →
     maxCoordinates < Z.of_nat (length (coords c ++ [project coord])) →
     ∃ t',
       ringBody cutoff height maxCoordinates project interpolation surface
       width contour origx origy c t = Break Oversized t' ∧
       shells t' = shells t ∧ holes t' = holes t ∧
       last (log t') = Some (RingCoordinatesExceeded maxCoordinates)) ∧
  (∀ t', ringBody cutoff height maxCoordinates project interpolation surface
       width contour origx origy c t = Break Oversized t' →
     shells t' = shells t ∧ holes t' = holes t) ∧
  (∀ rest t',
     scanCell cutoff height maxCoordinates project interpolation surface
       width contour origy origx t = JS.Normal (Some Oversized, t') →
     shells t' = shells t ∧ holes t' = holes t ∧
     let body origx t :=
       do r <- scanCell cutoff height maxCoordinates project interpolation
                 surface width contour origy origx t;
       JS.Normal (snd r) in
     forEach body (origx :: rest) t = forEach body rest t') ∧
  (0 ≤ (width - 1) * (height - 1) →
   ∃ polygons log,
     jsolines cutoff height maxCoordinates project interpolation surface
       width PointFeature point inside
     = JS.Normal (polygons, log) ∧
     ∀ polygon ring, polygon ∈ polygons → ring ∈ polygon →
       Spec.closed ring ∧ Z.of_nat (length ring) ≤ maxCoordinates + 1).
Proof.
  split; [|split; [|split; [|split]]].
  - split; [unfold MAX_COORDS; lia|reflexivity].
  - intros followed shifted nx ny coord Hmarked Hoff Hfollow Hshift Hsize.
    eapply ringBody_Oversized; try eassumption.
    rewrite length_app in Hsize. simpl in Hsize. lia.
  - intros t' Hstep. apply ringBody_Break in Hstep.
    destruct Hstep as (? & ? & ? & ? & ? & _ & _ & _ & Hs & Hh & _). auto.
  - intros rest t' Hcell. pose proof (scanCell_effect _ _ _ _ _ _ _ _ _ _ _ _ _
                                        Hcell) as [Hs Hh].
    split; [exact Hs|]. split; [exact Hh|].
    simpl. rewrite Hcell. reflexivity.
  - intros Hsize.
    destruct (jsolines_outcome cutoff height maxCoordinates project
                interpolation surface width PointFeature point inside)
      as [[Hneg _]|(_ & polygons & log & Hcall & Hnested)]; [lia|].
    exists polygons, log. split; [exact Hcall|].
    intros polygon ring Hpolygon Hring.
    pose proof (proj1 (Forall_forall _ _) Hnested polygon Hpolygon)
      as [_ Hrings].
    pose proof (proj1 (Forall_forall _ _) Hrings ring Hring)
      as (ring' & [= <-] & Hclosed & Hlen).
    split; assumption.
Qed.

(** C10. The coordinate of a step, from [interpolate] when interpolation is
    on and from [noInterpolate] otherwise, exists iff the new cell differs
    from the cell before it. When the tracer has held its position, as after
    a saddle entered from an unexpected side, there is no coordinate: the pass
    logs the shift and leaves the loop with the shells and the holes as they
    were, and the trace ends there without a ring. *)
Theorem no_coordinate_discards_ring contour origx origy c t :
  (∀ startx starty x y,
     (is_Some (interpolate cutoff height startx starty surface width x y).2
      ↔ startx ≠ x ∨ starty ≠ y) ∧
     (is_Some (noInterpolate startx starty x y)
      ↔ startx ≠ x ∨ starty ≠ y) ∧
     ((shiftCoordinates cutoff height interpolation surface width
        startx starty x y).2 = None
      ↔ startx = x ∧ starty = y)) ∧
  (∀ followed,
     strictEqZ (JS.get (found t) (y c * (width - 1) + x c)) 1 = false →
     strictEqZ (JS.get contour (y c * (width - 1) + x c)) 0
     || strictEqZ (JS.get contour (y c * (width - 1) + x c)) 15 = false →
     followLoop (JS.get contour (y c * (width - 1) + x c))
       (startx c) (starty c) (x c) (y c) = (followed, Some (x c, y c)) →
     ∃ t',
       ringBody cutoff height maxCoordinates project interpolation surface
       width contour origx origy c t = Break Shifted t' ∧
       shells t' = shells t ∧ holes t' = holes t ∧
       last (log t')
       = Some (UnexpectedCoordinateShift (x c) (y c) (x c) (y c))) ∧
  (∀ fuel t',
     ringLoop cutoff height maxCoordinates project interpolation surface
       width fuel contour origx origy c t = JS.Normal (Shifted, t') →
     shells t' = shells t ∧ holes t' = holes t).
Proof.
  assert (∀ startx starty x y,
            (shift startx starty x y).2 = None ↔ startx = x ∧ starty = y)
    as Hnone.
  { intros startx starty col row. unfold shiftCoordinates.
    destruct interpolation.
    - apply interpolate_None.
    - apply noInterpolate_None. }
  split; [|split].
  - intros startx starty col row.
    pose proof (interpolate_None startx starty col row) as Hi.
    pose proof (noInterpolate_None startx starty col row) as Hn.
    split; [|split; [|apply Hnone]].
    + rewrite <- not_eq_None_Some, Hi. lia.
    + rewrite <- not_eq_None_Some, Hn. lia.
  - intros followed Hmarked Hoff Hfollow.
    destruct (shift (x c) (y c) (x c) (y c)) as [shifted coord] eqn:Hshift.
    assert (coord = None) as ->.
    { apply (f_equal snd) in Hshift. simpl in Hshift. rewrite <- Hshift.
      apply Hnone. split; reflexivity. }
    destruct (ringBody_Shifted contour origx origy c t followed (x c) (y c)
                shifted Hmarked Hoff Hfollow Hshift)
      as (t' & Hstep & Hs & Hh & Hlog).
    exists t'. split; [exact Hstep|]. split; [exact Hs|]. split; [exact Hh|].
    rewrite Hlog. apply last_snoc.
  - intros fuel t' Hloop. apply ringLoop_effect in Hloop. exact Hloop.
Qed.

End Discarded.

(** ** Claims on the Nester and the Interpolator *)

(** C8. The Nester takes the first coordinate of a hole, tests it with
    [inside] against the shells in the order they were found, each as the
    holes nested before have left it, and appends the hole's ring to the
    first shell that contains it; when no shell does, the shells stay as they
    are and one diagnostic is logged. The holes are taken in turn, the output
    of the call is what the Nester leaves of the shells, and on the holes the
    tracer has collected it throws nothing. *)
Theorem nestHole_first_containing_shell (PointFeature : Type)
    (point : Coordinate → PointFeature)
    (inside : PointFeature → Polygon → bool)
    (outers : list Polygon) (console : list event)
    (first : Coordinate) (ring : Ring) (others : list Ring) :
  let hole : Polygon := (first :: ring) :: others in
  (∀ i shell,
     outers !! i = Some shell →
     inside (point first) shell = true →
     (∀ j earlier, outers !! j = Some earlier → (j < i)%nat →
                   inside (point first) earlier = false) →
     nestHole PointFeature point inside (outers, console) hole
     = JS.Normal (<[i := shell ++ [first :: ring]]> outers, console)) ∧
  ((∀ shell, shell ∈ outers → inside (point first) shell = false) →
   nestHole PointFeature point inside (outers, console) hole
   = JS.Normal (outers, console ++ [NoFittingShellForHole])) ∧
  (∀ holes,
     nest PointFeature point inside (hole :: holes) (outers, console)
     = do st <- nestHole PointFeature point inside (outers, console) hole;
       nest PointFeature point inside holes st) ∧
  (∀ maxCoordinates holes,
     Forall (traced maxCoordinates) holes →
     ∃ st, nest PointFeature point inside holes (outers, console) = JS.Normal st) ∧
  (∀ cutoff height maxCoordinates project interpolation surface width
     polygons logged,
     jsolines cutoff height maxCoordinates project interpolation surface
       width PointFeature point inside = JS.Normal (polygons, logged) →
     ∃ contour marks t,
       scan cutoff height maxCoordinates project interpolation surface width
         contour (Tracer marks [] [] [] []) = JS.Normal t ∧
       Forall (traced maxCoordinates) (holes t) ∧
       nest PointFeature point inside (holes t) (shells t, log t)
       = JS.Normal (polygons, logged)).
Proof.
  intros hole. split; [|split; [|split; [|split]]].
  - intros i shell Hi Hin Hfirst. unfold nestHole, hole. simpl.
    assert (list_find (fun shell => Is_true (inside (point first) shell))
              outers = Some (i, shell)) as ->; [|reflexivity].
    apply list_find_Some. split; [exact Hi|].
    split; [rewrite Hin; exact I|].
    intros j earlier Hj Hlt. rewrite (Hfirst j earlier Hj Hlt). simpl. auto.
  - intros Hnone. unfold nestHole, hole. simpl.
    assert (list_find (fun shell => Is_true (inside (point first) shell))
              outers = None) as ->; [|reflexivity].
    apply list_find_None. apply Forall_forall. intros shell Hshell.
    rewrite (Hnone shell Hshell). simpl. auto.
  - reflexivity.
  - intros maxCoordinates holes Hholes.
    revert outers console. clear hole.
    induction holes as [|h holes IH]; intros outers console; simpl; [eauto|].
    apply Forall_cons in Hholes as [Hh Hholes].
    destruct (nestHole_Normal maxCoordinates PointFeature point inside
                (outers, console) h Hh) as ([outers' console'] & -> & _).
    simpl. apply IH. exact Hholes.
  - intros cutoff height maxCoordinates project interpolation surface width
      polygons logged. unfold jsolines.
    destruct (getContour surface width height cutoff) as [contour| |] eqn:Hc;
      simpl; [|discriminate|discriminate].
    destruct (JS.new_Uint8Array _) as [marks| |]; simpl;
      [|discriminate|discriminate].
    pose proof (scan_Normal cutoff height maxCoordinates project interpolation
                  surface width contour (Tracer marks [] [] [] [])
                  (getContour_classified _ _ _ _ _ Hc)) as (t & Hscan & _ & Hh).
    { split; constructor. }
    rewrite Hscan. simpl. intros Hnest.
    exists contour, marks, t. auto.
Qed.

(** C9. Before any crossing fraction is computed, [interpolate] replaces the
    corner samples next to the boundary by the cutoff: x = 0 replaces
    top-left and bottom-left, y = 0 top-left and top-right, y = height−2
    bottom-left and bottom-right, x = width−2 top-right and bottom-right;
    the other corners are the samples of the surface. The fractions come
    from the replaced values, so the crossings of a cell of the grid do not
    depend on the samples on the edge of the grid. *)
Theorem interpolate_boundary_override (cutoff : float) (height : Z)
    (surface : Surface) (width x y : Z) :
  (∀ topLeft topRight botLeft botRight,
     cornerSamples cutoff height surface width x y
     = (topLeft, topRight, botLeft, botRight) →
     (x = 0 → topLeft = cutoff ∧ botLeft = cutoff) ∧
     (y = 0 → topLeft = cutoff ∧ topRight = cutoff) ∧
     (y = height - 2 → botLeft = cutoff ∧ botRight = cutoff) ∧
     (x = width - 2 → topRight = cutoff ∧ botRight = cutoff) ∧
     (x ≠ 0 → y ≠ 0 → topLeft = Spec.sampleAt surface width x y) ∧
     (x ≠ width - 2 → y ≠ 0 →
      topRight = Spec.sampleAt surface width (x + 1) y) ∧
     (x ≠ 0 → y ≠ height - 2 →
      botLeft = Spec.sampleAt surface width x (y + 1)) ∧
     (x ≠ width - 2 → y ≠ height - 2 →
      botRight = Spec.sampleAt surface width (x + 1) (y + 1))) ∧
  (∀ startx starty,
     interpolate cutoff height startx starty surface width x y
     = crossing cutoff startx starty x y
         (cornerSamples cutoff height surface width x y)) ∧
  (∀ surface' startx starty,
     inGrid width height x y →
     (∀ col row, 0 < col < width - 1 → 0 < row < height - 1 →
                 Spec.sampleAt surface' width col row
                 = Spec.sampleAt surface width col row) →
     interpolate cutoff height startx starty surface' width x y
     = interpolate cutoff height startx starty surface width x y).
Proof.
  split; [|split].
  - intros topLeft topRight botLeft botRight. unfold cornerSamples, Spec.sampleAt.
    replace ((y + 1) * width + (x + 1)) with (y * width + x + width + 1) by lia.
    replace ((y + 1) * width + x) with (y * width + x + width) by lia.
    replace (y * width + (x + 1)) with (y * width + x + 1) by lia.
    cbv zeta.
    destruct (Z.eqb_spec x 0), (Z.eqb_spec y 0), (Z.eqb_spec y (height - 2)),
      (Z.eqb_spec x (width - 2));
      intros [= <- <- <- <-]; repeat split; intros; congruence.
  - reflexivity.
  - intros surface' startx starty [Hx Hy] Hsame. unfold interpolate.
    f_equal. unfold cornerSamples. cbv zeta.
    pose proof (Hsame x y) as Htl.
    pose proof (Hsame (x + 1) y) as Htr.
    pose proof (Hsame x (y + 1)) as Hbl.
    pose proof (Hsame (x + 1) (y + 1)) as Hbr.
    unfold Spec.sampleAt in Htl, Htr, Hbl, Hbr.
    replace ((y + 1) * width + (x + 1)) with (y * width + x + width + 1)
      in Hbr by lia.
    replace ((y + 1) * width + x) with (y * width + x + width) in Hbl by lia.
    replace (y * width + (x + 1)) with (y * width + x + 1) in Htr by lia.
    destruct (Z.eqb_spec x 0), (Z.eqb_spec y 0), (Z.eqb_spec y (height - 2)),
      (Z.eqb_spec x (width - 2));
      rewrite ?Htl, ?Htr, ?Hbl, ?Hbr by lia; reflexivity.
Qed.

(** On binary64, a finite number is neither NaN nor +Infinity. *)
Lemma isFinite_passes (frac : float) :
  JS.isFinite frac = true →
  JS.isNaN frac || JS.strictEq frac JS.Infinity = false.
Proof.
  unfold JS.isFinite, JS.isNaN, JS.strictEq, JS.Infinity, is_finite.
  intros Hfinite. apply negb_true_iff, orb_false_iff in Hfinite as [Hnan Hinf].
  rewrite Hnan. simpl. revert Hinf. unfold is_infinity.
  rewrite !FloatAxioms.eqb_spec, FloatAxioms.abs_spec.
  destruct (Prim2SF frac) as [s|[]| |s m e]; vm_compute; congruence.
Qed.

(** The guard taken alone: −Infinity is not a finite number, yet it is
    neither NaN nor [=== Infinity] and goes through unchanged and without a
    diagnostic. No move of a trace computes it (see the fractions of a
    trace, at the end). *)
Example ensureFractionIsNumber_neg_infinity :
  JS.isFinite neg_infinity = false ∧
  ensureFractionIsNumber neg_infinity fromLeft = ([], neg_infinity).
Proof. vm_compute. split; reflexivity. Qed.

(** ** Worked examples *)

(** The case grid of [band5]: the band 2-3-3-1 / 6-13-14-9 / 6-11-7-9 /
    4-12-12-8 around the centre. *)
Example getContour_band5 :
  getContour Examples.band5 5 5 60
  = JS.Normal [2; 3; 3; 1; 6; 13; 14; 9; 6; 11; 7; 9; 4; 12; 12; 8].
Proof. vm_compute. reflexivity. Qed.

(** Without interpolation every coordinate is the midpoint of a cell edge:
    the ring around the block of [block4]. *)
Example jsolines_block4_midpoints :
  jsolines 60 4 MAX_COORDS Examples.keep false Examples.block4 4
    Coordinate Examples.asPoint Examples.always
  = JS.Normal
      ([[[(0.5, 1); (0.5, 2); (1, 2.5); (2, 2.5); (2.5, 2); (2.5, 1);
          (2, 0.5); (1, 0.5); (0.5, 1)]%float]], []).
Proof. vm_compute. reflexivity. Qed.

(** [band5] gives a shell and a hole. With an [inside] that accepts, the
    hole is nested in the shell; with one that refuses, it is dropped and the
    drop is logged. *)
Example jsolines_band5_nested :
  jsolines 60 5 MAX_COORDS Examples.keep true Examples.band5 5
    Coordinate Examples.asPoint Examples.always
  = JS.Normal ([[Examples.band5_shell; Examples.band5_hole]], []) ∧
  jsolines 60 5 MAX_COORDS Examples.keep true Examples.band5 5
    Coordinate Examples.asPoint Examples.never
  = JS.Normal ([[Examples.band5_shell]], [NoFittingShellForHole]).
Proof. vm_compute. split; reflexivity. Qed.

(** With room for three coordinates only, the ring of [block4] (eight
    coordinates) is given up at the fourth: nothing is returned, nothing is
    thrown, and the scan goes on (and runs into the marked cells from the
    cells the trace had not reached). *)
Example jsolines_block4_oversized :
  ∃ later,
    jsolines 60 4 3 Examples.keep false Examples.block4 4
      Coordinate Examples.asPoint Examples.always
    = JS.Normal ([], RingCoordinatesExceeded 3 :: later).
Proof. eexists. vm_compute. reflexivity. Qed.

(** A saddle (case 5) entered from the side: [followLoop] holds the position,
    there is no coordinate, the pass leaves the loop and keeps nothing. *)
Example ringBody_held_saddle :
  ringBody 60 3 MAX_COORDS Examples.keep true Examples.flat4 3 [5; 0; 0; 0]
    1 0 (Cursor 0 0 1 1 1 0 (Some 4) 0 [(1, 0.5)%float])
    (Tracer [0; 1; 0; 0] [Some 4] [] [] [])
  = Break Shifted
      (Tracer [0; 1; 0; 0] [Some 4; Some 5] [] []
         [Case5WrongDirection; UnexpectedCoordinateShift 0 0 0 0]).
Proof. vm_compute. reflexivity. Qed.

(** A pass that closes a ring with the accumulator at zero pushes it to the
    holes. *)
Example ringBody_zero_winding :
  ringBody 60 3 MAX_COORDS Examples.keep false Examples.flat4 3 [0; 1; 0; 0]
    0 0 (Cursor 1 0 0 1 1 1 (Some 8) 0 [(1.5, 1)%float])
    (Tracer [0; 0; 0; 1] [Some 8] [] [] [])
  = Break ClosedHole
      (Tracer [0; 1; 0; 1] [Some 8; Some 1] []
         [[[(1.5, 1); (1, 0.5); (1.5, 1)]%float]] []).
Proof. vm_compute. reflexivity. Qed.

(** In a cell on the left edge of the grid the crossing of the top side is
    computed with the cutoff in place of the top-left sample: it lies on the
    edge itself, at x = 0, and not at 40/90 between the samples 100 and 10. *)
Example interpolate_block4_edge_cell :
  interpolate 60 4 0 0 Examples.block4 4 0 1 = ([], Some (0, 1)%float) ∧
  ((60 - 100) / (10 - 100))%float = 0x1.c71c71c71c71cp-2%float.
Proof. vm_compute. split; reflexivity. Qed.

(** * Further properties *)

(** ** The case grid *)

Section CaseGrid.

Variables (surface : Surface) (width height : Z) (cutoff : float).

Local Abbreviation case := (contourCase surface width height cutoff).

(** A case code is fixed by its four bits. *)
Lemma case_of_bits (k : Z) (b3 b2 b1 b0 : bool) :
  0 ≤ k < 16 →
  Z.testbit k 3 = b3 → Z.testbit k 2 = b2 →
  Z.testbit k 1 = b1 → Z.testbit k 0 = b0 →
  k = 8 * Z.b2z b3 + 4 * Z.b2z b2 + 2 * Z.b2z b1 + Z.b2z b0.
Proof.
  intros Hk <- <- <- <-.
  assert (k = 0 ∨ k = 1 ∨ k = 2 ∨ k = 3 ∨ k = 4 ∨ k = 5 ∨ k = 6 ∨ k = 7 ∨
          k = 8 ∨ k = 9 ∨ k = 10 ∨ k = 11 ∨ k = 12 ∨ k = 13 ∨ k = 14 ∨
          k = 15) as Hcases by lia.
  repeat (destruct Hcases as [-> | Hcases]; [reflexivity|]).
  subst k. reflexivity.
Qed.

(** Two cells of the grid that share a side agree on the two corners of
    that side, also after the edge-closing rule. *)
Lemma contourCase_neighbours (x y : Z) :
  (inGrid width height x y → inGrid width height (x + 1) y →
   Z.testbit (case (x + 1) y) 3 = Z.testbit (case x y) 2 ∧
   Z.testbit (case (x + 1) y) 0 = Z.testbit (case x y) 1) ∧
  (inGrid width height x y → inGrid width height x (y + 1) →
   Z.testbit (case x (y + 1)) 3 = Z.testbit (case x y) 0 ∧
   Z.testbit (case x (y + 1)) 2 = Z.testbit (case x y) 1).
Proof.
  pose proof (contourCase_bits surface width height cutoff x y)
    as (H3 & H2 & H1 & H0).
  split.
  - intros [Hx Hy] [Hx' _].
    pose proof (contourCase_bits surface width height cutoff (x + 1) y)
      as (H3' & _ & _ & H0').
    rewrite H3', H0', H2, H1.
    replace (y * width + (x + 1)) with (y * width + x + 1) by lia.
    replace (y * width + x + 1 + width) with (y * width + x + width + 1)
      by lia.
    assert ((x + 1 =? 0) = false) as -> by (apply Z.eqb_neq; lia).
    assert ((x =? width - 2) = false) as -> by (apply Z.eqb_neq; lia).
    split; reflexivity.
  - intros [Hx Hy] [_ Hy'].
    pose proof (contourCase_bits surface width height cutoff x (y + 1))
      as (H3' & H2' & _ & _).
    rewrite H3', H2', H1, H0.
    replace ((y + 1) * width + x) with (y * width + x + width) by lia.
    assert ((y + 1 =? 0) = false) as -> by (apply Z.eqb_neq; lia).
    assert ((y =? height - 2) = false) as -> by (apply Z.eqb_neq; lia).
    rewrite !andb_true_r. split; reflexivity.
Qed.

(** X1. In the array [getContour] returns, two cells of the grid that share
    a side agree on the two corners of that side, also after the edge-closing
    rule: the right corners of a cell (bits 2 and 1) are the left corners
    (bits 3 and 0) of the cell to its right, and its bottom corners (bits 0
    and 1) are the top corners (bits 3 and 2) of the cell below. *)
Theorem getContour_shared_corners (contour : list Z) (x y k : Z) :
  getContour surface width height cutoff = JS.Normal contour →
  inGrid width height x y →
  JS.get contour (y * (width - 1) + x) = Some k →
  (∀ right, inGrid width height (x + 1) y →
     JS.get contour (y * (width - 1) + (x + 1)) = Some right →
     Z.testbit right 3 = Z.testbit k 2 ∧ Z.testbit right 0 = Z.testbit k 1) ∧
  (∀ below, inGrid width height x (y + 1) →
     JS.get contour ((y + 1) * (width - 1) + x) = Some below →
     Z.testbit below 3 = Z.testbit k 0 ∧ Z.testbit below 2 = Z.testbit k 1).
Proof.
  intros Hcontour Hin Hk.
  assert (∀ col row v, inGrid width height col row →
            JS.get contour (row * (width - 1) + col) = Some v →
            v = case col row) as Hcase.
  { intros col row v [Hcol Hrow] Hv.
    destruct (getContour_get surface width height cutoff col row Hcol Hrow)
      as (contour' & Hc' & _ & Hget).
    rewrite Hcontour in Hc'. injection Hc' as <-. congruence. }
  apply Hcase in Hk; [|exact Hin]. subst k.
  destruct (contourCase_neighbours x y) as [Hright Hbelow].
  split.
  - intros right Hin' Hr. apply Hcase in Hr; [|exact Hin']. subst right.
    apply Hright; assumption.
  - intros below Hin' Hb. apply Hcase in Hb; [|exact Hin']. subst below.
    apply Hbelow; assumption.
Qed.

End CaseGrid.

Lemma getContour_shared_corners_witness :
  inGrid 5 5 1 1 ∧
  ∃ contour k right,
    getContour Examples.band5 5 5 60 = JS.Normal contour ∧
    JS.get contour (1 * (5 - 1) + 1) = Some k ∧
    JS.get contour (1 * (5 - 1) + (1 + 1)) = Some right ∧
    Z.testbit right 3 = Z.testbit k 2 ∧ Z.testbit right 0 = Z.testbit k 1.
Proof.
  assert (inGrid 5 5 1 1) as Hin by (unfold inGrid; lia).
  split; [exact Hin|].
  exists [2; 3; 3; 1; 6; 13; 14; 9; 6; 11; 7; 9; 4; 12; 12; 8], 13, 14.
  assert (getContour Examples.band5 5 5 60
          = JS.Normal [2; 3; 3; 1; 6; 13; 14; 9; 6; 11; 7; 9; 4; 12; 12; 8])
    as Hcontour by (vm_compute; reflexivity).
  split; [exact Hcontour|]. split; [reflexivity|]. split; [reflexivity|].
  apply (getContour_shared_corners Examples.band5 5 5 60 _ 1 1 13 Hcontour Hin
           eq_refl).
  - unfold inGrid. lia.
  - reflexivity.
Defined.

(** ** The exit table *)

(** Where [followLoop] moves, the side it leaves by is crossed by the line:
    the corner on the left of the move is below the cutoff and the corner on
    its right is not. *)
Lemma followLoop_exit_bits (k prevx prevy x y : Z) followed nx ny :
  followLoop (Some k) prevx prevy x y = (followed, Some (nx, ny)) →
  (nx = x ∧ ny = y ∧ followed ≠ [] ∧
   (k = 5 ∧ prevy = y ∨ k = 10 ∧ prevx = x)) ∨
  followed = [] ∧
  (nx = x - 1 ∧ ny = y ∧ Z.testbit k 0 = true ∧ Z.testbit k 3 = false ∨
   nx = x + 1 ∧ ny = y ∧ Z.testbit k 2 = true ∧ Z.testbit k 1 = false ∨
   nx = x ∧ ny = y + 1 ∧ Z.testbit k 1 = true ∧ Z.testbit k 0 = false ∨
   nx = x ∧ ny = y - 1 ∧ Z.testbit k 3 = true ∧ Z.testbit k 2 = false).
Proof.
  destruct k as [|p|p]; [discriminate| |discriminate].
  do 4 (try destruct p as [p|p|]); try discriminate; simpl;
    rewrite ?Z.gtb_ltb;
    repeat match goal with
           | |- context [?a <? ?b] => destruct (Z.ltb_spec a b)
           end;
    intros [= <- <- <-]; try lia;
    try (right; split; [reflexivity|]; simpl; tauto);
    left; repeat split; try discriminate; lia.
Qed.

(** X2. [followLoop] returns [undefined] exactly for a case that is not one
    of 1 to 14 (0, 15, a value read outside the case grid); for the others it
    returns the cell itself or one of its four neighbours, logs exactly when
    it returns the cell itself, and where it moves the line crosses the side
    it leaves by, with the corner below the cutoff on the left of the move:
    −x needs bottom-left set and top-left clear, +x top-right set and
    bottom-right clear, +y bottom-right set and bottom-left clear, −y
    top-left set and top-right clear. *)
Theorem followLoop_keeps_filled_left (idx : option Z) (prevx prevy x y : Z) :
  ((followLoop idx prevx prevy x y).2 = None
   ↔ ∀ k, idx = Some k → ¬ 1 ≤ k ≤ 14) ∧
  (∀ followed nx ny k,
     idx = Some k →
     followLoop idx prevx prevy x y = (followed, Some (nx, ny)) →
     (followed ≠ [] ↔ nx = x ∧ ny = y) ∧
     (nx = x - 1 ∧ ny = y →
      Z.testbit k 0 = true ∧ Z.testbit k 3 = false) ∧
     (nx = x + 1 ∧ ny = y →
      Z.testbit k 2 = true ∧ Z.testbit k 1 = false) ∧
     (nx = x ∧ ny = y + 1 →
      Z.testbit k 1 = true ∧ Z.testbit k 0 = false) ∧
     (nx = x ∧ ny = y - 1 →
      Z.testbit k 3 = true ∧ Z.testbit k 2 = false) ∧
     Z.abs (nx - x) + Z.abs (ny - y) ≤ 1).
Proof.
  split.
  - destruct idx as [k|]; [|split; [intros _ k [=]|reflexivity]].
    split.
    + intros Hnone k' [= <-] Hk.
      assert (k = 1 ∨ k = 2 ∨ k = 3 ∨ k = 4 ∨ k = 5 ∨ k = 6 ∨ k = 7 ∨
              k = 8 ∨ k = 9 ∨ k = 10 ∨ k = 11 ∨ k = 12 ∨ k = 13 ∨ k = 14)
        as Hcases by lia.
      revert Hnone.
      repeat (destruct Hcases as [-> | Hcases];
              [simpl; repeat destruct (_ : bool); discriminate|]).
      subst k. discriminate.
    + intros Hk.
      destruct (followLoop (Some k) prevx prevy x y)
        as [followed [[nx ny]|]] eqn:Hfollow; [|reflexivity].
      exfalso. apply (Hk k eq_refl).
      destruct k as [|p|p]; [discriminate| |discriminate].
      do 4 (try destruct p as [p|p|]); try discriminate; lia.
  - intros followed nx ny k -> Hfollow.
    apply followLoop_exit_bits in Hfollow.
    destruct Hfollow as [(-> & -> & Hlog & _)|[-> Hmove]].
    + split; [tauto|].
      repeat (split; [intros [? ?]; lia|]). lia.
    + assert (([] : list event) ≠ [] ↔ nx = x ∧ ny = y) as Hheld
        by (split; [intros Hne; contradiction Hne; reflexivity|lia]).
      split; [exact Hheld|].
      destruct Hmove as [Hm|[Hm|[Hm|Hm]]];
        destruct Hm as (-> & -> & Hset & Hclear);
        repeat (split; [intros [? ?]; try lia; split; assumption|]); lia.
Qed.

(** ** Traces on the case grid of the surface *)

Lemma forEach_preserves {A : Type} (I : tracer → Prop)
    (body : A → tracer → JS.completion tracer) (l : list A) (t t' : tracer) :
  (∀ a t t', a ∈ l → I t → body a t = JS.Normal t' → I t') →
  I t → forEach body l t = JS.Normal t' → I t'.
Proof.
  revert t. induction l as [|a l IH]; intros t Hbody Ht; simpl.
  - intros [= <-]. exact Ht.
  - destruct (body a t) as [t1| |] eqn:Ha; simpl; try discriminate.
    apply IH.
    + intros a' s s' Ha'. apply Hbody. right. exact Ha'.
    + eapply Hbody; [left|exact Ht|exact Ha].
Qed.

(** What [interpolate] and [noInterpolate] log is about fractions only. *)
Lemma shiftCoordinates_log cutoff height interpolation surface width
    startx starty x y :
  Forall (fun e => ¬ defensive e)
    (shiftCoordinates cutoff height interpolation surface width
       startx starty x y).1.
Proof.
  unfold shiftCoordinates, interpolate, crossing.
  destruct interpolation; [|constructor].
  destruct (cornerSamples _ _ _ _ _ _)
    as [[[topLeft topRight] botLeft] botRight].
  repeat match goal with
         | |- context [if ?b then _ else _] =>
             lazymatch b with
             | JS.isNaN _ || _ => fail
             | _ => destruct b
             end
         end;
    unfold ensureFractionIsNumber;
    try destruct (JS.isNaN _ || JS.strictEq _ _); simpl;
    repeat constructor; auto.
Qed.

Section OnTheCaseGrid.

Variable cutoff : float.
Variable height : Z.
Variable maxCoordinates : Z.
Variable project : Coordinate → Coordinate.
Variable interpolation : bool.
Variable surface : Surface.
Variable width : Z.

Local Abbreviation body :=
  (ringBody cutoff height maxCoordinates project interpolation surface width).
Local Abbreviation loop :=
  (ringLoop cutoff height maxCoordinates project interpolation surface width).
Local Abbreviation shift :=
  (shiftCoordinates cutoff height interpolation surface width).
Local Abbreviation case := (contourCase surface width height cutoff).
Local Abbreviation entered := (wellEntered surface width height cutoff).

(** From a cell entered as the table expects, the table moves to a
    neighbour, without a diagnostic, and that neighbour is entered as the
    table expects. *)
Lemma followLoop_wellEntered prevx prevy col row :
  inGrid width height col row →
  case col row ≠ 0 → case col row ≠ 15 →
  (case col row = 5 → prevy ≠ row) →
  (case col row = 10 → prevx ≠ col) →
  ∃ nx ny,
    followLoop (Some (case col row)) prevx prevy col row
    = ([], Some (nx, ny)) ∧
    inGrid width height nx ny ∧
    Z.abs (nx - col) + Z.abs (ny - row) = 1 ∧
    case nx ny ≠ 0 ∧ case nx ny ≠ 15 ∧
    (case nx ny = 5 → row ≠ ny) ∧
    (case nx ny = 10 → col ≠ nx).
Proof.
  intros Hin H0 H15 H5 H10.
  destruct (followLoop_inGrid surface width height cutoff prevx prevy col row
              Hin H0 H15) as (followed & nx & ny & Hfollow & Hin').
  pose proof (followLoop_exit_bits _ _ _ _ _ _ _ _ Hfollow) as Hbits.
  destruct Hbits as [(_ & _ & _ & [[Hk Hp]|[Hk Hp]])|[-> Hmove]].
  { exfalso. exact (H5 Hk Hp). }
  { exfalso. exact (H10 Hk Hp). }
  exists nx, ny. split; [exact Hfollow|]. split; [exact Hin'|].
  assert (∀ k, Z.testbit k 1 = true → Z.testbit k 2 = false →
               k ≠ 0 ∧ k ≠ 15 ∧ k ≠ 5) as Hfrom_right.
  { intros k H1 H2. repeat split; intros ->; discriminate. }
  assert (∀ k, Z.testbit k 3 = true → Z.testbit k 0 = false →
               k ≠ 0 ∧ k ≠ 15 ∧ k ≠ 5) as Hfrom_left.
  { intros k H1 H2. repeat split; intros ->; discriminate. }
  assert (∀ k, Z.testbit k 2 = true → Z.testbit k 3 = false →
               k ≠ 0 ∧ k ≠ 15 ∧ k ≠ 10) as Hfrom_top.
  { intros k H1 H2. repeat split; intros ->; discriminate. }
  assert (∀ k, Z.testbit k 0 = true → Z.testbit k 1 = false →
               k ≠ 0 ∧ k ≠ 15 ∧ k ≠ 10) as Hfrom_bottom.
  { intros k H1 H2. repeat split; intros ->; discriminate. }
  destruct Hmove as [Hm|[Hm|[Hm|Hm]]]; destruct Hm as (-> & -> & Hset & Hclear).
  - destruct (contourCase_neighbours surface width height cutoff (col - 1) row)
      as [Hn _].
    replace (col - 1 + 1) with col in Hn by lia.
    destruct (Hn Hin' Hin) as [H3 H0'].
    destruct (Hfrom_right (case (col - 1) row)) as (? & ? & ?);
      [congruence|congruence|].
    repeat split; try assumption; try lia; intros; contradiction.
  - destruct (contourCase_neighbours surface width height cutoff col row)
      as [Hn _].
    destruct (Hn Hin Hin') as [H3 H0'].
    destruct (Hfrom_left (case (col + 1) row)) as (? & ? & ?);
      [congruence|congruence|].
    repeat split; try assumption; try lia; intros; contradiction.
  - destruct (contourCase_neighbours surface width height cutoff col row)
      as [_ Hn].
    destruct (Hn Hin Hin') as [H3 H2].
    destruct (Hfrom_top (case col (row + 1))) as (? & ? & ?);
      [congruence|congruence|].
    repeat split; try assumption; try lia; intros; contradiction.
  - destruct (contourCase_neighbours surface width height cutoff col (row - 1))
      as [_ Hn].
    replace (row - 1 + 1) with row in Hn by lia.
    destruct (Hn Hin' Hin) as [H3 H2].
    destruct (Hfrom_bottom (case col (row - 1))) as (? & ? & ?);
      [congruence|congruence|].
    repeat split; try assumption; try lia; intros; contradiction.
Qed.

Lemma shiftCoordinates_None startx starty col row :
  (shift startx starty col row).2 = None ↔ startx = col ∧ starty = row.
Proof.
  unfold shiftCoordinates. destruct interpolation.
  - apply interpolate_None.
  - apply noInterpolate_None.
Qed.

(** A pass from a cell of the grid that was entered as the table expects:
    it never takes a defensive branch. *)
Lemma ringBody_onGrid contour origx origy c t :
  classified surface width height cutoff contour →
  inGrid width height (x c) (y c) →
  entered c →
  match body contour origx origy c t with
  | Continue c' t' =>
      inGrid width height (x c') (y c') ∧ entered c' ∧
      Z.abs (x c' - x c) + Z.abs (y c' - y c) = 1 ∧
      ∃ shifted coord,
        shift (x c) (y c) (x c') (y c') = (shifted, Some coord) ∧
        coords c' = coords c ++ [project coord] ∧
        log t' = log t ++ shifted ∧
        shells t' = shells t ∧ holes t' = holes t
  | Break Crossed t' =>
      shells t' = shells t ∧ holes t' = holes t ∧
      log t' = log t ++ [RingCrossesOtherRing (x c) (y c) (idx c);
                         LastFewIndices (lastFew (indices t))]
  | Break Oversized t' =>
      shells t' = shells t ∧ holes t' = holes t ∧
      ∃ shifted,
        Forall (fun e => ¬ defensive e) shifted ∧
        log t' = (log t ++ shifted)
                 ++ [RingCoordinatesExceeded maxCoordinates]
  | Break ClosedShell t' =>
      inGrid width height origx origy ∧
      Z.abs (origx - x c) + Z.abs (origy - y c) = 1 ∧
      ∃ shifted coord,
        shift (x c) (y c) origx origy = (shifted, Some coord) ∧
        let pushed := coords c ++ [project coord] in
        shells t' = shells t ++ [[pushed ++ [hd (project coord) pushed]]] ∧
        holes t' = holes t ∧
        log t' = log t ++ shifted
  | Break ClosedHole t' =>
      inGrid width height origx origy ∧
      Z.abs (origx - x c) + Z.abs (origy - y c) = 1 ∧
      ∃ shifted coord,
        shift (x c) (y c) origx origy = (shifted, Some coord) ∧
        let pushed := coords c ++ [project coord] in
        shells t' = shells t ∧
        holes t' = holes t ++ [[pushed ++ [hd (project coord) pushed]]] ∧
        log t' = log t ++ shifted
  | Break RanOff _ | Break Shifted _ | Raise _ => False
  end.
Proof.
  intros Hcontour Hin (H0 & H15 & H5 & H10).
  destruct (followLoop_wellEntered (startx c) (starty c) (x c) (y c)
              Hin H0 H15 H5 H10)
    as (nx & ny & Hfollow & Hin' & Hadj & H0' & H15' & H5' & H10').
  pose proof (ringBody_inGrid cutoff height maxCoordinates project
                interpolation surface width contour origx origy c t
                Hcontour Hin) as Hgrid.
  destruct (body contour origx origy c t) as [c' t'|why t'|e] eqn:Hstep;
    [| |exact Hgrid].
  - apply ringBody_Continue in Hstep
      as (followed & shifted & coord & Hf & Hshift & _ & _ & _ & Hsx & Hsy
          & _ & _ & Hcoords & _ & Hs & Hh & Hlog).
    rewrite (Hcontour _ _ Hin), Hfollow in Hf.
    injection Hf as <- Hnx Hny. subst nx ny.
    split; [exact Hin'|]. split.
    { unfold wellEntered. rewrite Hsx, Hsy. auto. }
    split; [exact Hadj|].
    exists shifted, coord. simpl in Hlog. auto.
  - apply ringBody_Break in Hstep. cbv zeta in Hstep.
    rewrite (Hcontour _ _ Hin), ?Hfollow in Hstep.
    destruct why.
    + destruct Hstep as (_ & Hs & Hh & Hlog). auto.
    + destruct Hstep as (Hoff & _). simpl in Hoff.
      apply orb_true_iff in Hoff as [Hk%Z.eqb_eq|Hk%Z.eqb_eq]; contradiction.
    + destruct Hstep as (? & shifted & ? & ? & [= <- <- <-] & Hshift & _).
      apply (f_equal snd) in Hshift. simpl in Hshift.
      apply shiftCoordinates_None in Hshift. lia.
    + destruct Hstep
        as (? & shifted & ? & ? & coord & [= <- <- <-] & Hshift & _ & Hs & Hh
            & Hlog).
      split; [exact Hs|]. split; [exact Hh|]. exists shifted. split.
      * pose proof (shiftCoordinates_log cutoff height interpolation surface
                      width (x c) (y c) nx ny) as Hl.
        rewrite Hshift in Hl. exact Hl.
      * simpl in Hlog. exact Hlog.
    + destruct Hstep
        as (? & shifted & coord & [= <- <- <-] & Hshift & _ & _ & Hs & Hh
            & Hlog).
      split; [exact Hin'|].
      split; [exact Hadj|]. exists shifted, coord. simpl in Hlog. auto.
    + destruct Hstep
        as (? & shifted & coord & [= <- <- <-] & Hshift & _ & _ & Hs & Hh
            & Hlog).
      split; [exact Hin'|].
      split; [exact Hadj|]. exists shifted, coord. simpl in Hlog. auto.
Qed.

(** An invariant [K] of the passes from well-entered cells of the grid that
    turns into [I] when a trace ends, and that [I] gives at the start of a
    trace, makes [I] an invariant of the scan. *)
Lemma scan_invariant (I : tracer → Prop) (K : cursor → tracer → Prop)
    contour t t' :
  classified surface width height cutoff contour →
  (∀ origx origy t,
     inGrid width height origx origy → I t →
     K (Cursor origx origy (-1) (-1) (-1) (-1)
          (JS.get contour (origy * (width - 1) + origx)) 0 []) t) →
  (∀ origx origy c t,
     inGrid width height (x c) (y c) → entered c → K c t →
     match body contour origx origy c t with
     | Continue c' t' => K c' t'
     | Break _ t' => I t'
     | Raise _ => True
     end) →
  I t →
  scan cutoff height maxCoordinates project interpolation surface width
    contour t = JS.Normal t' →
  I t'.
Proof.
  intros Hcontour Hstart Hstep.
  assert (∀ fuel origx origy c t why t',
            inGrid width height (x c) (y c) → entered c → K c t →
            loop fuel contour origx origy c t = JS.Normal (why, t') → I t')
    as Hloop.
  { induction fuel as [|fuel IH]; intros origx origy c s why s' Hin Hent Hk;
      simpl; [discriminate|].
    pose proof (Hstep origx origy c s Hin Hent Hk) as Hs.
    pose proof (ringBody_onGrid contour origx origy c s Hcontour Hin Hent)
      as Hg.
    destruct (body contour origx origy c s) as [c1 s1|why1 s1|e];
      [|intros [= <- <-]; exact Hs|discriminate].
    destruct Hg as (Hin1 & Hent1 & _). apply IH; assumption. }
  unfold scan. apply forEach_preserves.
  intros origy s s' Hy%elem_of_seqZ Hs. unfold scanRow.
  apply forEach_preserves; [|exact Hs].
  intros origx r r' Hx%elem_of_seqZ Hr. unfold scanCell.
  destruct (strictEqZ (JS.get (found r) _) 1); [intros [= <-]; exact Hr|].
  assert (inGrid width height origx origy) as Hin by (split; lia).
  rewrite (Hcontour _ _ Hin).
  destruct (_ || strictEqZ _ 15) eqn:Hskip; [intros [= <-]; exact Hr|].
  simpl in Hskip.
  repeat (apply orb_false_iff in Hskip as [Hskip ?%Z.eqb_neq]).
  apply Z.eqb_neq in Hskip.
  destruct (ringLoop _ _ _ _ _ _ _ _ _ _ _ _ _) as [[why r1]| |] eqn:Hl;
    simpl; [|discriminate|discriminate].
  intros [= <-]. eapply Hloop; [| |apply Hstart; [exact Hin|exact Hr]|].
  - exact Hin.
  - unfold wellEntered. simpl. repeat split; try assumption; contradiction.
  - rewrite (Hcontour _ _ Hin). exact Hl.
Qed.

End OnTheCaseGrid.

(** ** The Nester keeps account of the rings *)

Lemma sum_list_insert_snoc {A : Type} (l : list (list A)) i (s : list A) r :
  l !! i = Some s →
  sum_list (length <$> <[i := s ++ [r]]> l) = S (sum_list (length <$> l)).
Proof.
  revert i. induction l as [|s0 l IH]; intros [|i]; csimpl; try discriminate.
  - intros [= ->]. rewrite length_app. simpl. lia.
  - intros Hi. rewrite (IH i Hi). lia.
Qed.

Section Accounts.

Variable PointFeature : Type.
Variable point : Coordinate → PointFeature.
Variable inside : PointFeature → Polygon → bool.

Lemma nestHole_accounts st hole st' :
  nestHole PointFeature point inside st hole = JS.Normal st' →
  ∃ ring, head hole = Some ring ∧
    length st'.1 = length st.1 ∧
    (∀ i s, st.1 !! i = Some s →
       st'.1 !! i = Some s ∨ st'.1 !! i = Some (s ++ [ring])) ∧
    (st'.2 = st.2 ∧
     sum_list (length <$> st'.1) = S (sum_list (length <$> st.1)) ∨
     st'.2 = st.2 ++ [NoFittingShellForHole] ∧ st'.1 = st.1).
Proof.
  unfold nestHole. destruct hole as [|[|first ring] others]; try discriminate.
  destruct (list_find _ st.1) as [[i shell]|] eqn:Hfind; intros [= <-];
    exists (first :: ring); (split; [reflexivity|]); simpl.
  - apply list_find_Some in Hfind as (Hi & _).
    split; [apply length_insert|]. split.
    + intros j s Hj. destruct (decide (i = j)) as [<-|Hne].
      * right. rewrite list_lookup_insert_eq by (eapply lookup_lt_Some, Hi).
        assert (Some shell = Some s) as [= ->] by (rewrite <- Hi; exact Hj).
        reflexivity.
      * left. rewrite list_lookup_insert_ne by exact Hne. exact Hj.
    + left. split; [reflexivity|]. apply sum_list_insert_snoc. exact Hi.
  - split; [reflexivity|]. split; [auto|]. right. split; reflexivity.
Qed.

Lemma nest_accounts holes st st' :
  nest PointFeature point inside holes st = JS.Normal st' →
  ∃ dropped,
    st'.2 = st.2 ++ replicate dropped NoFittingShellForHole ∧
    length st'.1 = length st.1 ∧
    (∀ i s, st.1 !! i = Some s →
       ∃ added, st'.1 !! i = Some (s ++ added) ∧
         Forall (fun ring => ∃ hole, hole ∈ holes ∧ head hole = Some ring)
           added) ∧
    (sum_list (length <$> st'.1) + dropped
     = sum_list (length <$> st.1) + length holes)%nat.
Proof.
  revert st. induction holes as [|hole holes IH]; intros st; simpl.
  - intros [= <-]. exists 0%nat. simpl. rewrite app_nil_r.
    repeat split; try lia.
    intros i s Hi. exists []. rewrite app_nil_r. split; [exact Hi|constructor].
  - destruct (nestHole PointFeature point inside st hole) as [st1| |] eqn:Hh;
      simpl; try discriminate.
    intros Hnest. apply IH in Hnest as (dropped & Hlog & Hlen & Hkeep & Hsum).
    apply nestHole_accounts in Hh
      as (ring & Hring & Hlen1 & Hkeep1 & Hcase).
    assert (∀ i s, st.1 !! i = Some s →
              ∃ added, st'.1 !! i = Some (s ++ added) ∧
                Forall (fun ring => ∃ h, h ∈ hole :: holes ∧
                                         head h = Some ring) added) as Hkeep'.
    { intros i s Hi. destruct (Hkeep1 i s Hi) as [Hi1|Hi1];
        destruct (Hkeep i _ Hi1) as (added & Hi' & Hadded).
      - exists added. split; [exact Hi'|].
        eapply Forall_impl; [exact Hadded|].
        intros r (h & Hh' & Hr). exists h. split; [right; exact Hh'|exact Hr].
      - exists (ring :: added). rewrite <- app_assoc in Hi'.
        split; [exact Hi'|]. constructor.
        + exists hole. split; [left|exact Hring].
        + eapply Forall_impl; [exact Hadded|].
          intros r (h & Hh' & Hr). exists h.
          split; [right; exact Hh'|exact Hr]. }
    destruct Hcase as [[Hl Hs]|[Hl Hs]].
    + exists dropped. rewrite Hlog, Hl, Hlen, Hlen1.
      repeat split; try exact Hkeep'. lia.
    + exists (S dropped). rewrite Hlog, Hl, Hlen, Hlen1, <- app_assoc.
      rewrite Hs in Hsum.
      repeat split; try exact Hkeep'. lia.
Qed.

(** X4. The Nester loses nothing silently: when it is done, the shells are
    as many as before and in the same order, each with the rings it had
    followed by first rings of holes, the console has one more "no fitting
    shell" line for each hole that was dropped and nothing else, and the
    rings now in the shells together with the dropped holes are as many as
    the rings of the shells and the holes were before. *)
Theorem nest_keeps_account (shells : list Polygon) (console : list event)
    (holes nested : list Polygon) (logged : list event) :
  nest PointFeature point inside holes (shells, console)
  = JS.Normal (nested, logged) →
  ∃ dropped,
    logged = console ++ replicate dropped NoFittingShellForHole ∧
    length nested = length shells ∧
    (∀ i shell, shells !! i = Some shell →
       ∃ added, nested !! i = Some (shell ++ added) ∧
         Forall (fun ring => ∃ hole, hole ∈ holes ∧ head hole = Some ring)
           added) ∧
    (sum_list (length <$> nested) + dropped
     = sum_list (length <$> shells) + length holes)%nat.
Proof. intros Hnest. apply nest_accounts in Hnest. exact Hnest. Qed.

End Accounts.

Lemma nest_keeps_account_witness :
  nest Coordinate Examples.asPoint Examples.never
    [[Examples.band5_hole]] ([[Examples.band5_shell]], [])
  = JS.Normal ([[Examples.band5_shell]], [NoFittingShellForHole]) ∧
  ∃ dropped,
    [NoFittingShellForHole] = [] ++ replicate dropped NoFittingShellForHole ∧
    (sum_list (length <$> [[Examples.band5_shell]]) + dropped
     = sum_list (length <$> [[Examples.band5_shell]])
       + length [[Examples.band5_hole]])%nat.
Proof.
  assert (nest Coordinate Examples.asPoint Examples.never
            [[Examples.band5_hole]] ([[Examples.band5_shell]], [])
          = JS.Normal ([[Examples.band5_shell]], [NoFittingShellForHole]))
    as Hnest by reflexivity.
  split; [exact Hnest|].
  destruct (nest_keeps_account _ _ _ _ _ _ _ _ Hnest)
    as (dropped & Hlog & _ & _ & Hsum).
  exists dropped. split; [exact Hlog|exact Hsum].
Defined.

(** ** What a call logs and where its vertices lie *)

Lemma Forall_closing {A : Type} (P : A → Prop) (l : list A) (a : A) :
  Forall P (l ++ [a]) → Forall P ((l ++ [a]) ++ [hd a (l ++ [a])]).
Proof.
  intros Hl. apply Forall_app. split; [exact Hl|].
  apply Forall_singleton. destruct l as [|b l]; simpl in *.
  - apply Forall_cons in Hl as [Ha _]. exact Ha.
  - apply Forall_cons in Hl as [Hb _]. exact Hb.
Qed.

Section Output.

Variable cutoff : float.
Variable height : Z.
Variable maxCoordinates : Z.
Variable project : Coordinate → Coordinate.
Variable interpolation : bool.
Variable surface : Surface.
Variable width : Z.
Variable PointFeature : Type.
Variable point : Coordinate → PointFeature.
Variable inside : PointFeature → Polygon → bool.

Local Abbreviation call :=
  (jsolines cutoff height maxCoordinates project interpolation surface width
     PointFeature point inside).
Local Abbreviation shift :=
  (shiftCoordinates cutoff height interpolation surface width).

(** The scan logs none of the defensive diagnostics. *)
Lemma scan_log contour t t' :
  classified surface width height cutoff contour →
  Forall (fun e => ¬ defensive e) (log t) →
  scan cutoff height maxCoordinates project interpolation surface width
    contour t = JS.Normal t' →
  Forall (fun e => ¬ defensive e) (log t').
Proof.
  intros Hcontour.
  apply (scan_invariant cutoff height maxCoordinates project interpolation
           surface width
           (fun t => Forall (fun e => ¬ defensive e) (log t))
           (fun _ t => Forall (fun e => ¬ defensive e) (log t)));
    [exact Hcontour|auto|].
  intros origx origy c s Hin Hent Hlog.
  pose proof (ringBody_onGrid cutoff height maxCoordinates project
                interpolation surface width contour origx origy c s
                Hcontour Hin Hent) as Hstep.
  assert (∀ sx sy nx ny shifted coord,
            shift sx sy nx ny = (shifted, coord) →
            Forall (fun e => ¬ defensive e) shifted) as Hshifted.
  { intros sx sy nx ny shifted coord Hshift.
    pose proof (shiftCoordinates_log cutoff height interpolation surface
                  width sx sy nx ny) as Hl.
    rewrite Hshift in Hl. exact Hl. }
  destruct (ringBody _ _ _ _ _ _ _ _ _ _ _ _) as [c' s'|[] s'|e];
    try contradiction; try exact I.
  - destruct Hstep as (_ & _ & _ & shifted & coord & Hshift & _ & -> & _).
    apply Forall_app. split; [exact Hlog|]. eapply Hshifted, Hshift.
  - destruct Hstep as (_ & _ & ->).
    apply Forall_app. split; [exact Hlog|]. repeat constructor; auto.
  - destruct Hstep as (_ & _ & shifted & Hs & ->).
    repeat (apply Forall_app; split); try assumption.
    repeat constructor; auto.
  - destruct Hstep as (_ & _ & shifted & coord & Hshift & _ & _ & ->).
    apply Forall_app. split; [exact Hlog|]. eapply Hshifted, Hshift.
  - destruct Hstep as (_ & _ & shifted & coord & Hshift & _ & _ & ->).
    apply Forall_app. split; [exact Hlog|]. eapply Hshifted, Hshift.
Qed.

(** The scan collects rings of coordinates of moves between neighbouring
    cells of the grid. *)
Lemma scan_coordinates (P : Coordinate → Prop) contour t t' :
  classified surface width height cutoff contour →
  (∀ sx sy nx ny shifted m,
     inGrid width height sx sy → inGrid width height nx ny →
     Z.abs (nx - sx) + Z.abs (ny - sy) = 1 →
     shift sx sy nx ny = (shifted, Some m) → P (project m)) →
  Forall (Forall (Forall P)) (shells t) ∧
  Forall (Forall (Forall P)) (holes t) →
  scan cutoff height maxCoordinates project interpolation surface width
    contour t = JS.Normal t' →
  Forall (Forall (Forall P)) (shells t') ∧
  Forall (Forall (Forall P)) (holes t').
Proof.
  intros Hcontour Hmove.
  apply (scan_invariant cutoff height maxCoordinates project interpolation
           surface width
           (fun t => Forall (Forall (Forall P)) (shells t) ∧
                     Forall (Forall (Forall P)) (holes t))
           (fun c t => (Forall (Forall (Forall P)) (shells t) ∧
                        Forall (Forall (Forall P)) (holes t)) ∧
                       Forall P (coords c)));
    [exact Hcontour|intros; split; [assumption|constructor]|].
  intros origx origy c s Hin Hent [[Hs Hh] Hc].
  pose proof (ringBody_onGrid cutoff height maxCoordinates project
                interpolation surface width contour origx origy c s
                Hcontour Hin Hent) as Hstep.
  destruct (ringBody _ _ _ _ _ _ _ _ _ _ _ _) as [c' s'|[] s'|e];
    try contradiction; try exact I.
  - destruct Hstep
      as (Hin' & _ & Hadj & shifted & coord & Hshift & -> & _ & -> & ->).
    split; [split; assumption|].
    apply Forall_app. split; [exact Hc|]. apply Forall_singleton.
    exact (Hmove _ _ _ _ _ _ Hin Hin' Hadj Hshift).
  - destruct Hstep as (-> & -> & _). split; assumption.
  - destruct Hstep as (-> & -> & _). split; assumption.
  - destruct Hstep
      as (Hin' & Hadj & shifted & coord & Hshift & -> & -> & _).
    split; [|exact Hh]. apply Forall_app. split; [exact Hs|].
    apply Forall_singleton, Forall_singleton, Forall_closing.
    apply Forall_app. split; [exact Hc|]. apply Forall_singleton.
    exact (Hmove _ _ _ _ _ _ Hin Hin' Hadj Hshift).
  - destruct Hstep
      as (Hin' & Hadj & shifted & coord & Hshift & -> & -> & _).
    split; [exact Hs|]. apply Forall_app. split; [exact Hh|].
    apply Forall_singleton, Forall_singleton, Forall_closing.
    apply Forall_app. split; [exact Hc|]. apply Forall_singleton.
    exact (Hmove _ _ _ _ _ _ Hin Hin' Hadj Hshift).
Qed.

(** What a call that returns has done: the scan of the case grid, then the
    Nester on what the scan has collected. *)
Lemma jsolines_Normal polygons logged :
  call = JS.Normal (polygons, logged) →
  ∃ contour marks t,
    classified surface width height cutoff contour ∧
    scan cutoff height maxCoordinates project interpolation surface width
      contour (Tracer marks [] [] [] []) = JS.Normal t ∧
    nest PointFeature point inside (holes t) (shells t, log t)
    = JS.Normal (polygons, logged).
Proof.
  unfold jsolines.
  destruct (getContour surface width height cutoff) as [contour| |] eqn:Hc;
    simpl; [|discriminate|discriminate].
  destruct (JS.new_Uint8Array _) as [marks| |]; simpl;
    [|discriminate|discriminate].
  destruct (scan _ _ _ _ _ _ _ _ _) as [t| |] eqn:Hscan; simpl;
    [|discriminate|discriminate].
  intros Hnest. exists contour, marks, t.
  split; [exact (getContour_classified _ _ _ _ _ Hc)|]. auto.
Qed.

Lemma jsolines_coordinates (P : Coordinate → Prop) polygons logged :
  (∀ sx sy nx ny shifted m,
     inGrid width height sx sy → inGrid width height nx ny →
     Z.abs (nx - sx) + Z.abs (ny - sy) = 1 →
     shift sx sy nx ny = (shifted, Some m) → P (project m)) →
  call = JS.Normal (polygons, logged) →
  Forall (Forall (Forall P)) polygons.
Proof.
  intros Hmove (contour & marks & t & Hcontour & Hscan & Hnest)%jsolines_Normal.
  apply (scan_coordinates P contour _ _ Hcontour Hmove) in Hscan
    as [Hs Hh]; [|split; constructor].
  apply nest_accounts in Hnest as (dropped & _ & Hlen & Hkeep & _).
  simpl in *. apply Forall_lookup. intros i polygon Hi.
  destruct (lookup_lt_is_Some_2 (shells t) i) as [shell Hshell].
  { rewrite <- Hlen. eapply lookup_lt_Some, Hi. }
  destruct (Hkeep i shell Hshell) as (added & Hi' & Hadded).
  assert (Some polygon = Some (shell ++ added)) as [= ->]
    by (rewrite <- Hi; exact Hi').
  apply Forall_app. split.
  - exact (proj1 (Forall_lookup _ _) Hs i shell Hshell).
  - apply Forall_forall. intros ring Hring.
    destruct (proj1 (Forall_forall _ _) Hadded ring Hring)
      as (hole & Hhole & Hhead).
    pose proof (proj1 (Forall_forall _ _) Hh hole Hhole) as Hrings.
    destruct hole as [|r rs]; [discriminate|].
    injection Hhead as ->. apply Forall_cons in Hrings as [Hr _]. exact Hr.
Qed.

End Output.

Lemma forEach_skip {A : Type} (body : A → tracer → JS.completion tracer)
    (l : list A) (t : tracer) :
  (∀ a, a ∈ l → body a t = JS.Normal t) → forEach body l t = JS.Normal t.
Proof.
  induction l as [|a l IH]; intros Hbody; simpl; [reflexivity|].
  rewrite (Hbody a) by left. simpl. apply IH.
  intros a' Ha'. apply Hbody. right. exact Ha'.
Qed.

Section Vertices.

Variable cutoff : float.
Variable height : Z.
Variable interpolation : bool.
Variable surface : Surface.
Variable width : Z.

(** The coordinate of a move between two neighbouring cells of the grid lies
    on the grid line between them. *)
Lemma shiftCoordinates_onGridLine sx sy nx ny shifted m :
  inGrid width height sx sy → inGrid width height nx ny →
  Z.abs (nx - sx) + Z.abs (ny - sy) = 1 →
  shiftCoordinates cutoff height interpolation surface width sx sy nx ny
  = (shifted, Some m) →
  onGridLine width height m.
Proof.
  intros [Hsx Hsy] [Hnx Hny] Hadj.
  unfold shiftCoordinates, interpolate, crossing, noInterpolate, onGridLine.
  destruct (cornerSamples _ _ _ _ _ _)
    as [[[topLeft topRight] botLeft] botRight].
  rewrite !Z.gtb_ltb.
  destruct interpolation;
    destruct (Z.ltb_spec sx nx);
    [|destruct (Z.ltb_spec nx sx);
      [|destruct (Z.ltb_spec ny sy); [|destruct (Z.ltb_spec sy ny)]]
     | |destruct (Z.ltb_spec nx sx);
      [|destruct (Z.ltb_spec ny sy); [|destruct (Z.ltb_spec sy ny)]]];
    try destruct (ensureFractionIsNumber _ _);
    intros [= <- <-]; simpl;
    first [left; eexists; split; [|reflexivity]; lia
          |right; eexists; split; [|reflexivity]; lia].
Qed.

(** Without interpolation it is the midpoint of the side between them. *)
Lemma noInterpolate_edgeMidpoint sx sy nx ny m :
  inGrid width height sx sy → inGrid width height nx ny →
  Z.abs (nx - sx) + Z.abs (ny - sy) = 1 →
  noInterpolate sx sy nx ny = Some m →
  edgeMidpoint width height m.
Proof.
  intros [Hsx Hsy] [Hnx Hny] Hadj. unfold noInterpolate, edgeMidpoint.
  rewrite !Z.gtb_ltb.
  destruct (Z.ltb_spec sx nx);
    [|destruct (Z.ltb_spec nx sx);
      [|destruct (Z.ltb_spec ny sy); [|destruct (Z.ltb_spec sy ny)]]];
    intros [= <-];
    first [left; do 2 eexists; split; [|split; [|reflexivity]]; lia
          |right; do 2 eexists; split; [|split; [|reflexivity]]; lia].
Qed.

End Vertices.

Section CallProperties.

Variable cutoff : float.
Variable height : Z.
Variable maxCoordinates : Z.
Variable project : Coordinate → Coordinate.
Variable interpolation : bool.
Variable surface : Surface.
Variable width : Z.
Variable PointFeature : Type.
Variable point : Coordinate → PointFeature.
Variable inside : PointFeature → Polygon → bool.

(** X3. The defensive branches of the tracer are never taken in a call: on
    the case grid [getContour] makes, a trace never runs into a cell without
    a line, never enters a saddle from a side it has no passage for and
    never stays in its cell, so a call that returns has logged none of "Ran
    off outside of ring", the two "saddle point from wrong direction" lines
    and "Unexpected coordinate shift". *)
Theorem jsolines_never_logs_defensive polygons logged :
  jsolines cutoff height maxCoordinates project interpolation surface width
    PointFeature point inside = JS.Normal (polygons, logged) →
  ∀ e, e ∈ logged →
    e ≠ RanOffOutsideOfRing ∧ e ≠ Case5WrongDirection ∧
    e ≠ Case10WrongDirection ∧
    ∀ startx starty x y, e ≠ UnexpectedCoordinateShift startx starty x y.
Proof.
  intros (contour & marks & t & Hcontour & Hscan & Hnest)%jsolines_Normal.
  apply scan_log in Hscan; [|exact Hcontour|constructor].
  apply nest_accounts in Hnest as (dropped & Hlog & _). simpl in Hlog.
  assert (Forall (fun e => ¬ defensive e) logged) as Hall.
  { rewrite Hlog. apply Forall_app. split; [exact Hscan|].
    apply Forall_replicate. simpl. auto. }
  intros e He. pose proof (proj1 (Forall_forall _ _) Hall e He) as Hnot.
  repeat split; try intros ? ? ? ?; intros ->; apply Hnot; exact I.
Qed.

(** X5. Every vertex of every ring a call returns is the projection of a
    point on a grid line strictly inside the grid: its x is a column
    0 < a < width−1 or its y is a row 0 < b < height−1, with or without
    interpolation. (Its other coordinate may well lie on the edge of the
    grid, as those of the ring of [low4] do.) *)
Theorem jsolines_vertices_on_grid_lines polygons logged :
  jsolines cutoff height maxCoordinates project interpolation surface width
    PointFeature point inside = JS.Normal (polygons, logged) →
  ∀ polygon ring vertex,
    polygon ∈ polygons → ring ∈ polygon → vertex ∈ ring →
    ∃ m, vertex = project m ∧ onGridLine width height m.
Proof.
  intros Hcall polygon ring vertex Hpolygon Hring Hvertex.
  pose proof (jsolines_coordinates cutoff height maxCoordinates project
                interpolation surface width PointFeature point inside
                (fun p => ∃ m, p = project m ∧ onGridLine width height m)
                polygons logged) as Hall.
  assert (∀ sx sy nx ny shifted m,
            inGrid width height sx sy → inGrid width height nx ny →
            Z.abs (nx - sx) + Z.abs (ny - sy) = 1 →
            shiftCoordinates cutoff height interpolation surface width
              sx sy nx ny = (shifted, Some m) →
            ∃ m0, project m = project m0 ∧ onGridLine width height m0)
    as Hmove.
  { intros sx sy nx ny shifted m Hs Hn Hadj Hshift. exists m.
    split; [reflexivity|].
    exact (shiftCoordinates_onGridLine cutoff height interpolation surface
             width sx sy nx ny shifted m Hs Hn Hadj Hshift). }
  pose proof (Hall Hmove Hcall) as Hpolygons.
  pose proof (proj1 (Forall_forall _ _) Hpolygons polygon Hpolygon) as Hrings.
  pose proof (proj1 (Forall_forall _ _) Hrings ring Hring) as Hvertices.
  exact (proj1 (Forall_forall _ _) Hvertices vertex Hvertex).
Qed.

(** No line, no output: when the case of every cell of the grid is 0 and
    the typed arrays can be made, a call returns no polygon and logs
    nothing. *)
Lemma jsolines_no_lines :
  0 ≤ (width - 1) * (height - 1) →
  (∀ x y, inGrid width height x y →
          contourCase surface width height cutoff x y = 0) →
  jsolines cutoff height maxCoordinates project interpolation surface width
    PointFeature point inside = JS.Normal ([], []).
Proof.
  intros Hsize Hzero. unfold jsolines.
  destruct (getContour surface width height cutoff) as [contour| |] eqn:Hc.
  - pose proof (getContour_classified _ _ _ _ _ Hc) as Hcontour. simpl.
    unfold JS.new_Uint8Array. rewrite decide_False by lia. simpl.
    assert (∀ t, scan cutoff height maxCoordinates project interpolation
                   surface width contour t = JS.Normal t) as ->.
    { intros t. unfold scan. apply forEach_skip.
      intros origy Hy%elem_of_seqZ. unfold scanRow. apply forEach_skip.
      intros origx Hx%elem_of_seqZ. unfold scanCell.
      destruct (strictEqZ (JS.get (found t) _) 1); [reflexivity|].
      rewrite (Hcontour origx origy) by (split; lia).
      rewrite Hzero by (split; lia). reflexivity. }
    reflexivity.
  - unfold getContour, JS.new_Uint8Array in Hc.
    rewrite decide_False in Hc by lia. discriminate.
  - unfold getContour, JS.new_Uint8Array in Hc.
    rewrite decide_False in Hc by lia. discriminate.
Qed.

(** X6. When no sample of the surface is below the cutoff (also when the
    cutoff is NaN, or the surface is shorter than the grid), a call whose
    typed arrays can be made returns no polygon and logs nothing. *)
Theorem jsolines_nothing_below_cutoff :
  0 ≤ (width - 1) * (height - 1) →
  (∀ i, JS.lt (JS.toNumber (JS.get surface i)) cutoff = false) →
  jsolines cutoff height maxCoordinates project interpolation surface width
    PointFeature point inside = JS.Normal ([], []).
Proof.
  intros Hsize Habove. apply jsolines_no_lines; [exact Hsize|].
  intros col row _. unfold contourCase. rewrite !Habove.
  destruct (col =? 0), (col =? width - 2), (row =? 0), (row =? height - 2);
    reflexivity.
Qed.

(** X7. A grid of fewer than three columns or fewer than three rows of
    samples has no isoline, whatever the samples are: every corner of every
    cell is then on the boundary and forced off, and a call whose typed
    arrays can be made returns no polygon and logs nothing. *)
Theorem jsolines_needs_three_by_three :
  0 ≤ (width - 1) * (height - 1) →
  width ≤ 2 ∨ height ≤ 2 →
  jsolines cutoff height maxCoordinates project interpolation surface width
    PointFeature point inside = JS.Normal ([], []).
Proof.
  intros Hsize Hsmall. apply jsolines_no_lines; [exact Hsize|].
  intros col row [Hcol Hrow].
  destruct (contourCase_bits surface width height cutoff col row)
    as (H3 & H2 & H1 & H0).
  pose proof (contourCase_range surface width height cutoff col row) as Hk.
  rewrite (case_of_bits _ _ _ _ _ Hk H3 H2 H1 H0).
  destruct Hsmall as [Hw|Hh].
  - assert (col = 0) as -> by lia.
    assert ((0 =? width - 2) = true) as -> by (apply Z.eqb_eq; lia).
    simpl. rewrite !andb_false_r. reflexivity.
  - assert (row = 0) as -> by lia.
    assert ((0 =? height - 2) = true) as -> by (apply Z.eqb_eq; lia).
    simpl. rewrite !andb_false_r. reflexivity.
Qed.


End CallProperties.

Section Midpoints.

Variable cutoff : float.
Variable height : Z.
Variable maxCoordinates : Z.
Variable project : Coordinate → Coordinate.
Variable surface : Surface.
Variable width : Z.
Variable PointFeature : Type.
Variable point : Coordinate → PointFeature.
Variable inside : PointFeature → Polygon → bool.

(** X9. Without interpolation every vertex of every ring a call returns is
    the projection of the midpoint of a side shared by two cells of the
    grid: (a, b + 0.5) on a column 0 < a < width−1, or (a + 0.5, b) on a row
    0 < b < height−1, whatever the samples are. *)
Theorem jsolines_midpoints_without_interpolation polygons logged :
  jsolines cutoff height maxCoordinates project false surface width
    PointFeature point inside = JS.Normal (polygons, logged) →
  ∀ polygon ring vertex,
    polygon ∈ polygons → ring ∈ polygon → vertex ∈ ring →
    ∃ m, vertex = project m ∧ edgeMidpoint width height m.
Proof.
  intros Hcall polygon ring vertex Hpolygon Hring Hvertex.
  pose proof (jsolines_coordinates cutoff height maxCoordinates project
                false surface width PointFeature point inside
                (fun p => ∃ m, p = project m ∧ edgeMidpoint width height m)
                polygons logged) as Hall.
  assert (∀ sx sy nx ny shifted m,
            inGrid width height sx sy → inGrid width height nx ny →
            Z.abs (nx - sx) + Z.abs (ny - sy) = 1 →
            shiftCoordinates cutoff height false surface width
              sx sy nx ny = (shifted, Some m) →
            ∃ m0, project m = project m0 ∧ edgeMidpoint width height m0)
    as Hmove.
  { intros sx sy nx ny shifted m Hs Hn Hadj [= _ Hshift]. exists m.
    split; [reflexivity|].
    exact (noInterpolate_edgeMidpoint height width sx sy nx ny m Hs Hn Hadj
             Hshift). }
  pose proof (Hall Hmove Hcall) as Hpolygons.
  pose proof (proj1 (Forall_forall _ _) Hpolygons polygon Hpolygon) as Hrings.
  pose proof (proj1 (Forall_forall _ _) Hrings ring Hring) as Hvertices.
  exact (proj1 (Forall_forall _ _) Hvertices vertex Hvertex).
Qed.

End Midpoints.

(** [band5] with an [inside] that refuses: the only line logged is the
    Nester's. *)
Lemma jsolines_never_logs_defensive_witness :
  jsolines 60 5 MAX_COORDS Examples.keep true Examples.band5 5
    Coordinate Examples.asPoint Examples.never
  = JS.Normal ([[Examples.band5_shell]], [NoFittingShellForHole]) ∧
  NoFittingShellForHole ≠ RanOffOutsideOfRing ∧
  NoFittingShellForHole ≠ Case5WrongDirection.
Proof.
  assert (jsolines 60 5 MAX_COORDS Examples.keep true Examples.band5 5
            Coordinate Examples.asPoint Examples.never
          = JS.Normal ([[Examples.band5_shell]], [NoFittingShellForHole]))
    as Hcall by (vm_compute; reflexivity).
  split; [exact Hcall|].
  destruct (jsolines_never_logs_defensive _ _ _ _ _ _ _ _ _ _ _ _ Hcall
              NoFittingShellForHole) as (Hoff & Hfive & _).
  { apply list_elem_of_singleton. reflexivity. }
  split; [exact Hoff|exact Hfive].
Defined.

(** The first vertex of the ring of [low4] lies on the row b = 1. *)
Lemma jsolines_vertices_on_grid_lines_witness :
  jsolines 60 4 MAX_COORDS Examples.keep true Examples.low4 4
    Coordinate Examples.asPoint Examples.always
  = JS.Normal ([[Examples.low4_ring]], []) ∧
  ∃ m, (0, 1)%float = Examples.keep m ∧ onGridLine 4 4 m.
Proof.
  assert (jsolines 60 4 MAX_COORDS Examples.keep true Examples.low4 4
            Coordinate Examples.asPoint Examples.always
          = JS.Normal ([[Examples.low4_ring]], [])) as Hcall
    by (vm_compute; reflexivity).
  split; [exact Hcall|].
  apply (jsolines_vertices_on_grid_lines _ _ _ _ _ _ _ _ _ _ _ _ Hcall
           [Examples.low4_ring] Examples.low4_ring).
  - apply list_elem_of_singleton. reflexivity.
  - apply list_elem_of_singleton. reflexivity.
  - left.
Defined.

(** [flat4]: every sample is 100, the cutoff is 60. *)
Lemma jsolines_nothing_below_cutoff_witness :
  0 ≤ (4 - 1) * (4 - 1) ∧
  jsolines 60 4 MAX_COORDS Examples.keep true Examples.flat4 4
    Coordinate Examples.asPoint Examples.always
  = JS.Normal ([], []).
Proof.
  split; [lia|].
  apply jsolines_nothing_below_cutoff; [lia|].
  intros i. unfold JS.get. destruct (decide (0 ≤ i)); [|reflexivity].
  generalize (Z.to_nat i). intros n.
  do 16 (destruct n as [|n]; [reflexivity|]). reflexivity.
Defined.

(** Two columns of four samples, all below the cutoff. *)
Lemma jsolines_needs_three_by_three_witness :
  0 ≤ (2 - 1) * (4 - 1) ∧ (2 ≤ 2 ∨ 4 ≤ 2) ∧
  jsolines 60 4 MAX_COORDS Examples.keep true (JS.ofZ <$> replicate 8 10) 2
    Coordinate Examples.asPoint Examples.always
  = JS.Normal ([], []).
Proof.
  split; [lia|]. split; [left; lia|].
  apply jsolines_needs_three_by_three; [lia|left; lia].
Defined.

(** The first vertex of the ring of [block4] is the midpoint (0.5, 1). *)
Lemma jsolines_midpoints_without_interpolation_witness :
  jsolines 60 4 MAX_COORDS Examples.keep false Examples.block4 4
    Coordinate Examples.asPoint Examples.always
  = JS.Normal ([[Examples.block4_midpoints]], []) ∧
  ∃ m, (0.5, 1)%float = Examples.keep m ∧ edgeMidpoint 4 4 m.
Proof.
  assert (jsolines 60 4 MAX_COORDS Examples.keep false Examples.block4 4
            Coordinate Examples.asPoint Examples.always
          = JS.Normal ([[Examples.block4_midpoints]], [])) as Hcall
    by (vm_compute; reflexivity).
  split; [exact Hcall|].
  apply (jsolines_midpoints_without_interpolation _ _ _ _ _ _ _ _ _ _ _
           Hcall [Examples.block4_midpoints] Examples.block4_midpoints).
  - apply list_elem_of_singleton. reflexivity.
  - apply list_elem_of_singleton. reflexivity.
  - left.
Defined.

(** ** The array of cases *)

Lemma writes_Forall (K : Type) (ix val : K → Z) (P : Z → Prop)
    (a : list Z) (ks : list K) :
  Forall P a → (∀ k, P (val k mod 256)) →
  Forall P (foldl (fun a k => JS.uint8_set a (ix k) (val k)) a ks).
Proof.
  intros Ha Hval. revert a Ha.
  induction ks as [|k ks IH]; intros a Ha; simpl; [exact Ha|].
  apply IH. unfold JS.uint8_set. case_decide; [|exact Ha].
  apply Forall_insert; [exact Ha|apply Hval].
Qed.

(** X10. Where (width−1)·(height−1) is negative [getContour] throws the
    RangeError of [new Uint8Array]; whenever it returns, what it returns is
    an array of (width−1)·(height−1) entries, every one of them a case code
    from 0 to 15. *)
Theorem getContour_array (surface : Surface) (width height : Z)
    (cutoff : float) :
  ((width - 1) * (height - 1) < 0 →
   getContour surface width height cutoff = JS.Throws JS.RangeError) ∧
  (∀ contour,
     getContour surface width height cutoff = JS.Normal contour →
     Z.of_nat (length contour) = (width - 1) * (height - 1) ∧
     Forall (fun k => 0 ≤ k < 16) contour).
Proof.
  unfold getContour, JS.new_Uint8Array.
  destruct (decide ((width - 1) * (height - 1) < 0)) as [Hneg|Hpos]; simpl.
  - split; [reflexivity|discriminate].
  - split; [lia|]. intros contour [= <-]. unfold contourColumn.
    rewrite (nested_loops
               (fun a x y => JS.uint8_set a (y * (width - 1) + x)
                               (contourCase surface width height cutoff x y))).
    split.
    + rewrite (writes_length _ (fun p => p.2 * (width - 1) + p.1)
                 (fun p => contourCase surface width height cutoff p.1 p.2)).
      rewrite length_replicate. lia.
    + apply (writes_Forall _ (fun p => p.2 * (width - 1) + p.1)
               (fun p => contourCase surface width height cutoff p.1 p.2)).
      * apply Forall_replicate. lia.
      * intros [col row]. simpl.
        pose proof (contourCase_range surface width height cutoff col row).
        rewrite Z.mod_small by lia. lia.
Qed.

(** ** The Interpolator *)

(** X11. [ensureFractionIsNumber] settles in one step: what it returns goes
    through it again unchanged and without a diagnostic. *)
Theorem ensureFractionIsNumber_idempotent (frac : float)
    (direction again : side) :
  ensureFractionIsNumber (ensureFractionIsNumber frac direction).2 again
  = ([], (ensureFractionIsNumber frac direction).2).
Proof.
  unfold ensureFractionIsNumber at 2 3.
  destruct (JS.isNaN frac || JS.strictEq frac JS.Infinity) eqn:Hbad; simpl.
  - reflexivity.
  - unfold ensureFractionIsNumber. rewrite Hbad. reflexivity.
Qed.

(** X12. Interpolation moves a vertex along the side the line crosses and
    nowhere else: [interpolate] returns a coordinate exactly when
    [noInterpolate] does, and then the two agree on the coordinate that
    names the grid line, x after a move along x and y after a move along
    y. *)
Theorem interpolate_along_the_side (cutoff : float) (height : Z)
    (surface : Surface) (width startx starty x y : Z) :
  match (interpolate cutoff height startx starty surface width x y).2,
        noInterpolate startx starty x y with
  | Some exact, Some midpoint =>
      (startx ≠ x → exact.1 = midpoint.1) ∧
      (startx = x → exact.2 = midpoint.2)
  | None, None => True
  | _, _ => False
  end.
Proof.
  unfold interpolate, crossing, noInterpolate.
  destruct (cornerSamples _ _ _ _ _ _)
    as [[[topLeft topRight] botLeft] botRight].
  rewrite !Z.gtb_ltb.
  destruct (Z.ltb_spec startx x);
    [|destruct (Z.ltb_spec x startx);
      [|destruct (Z.ltb_spec y starty); [|destruct (Z.ltb_spec starty y)]]];
    try destruct (ensureFractionIsNumber _ _); simpl;
    try (split; intros; try reflexivity; lia); exact I.
Qed.

(** ** The marks of visited cells *)

Section Marks.

Variable cutoff : float.
Variable height : Z.
Variable maxCoordinates : Z.
Variable project : Coordinate → Coordinate.
Variable interpolation : bool.
Variable surface : Surface.
Variable width : Z.

Local Abbreviation body :=
  (ringBody cutoff height maxCoordinates project interpolation surface width).
Local Abbreviation loop :=
  (ringLoop cutoff height maxCoordinates project interpolation surface width).

(** The marks after a pass: untouched at a marked cell and at a saddle, the
    mark of the cell set otherwise. *)
Lemma ringBody_found contour origx origy c t :
  let cell := y c * (width - 1) + x c in
  let marks :=
    if strictEqZ (JS.get (found t) cell) 1 then found t
    else if negb (strictEqZ (JS.get contour cell) 5)
            && negb (strictEqZ (JS.get contour cell) 10)
         then JS.uint8_set (found t) cell 1
         else found t in
  match body contour origx origy c t with
  | Continue _ t' | Break _ t' => found t' = marks
  | Raise _ => True
  end.
Proof. ringBody_cases; simpl; rewrite ?Hmarked; reflexivity. Qed.

Lemma marks_kept (marks : list Z) (cell : Z) :
  length (JS.uint8_set marks cell 1) = length marks ∧
  (∀ i, JS.get marks i = Some 1 →
        JS.get (JS.uint8_set marks cell 1) i = Some 1) ∧
  (∀ i, i ≠ cell → JS.get (JS.uint8_set marks cell 1) i = JS.get marks i).
Proof.
  split; [apply uint8_set_length|]. split.
  - intros i Hi. destruct (decide (cell = i)) as [->|Hne].
    + rewrite get_uint8_set_eq; [reflexivity|].
      unfold JS.get in Hi. case_decide; [|discriminate].
      apply lookup_lt_Some in Hi. lia.
    + rewrite get_uint8_set_ne by exact Hne. exact Hi.
  - intros i Hne. apply get_uint8_set_ne. congruence.
Qed.

Lemma ringLoop_found fuel contour origx origy c t why t' :
  loop fuel contour origx origy c t = JS.Normal (why, t') →
  length (found t') = length (found t) ∧
  ∀ i, JS.get (found t) i = Some 1 → JS.get (found t') i = Some 1.
Proof.
  revert c t. induction fuel as [|fuel IH]; intros c t; simpl; [discriminate|].
  pose proof (ringBody_found contour origx origy c t) as Hmarks.
  cbv zeta in Hmarks.
  destruct (marks_kept (found t) (y c * (width - 1) + x c))
    as (Hlen & Hkeep & _).
  assert (∀ s, found s
               = (if strictEqZ (JS.get (found t) (y c * (width - 1) + x c)) 1
                  then found t
                  else if negb (strictEqZ
                                  (JS.get contour (y c * (width - 1) + x c)) 5)
                          && negb (strictEqZ
                                     (JS.get contour
                                        (y c * (width - 1) + x c)) 10)
                       then JS.uint8_set (found t)
                              (y c * (width - 1) + x c) 1
                       else found t) →
               length (found s) = length (found t) ∧
               ∀ i, JS.get (found t) i = Some 1 → JS.get (found s) i = Some 1)
    as Hstep.
  { intros s ->. destruct (strictEqZ _ 1); [auto|].
    destruct (_ && _); auto. }
  destruct (body contour origx origy c t) as [c1 t1|why1 t1|e];
    [|intros [= <- <-]; exact (Hstep _ Hmarks)|discriminate].
  intros Hloop. apply IH in Hloop as [Hlen1 Hkeep1].
  destruct (Hstep _ Hmarks) as [Hlen0 Hkeep0].
  split; [congruence|auto].
Qed.

(** X13. The marks of visited cells are only ever set. A pass of the
    tracing loop at a marked cell ends the trace at once and changes neither
    the marks nor the rings collected; a pass at an unmarked cell marks that
    cell unless it is a saddle (case 5 or 10), which is never marked, and
    touches no other mark. Over a whole scan the array keeps its length and
    no mark is cleared. *)
Theorem marks_are_only_set contour origx origy c t :
  let cell := y c * (width - 1) + x c in
  (strictEqZ (JS.get (found t) cell) 1 = true →
   ∃ t', ringBody cutoff height maxCoordinates project interpolation
           surface width contour origx origy c t = Break Crossed t' ∧
         found t' = found t ∧ shells t' = shells t ∧ holes t' = holes t) ∧
  (∀ t',
     (ringBody cutoff height maxCoordinates project interpolation surface
        width contour origx origy c t = Break RanOff t' ∨
      ringBody cutoff height maxCoordinates project interpolation surface
        width contour origx origy c t = Break Shifted t' ∨
      ringBody cutoff height maxCoordinates project interpolation surface
        width contour origx origy c t = Break Oversized t' ∨
      ringBody cutoff height maxCoordinates project interpolation surface
        width contour origx origy c t = Break ClosedShell t' ∨
      ringBody cutoff height maxCoordinates project interpolation surface
        width contour origx origy c t = Break ClosedHole t' ∨
      ∃ c', ringBody cutoff height maxCoordinates project interpolation
              surface width contour origx origy c t = Continue c' t') →
     (∀ i, i ≠ cell → JS.get (found t') i = JS.get (found t) i) ∧
     (strictEqZ (JS.get contour cell) 5
      || strictEqZ (JS.get contour cell) 10 = true →
      found t' = found t) ∧
     (strictEqZ (JS.get contour cell) 5
      || strictEqZ (JS.get contour cell) 10 = false →
      0 ≤ cell < Z.of_nat (length (found t)) →
      JS.get (found t') cell = Some 1)) ∧
  (∀ t',
     scan cutoff height maxCoordinates project interpolation surface width
       contour t = JS.Normal t' →
     length (found t') = length (found t) ∧
     ∀ i, JS.get (found t) i = Some 1 → JS.get (found t') i = Some 1).
Proof.
  intros cell. split; [|split].
  - intros Hmarked. unfold ringBody. cbv zeta. fold cell. rewrite Hmarked.
    eexists. split; [reflexivity|]. simpl. auto.
  - intros t' Hstep.
    pose proof (ringBody_found contour origx origy c t) as Hmarks.
    cbv zeta in Hmarks. fold cell in Hmarks.
    assert (strictEqZ (JS.get (found t) cell) 1 = false ∧
            found t'
            = (if negb (strictEqZ (JS.get contour cell) 5)
                  && negb (strictEqZ (JS.get contour cell) 10)
               then JS.uint8_set (found t) cell 1
               else found t)) as [Hfree ->].
    { destruct (strictEqZ (JS.get (found t) cell) 1) eqn:Hmarked.
      - exfalso. revert Hstep. unfold ringBody. cbv zeta. fold cell.
        rewrite Hmarked.
        intros [H|[H|[H|[H|[H|[c' H]]]]]]; discriminate.
      - split; [reflexivity|].
        destruct Hstep as [H|[H|[H|[H|[H|[c' H]]]]]]; rewrite H in Hmarks;
          exact Hmarks. }
    destruct (marks_kept (found t) cell) as (_ & _ & Hother).
    rewrite <- negb_orb.
    destruct (strictEqZ (JS.get contour cell) 5
              || strictEqZ (JS.get contour cell) 10); simpl.
    + split; [reflexivity|]. split; [reflexivity|discriminate].
    + split; [exact Hother|]. split; [discriminate|].
      intros _ Hrange. apply get_uint8_set_eq. exact Hrange.
  - intros t'. unfold scan.
    set (I := fun s => length (found s) = length (found t) ∧
                       ∀ i, JS.get (found t) i = Some 1 →
                            JS.get (found s) i = Some 1).
    apply (forEach_preserves I); [|split; auto].
    intros origy' s s' _ Hs. unfold scanRow.
    apply (forEach_preserves I); [|exact Hs].
    intros origx' r r' _ [Hlen Hkeep]. unfold scanCell.
    destruct (strictEqZ (JS.get (found r) _) 1);
      [intros [= <-]; split; assumption|].
    destruct (_ || strictEqZ _ 15); [intros [= <-]; split; assumption|].
    destruct (ringLoop _ _ _ _ _ _ _ _ _ _ _ _ _) as [[why r1]| |] eqn:Hl;
      simpl; [|discriminate|discriminate].
    intros [= <-]. apply ringLoop_found in Hl as [Hlen1 Hkeep1].
    split; [congruence|auto].
Qed.

End Marks.

(** ** The earlier revision: the classifier *)

Lemma foldl_pointwise {A B : Type} (f g : A → B → A) (l : list B) (a : A) :
  (∀ a b, f a b = g a b) → foldl f a l = foldl g a l.
Proof.
  intros Hfg. revert a. induction l as [|b l IH]; intros a; simpl.
  - reflexivity.
  - rewrite Hfg. apply IH.
Qed.

Lemma contourCase_earlier surface width height cutoff x y :
  Earlier.contourCase surface width height cutoff x y
  = contourCase surface width height cutoff x y.
Proof.
  unfold Earlier.contourCase, contourCase. cbv zeta.
  replace ((y + 1) * width + x) with (y * width + x + width) by lia.
  reflexivity.
Qed.

Lemma getContour_earlier surface width height cutoff :
  Earlier.getContour surface width height cutoff
  = getContour surface width height cutoff.
Proof.
  unfold Earlier.getContour, getContour.
  destruct (JS.new_Uint8Array _) as [contour| |]; simpl; try reflexivity.
  f_equal. apply foldl_pointwise. intros a x. unfold contourColumn.
  apply foldl_pointwise. intros b y. rewrite contourCase_earlier.
  reflexivity.
Qed.

(** X14. The two revisions of [getContour] compute the same thing: the same
    exception or the same array of cases for every surface, width, height
    and cutoff, and cell by cell the same case code, although they write the
    indices of the four corner samples differently. *)
Theorem getContour_revisions_agree (surface : Surface) (width height : Z)
    (cutoff : float) :
  Earlier.getContour surface width height cutoff
  = getContour surface width height cutoff ∧
  ∀ x y,
    Earlier.contourCase surface width height cutoff x y
    = contourCase surface width height cutoff x y.
Proof.
  split; [|intros x y; apply contourCase_earlier].
  unfold Earlier.getContour, getContour.
  destruct (JS.new_Uint8Array _) as [contour| |]; simpl; try reflexivity.
  f_equal. apply foldl_pointwise. intros a x. unfold contourColumn.
  apply foldl_pointwise. intros b y. rewrite contourCase_earlier.
  reflexivity.
Qed.

(** ** The earlier revision without interpolation *)

(** Without interpolation the inline chain of [if]s is [noInterpolate]. *)
Lemma shiftCoordinates_earlier cutoff surface width startx starty x y :
  Earlier.shiftCoordinates false cutoff surface width startx starty x y
  = ([], noInterpolate startx starty x y).
Proof.
  unfold Earlier.shiftCoordinates, noInterpolate. cbv zeta.
  destruct (startx <? x); [reflexivity|].
  destruct (startx >? x); [reflexivity|].
  destruct (starty >? y); [reflexivity|].
  destruct (starty <? y); reflexivity.
Qed.

(** On the cases 1 to 14 the inline [switch] is [followLoop]. *)
Lemma switch_followLoop k prevx prevy x y :
  1 ≤ k ≤ 14 →
  ∃ followed next,
    followLoop (Some k) prevx prevy x y = (followed, Some next) ∧
    Earlier.switch (Some k) prevx prevy x y
    = inr (Earlier.lineOf <$> followed, next).
Proof.
  intros Hk.
  assert (k = 1 ∨ k = 2 ∨ k = 3 ∨ k = 4 ∨ k = 5 ∨ k = 6 ∨ k = 7 ∨ k = 8 ∨
          k = 9 ∨ k = 10 ∨ k = 11 ∨ k = 12 ∨ k = 13 ∨ k = 14) as Hcases
    by lia.
  repeat destruct Hcases as [->|Hcases]; try subst k; cbn [followLoop Earlier.switch];
    repeat match goal with
           | |- context [if ?b then _ else _] => destruct b
           end;
    eexists _, _; split; reflexivity.
Qed.

Section Revisions.
Variable cutoff : float.
Variable height : Z.
Variable project : Coordinate → Coordinate.
Variable surface : Surface.
Variable width : Z.

(** One pass of the loop, at a cell whose case is 0 to 14: the two
    revisions do the same to the same state. *)
Lemma ringBody_earlier contour origx origy c t k :
  JS.get contour (y c * (width - 1) + x c) = Some k → 0 ≤ k ≤ 14 →
  match ringBody cutoff height 10000 project false surface width
          contour origx origy c t with
  | Continue c' t' =>
      Earlier.ringBody surface width cutoff project false
        contour origx origy c (earlier t)
      = Earlier.Continue c' (earlier t')
  | Break why t' =>
      Earlier.ringBody surface width cutoff project false
        contour origx origy c (earlier t)
      = Earlier.Break why (earlier t')
  | Raise _ => False
  end.
Proof.
  intros Hk Hr. unfold ringBody, Earlier.ringBody. cbv zeta.
  destruct t as [marks cases outers inners console].
  cbn [earlier Earlier.found Earlier.indices Earlier.shells Earlier.holes
       Earlier.log found indices shells holes log].
  destruct (strictEqZ (JS.get marks _) 1).
  { unfold earlier. cbn [found indices shells holes log].
    rewrite fmap_app. reflexivity. }
  rewrite Hk.
  destruct (decide (k = 0)) as [->|Hk0].
  { cbn. unfold earlier. cbn. rewrite fmap_app. reflexivity. }
  replace (strictEqZ (Some k) 0 || strictEqZ (Some k) 15) with false.
  2:{ symmetry. apply orb_false_iff. unfold strictEqZ.
      split; apply Z.eqb_neq; lia. }
  destruct (switch_followLoop k (startx c) (starty c) (x c) (y c))
    as (followed & [nx ny] & -> & ->); [lia|].
  unfold shiftCoordinates. rewrite shiftCoordinates_earlier.
  destruct (noInterpolate _ _ _ _) as [coord|].
  - destruct (_ >? 10000).
    + unfold earlier. cbn [found indices shells holes log].
      rewrite !fmap_app. reflexivity.
    + destruct ((nx =? origx) && (ny =? origy)).
      * destruct (_ >? 0); unfold earlier; cbn [found indices shells holes log];
          rewrite !fmap_app; reflexivity.
      * unfold earlier; cbn [found indices shells holes log];
          rewrite !fmap_app; reflexivity.
  - unfold earlier. cbn [found indices shells holes log].
    rewrite !fmap_app. reflexivity.
Qed.


Lemma ringLoop_earlier fuel contour origx origy c t :
  classified surface width height cutoff contour →
  inGrid width height (x c) (y c) →
  wellEntered surface width height cutoff c →
  Earlier.ringLoop surface width cutoff project false fuel
    contour origx origy c (earlier t)
  = onValue (fun r => earlier r.2)
      (ringLoop cutoff height 10000 project false surface width fuel
         contour origx origy c t).
Proof.
  intros Hcontour. revert c t.
  induction fuel as [|fuel IH]; intros c t Hin Hent; simpl; [reflexivity|].
  pose proof (ringBody_onGrid cutoff height 10000 project false surface width
                contour origx origy c t Hcontour Hin Hent) as Hg.
  pose proof (contourCase_range surface width height cutoff (x c) (y c))
    as Hrange.
  pose proof (ringBody_earlier contour origx origy c t _
                (Hcontour _ _ Hin)) as Hs.
  destruct Hent as (_ & H15 & _).
  destruct (ringBody _ _ _ _ _ _ _ _ _ _ _ _) as [c1 t1|why t1|e].
  - rewrite Hs by lia. destruct Hg as (Hin1 & Hent1 & _). apply IH; assumption.
  - rewrite Hs by lia. reflexivity.
  - contradiction.
Qed.

Lemma forEach_earlier {A : Type}
    (body' : A → Earlier.tracer → JS.completion Earlier.tracer)
    (body : A → tracer → JS.completion tracer) (l : list A) (t : tracer) :
  (∀ a t, a ∈ l → body' a (earlier t) = onValue earlier (body a t)) →
  Earlier.forEach body' l (earlier t) = onValue earlier (forEach body l t).
Proof.
  revert t. induction l as [|a l IH]; intros t Hbody; simpl; [reflexivity|].
  rewrite Hbody by left.
  destruct (body a t) as [t1| |]; simpl; try reflexivity.
  apply IH. intros a' s Ha'. apply Hbody. right. exact Ha'.
Qed.

Lemma scan_earlier contour t :
  classified surface width height cutoff contour →
  Earlier.scan surface width height cutoff project false contour (earlier t)
  = onValue earlier
      (scan cutoff height 10000 project false surface width contour t).
Proof.
  intros Hcontour. unfold Earlier.scan, scan.
  apply forEach_earlier. intros origy s Hy%elem_of_seqZ. unfold scanRow.
  apply forEach_earlier. intros origx r Hx%elem_of_seqZ.
  unfold Earlier.scanCell, scanCell.
  change (Earlier.found (earlier r)) with (found r).
  destruct (strictEqZ (JS.get (found r) _) 1); [reflexivity|].
  assert (inGrid width height origx origy) as Hin by (split; lia).
  rewrite (Hcontour _ _ Hin).
  destruct (_ || strictEqZ _ 15) eqn:Hskip; [reflexivity|].
  simpl in Hskip.
  repeat (apply orb_false_iff in Hskip as [Hskip ?%Z.eqb_neq]).
  apply Z.eqb_neq in Hskip.
  rewrite ringLoop_earlier; [|exact Hcontour|exact Hin|].
  - destruct (ringLoop _ _ _ _ _ _ _ _ _ _ _ _ _) as [[why r1]| |];
      reflexivity.
  - unfold wellEntered. simpl. repeat split; try assumption; contradiction.
Qed.

End Revisions.

(** X15. Without interpolation the two revisions trace alike. On the array
    of cases of any surface, and from any array of marks, the scan of the
    earlier revision and the scan of the later one called with
    [maxCoordinates] 10000 both run to their end and leave the same marks,
    the same indices, the same shells and the same holes, ring by ring and
    coordinate by coordinate, and the earlier one has written, line by line,
    what the later one has logged (in its own wording for the ring that
    grows past 10000 coordinates). The inline [switch] and the extracted
    [followLoop] differ at case 15 and at values that are no case, which a
    trace never meets. (The nesting that follows calls a different library
    in each revision.) *)
Theorem scans_agree_without_interpolation (surface : Surface)
    (width height : Z) (cutoff : float) (project : Coordinate → Coordinate)
    (contour marks : list Z) :
  getContour surface width height cutoff = JS.Normal contour →
  ∃ t,
    scan cutoff height 10000 project false surface width contour
      (Tracer marks [] [] [] []) = JS.Normal t ∧
    Earlier.scan surface width height cutoff project false contour
      (Earlier.Tracer marks [] [] [] []) = JS.Normal (earlier t).
Proof.
  intros Hcontour%getContour_classified.
  destruct (scan_Normal cutoff height 10000 project false surface width
              contour (Tracer marks [] [] [] []) Hcontour)
    as (t & Hscan & _).
  { split; constructor. }
  exists t. split; [exact Hscan|].
  change (Earlier.Tracer marks [] [] [] [])
    with (earlier (Tracer marks [] [] [] [])).
  rewrite scan_earlier by exact Hcontour. rewrite Hscan. reflexivity.
Qed.

(** On [block4] both scans trace the one ring of midpoints. *)
Lemma scans_agree_without_interpolation_witness :
  ∃ t,
    scan 60 4 10000 Examples.keep false Examples.block4 4
      [2; 3; 1; 6; 15; 9; 4; 12; 8]
      (Tracer (replicate 9 0) [] [] [] []) = JS.Normal t ∧
    Earlier.scan Examples.block4 4 4 60 Examples.keep false
      [2; 3; 1; 6; 15; 9; 4; 12; 8]
      (Earlier.Tracer (replicate 9 0) [] [] [] []) = JS.Normal (earlier t).
Proof.
  apply (scans_agree_without_interpolation Examples.block4 4 4 60
           Examples.keep [2; 3; 1; 6; 15; 9; 4; 12; 8] (replicate 9 0)).
  vm_compute. reflexivity.
Defined.

(** ** The earlier revision: how a call ends *)

Section EarlierCall.

Variable surface : Surface.
Variable width : Z.
Variable height : Z.
Variable cutoff : float.
Variable project : Coordinate → Coordinate.
Variable interpolation : bool.
Variable PointFeature : Type.
Variable point : Coordinate → PointFeature.
Variable inside : PointFeature → Polygon → bool.

Local Abbreviation kept := (fun t : Earlier.tracer =>
  Forall (traced 10000) (Earlier.shells t) ∧
  Forall (traced 10000) (Earlier.holes t)).

(** A pass of the earlier loop either breaks, leaving closed rings only, or
    goes on with one more coordinate, and no more than 10000 of them. *)
Lemma ringBody_earlier_effect contour origx origy c t :
  kept t →
  match Earlier.ringBody surface width cutoff project interpolation
          contour origx origy c t with
  | Earlier.Continue c' t' =>
      length (coords c') = S (length (coords c)) ∧
      Z.of_nat (length (coords c')) ≤ 10000 ∧ kept t'
  | Earlier.Break _ t' => kept t'
  end.
Proof.
  intros [Hs Hh]. unfold Earlier.ringBody. cbv zeta.
  destruct (strictEqZ (JS.get (Earlier.found t) _) 1); [split; assumption|].
  destruct (Earlier.switch _ _ _ _ _) as [ranOff|[followed [nx ny]]];
    [split; assumption|].
  destruct (Earlier.shiftCoordinates _ _ _ _ _ _ _ _) as [shifted [coord|]];
    [|split; assumption].
  destruct (_ >? 10000) eqn:Hlen; [split; assumption|].
  assert (traced 10000
            [(coords c ++ [project coord])
               ++ [hd (project coord) (coords c ++ [project coord])]])
    as Hring.
  { eexists. split; [reflexivity|]. split; [apply closed_ring_pushed|].
    rewrite length_app. simpl. lia. }
  destruct ((nx =? origx) && (ny =? origy)).
  - destruct (_ >? 0); cbn [Earlier.shells Earlier.holes]; split;
      try assumption; apply Forall_app; split; try assumption;
      apply Forall_singleton; exact Hring.
  - cbn [coords Earlier.shells Earlier.holes].
    split; [rewrite length_app; simpl; lia|].
    split; [lia|]. split; assumption.
Qed.

(** [RING: while (true)] comes to an end within 10001 passes. *)
Lemma ringLoop_earlier_fuel fuel contour origx origy c t :
  kept t →
  10000 < Z.of_nat (length (coords c)) + Z.of_nat (S fuel) →
  ∃ t',
    Earlier.ringLoop surface width cutoff project interpolation (S fuel)
      contour origx origy c t = JS.Normal t' ∧
    kept t'.
Proof.
  revert c t.
  induction fuel as [|fuel IH]; intros c t Ht Hfuel;
    pose proof (ringBody_earlier_effect contour origx origy c t Ht) as Hstep;
    cbn [Earlier.ringLoop];
    destruct (Earlier.ringBody _ _ _ _ _ _ _ _ _ _) as [c1 t1|why1 t1];
    eauto.
  - lia.
  - destruct Hstep as (Hlen & _ & Ht1). apply IH; [exact Ht1|lia].
Qed.

Lemma forEach_earlier_invariant {A : Type} (I : Earlier.tracer → Prop)
    (body : A → Earlier.tracer → JS.completion Earlier.tracer) (l : list A)
    (t : Earlier.tracer) :
  (∀ a t, a ∈ l → I t → ∃ t', body a t = JS.Normal t' ∧ I t') →
  I t → ∃ t', Earlier.forEach body l t = JS.Normal t' ∧ I t'.
Proof.
  revert t. induction l as [|a l IH]; intros t Hbody Ht; simpl.
  - eauto.
  - destruct (Hbody a t) as (t1 & -> & Ht1); [left|exact Ht|]. simpl.
    apply IH; [|exact Ht1].
    intros a' t' Ha'. apply Hbody. right. exact Ha'.
Qed.

Lemma scan_earlier_Normal contour t :
  kept t →
  ∃ t',
    Earlier.scan surface width height cutoff project interpolation contour t
    = JS.Normal t' ∧
    kept t'.
Proof.
  intros Ht. unfold Earlier.scan.
  apply (forEach_earlier_invariant kept); [|exact Ht].
  intros origy t0 _ Ht0.
  apply (forEach_earlier_invariant kept); [|exact Ht0].
  intros origx t1 _ Ht1.
  unfold Earlier.scanCell.
  destruct (strictEqZ (JS.get (Earlier.found t1) _) 1); [eauto|].
  destruct (_ || strictEqZ _ 15); [eauto|].
  apply ringLoop_earlier_fuel; [exact Ht1|]. simpl. lia.
Qed.

Lemma nest_earlier_Normal holes st :
  Forall (traced 10000) holes →
  Forall (nested 10000) st.1 →
  ∃ st',
    Earlier.nest PointFeature point inside holes st = JS.Normal st' ∧
    Forall (nested 10000) st'.1.
Proof.
  revert st. induction holes as [|hole holes IH]; intros st Hholes Hst; simpl.
  - eauto.
  - apply Forall_cons in Hholes as [(ring & -> & Hring) Hholes].
    unfold Earlier.nestHole.
    destruct st.1 as [|outer outers] eqn:Hshells.
    { simpl. apply IH; [exact Hholes|]. simpl. constructor. }
    destruct ring as [|first ring].
    { destruct Hring as [[Hne _] _]. contradiction. }
    destruct (list_find _ (outer :: outers)) as [[i shell]|] eqn:Hfind;
      simpl.
    + apply IH; [exact Hholes|]. simpl.
      apply list_find_Some in Hfind as (Hi & _).
      apply Forall_insert; [exact Hst|].
      pose proof (proj1 (Forall_lookup _ _) Hst i shell Hi) as [Hne Hrings].
      split; [destruct shell; discriminate|].
      apply Forall_app. split; [exact Hrings|].
      apply Forall_singleton. eexists. split; [reflexivity|exact Hring].
    + apply IH; [exact Hholes|]. simpl. exact Hst.
Qed.

(** X16. The earlier revision of [jsolines], with or without interpolation.
    Where (width−1)·(height−1) is negative a call throws the RangeError of
    [new Uint8Array]. The scan of the grid runs to its end on any array of
    cases and from any array of marks: no pass throws and every
    [RING: while (true)] ends, within 10001 passes, and what it has collected
    are closed rings of at most 10000 traced coordinates. Every polygon of a
    call that returns has an outer ring and consists of such rings. *)
Theorem jsolines_earlier_outcome :
  ((width - 1) * (height - 1) < 0 →
   Earlier.jsolines surface width height cutoff project interpolation
     PointFeature point inside = JS.Throws JS.RangeError) ∧
  (∀ contour marks,
     ∃ t,
       Earlier.scan surface width height cutoff project interpolation
         contour (Earlier.Tracer marks [] [] [] []) = JS.Normal t ∧
       Forall (traced 10000) (Earlier.shells t) ∧
       Forall (traced 10000) (Earlier.holes t)) ∧
  (∀ polygons lines,
     Earlier.jsolines surface width height cutoff project interpolation
       PointFeature point inside = JS.Normal (polygons, lines) →
     Forall (nested 10000) polygons).
Proof.
  split; [|split].
  - intros Hneg.
    unfold Earlier.jsolines, Earlier.getContour, JS.new_Uint8Array.
    destruct (decide ((width - 1) * (height - 1) < 0)); [reflexivity|lia].
  - intros contour marks. apply scan_earlier_Normal. split; constructor.
  - intros polygons lines. unfold Earlier.jsolines.
    destruct (Earlier.getContour _ _ _ _) as [contour| |]; try discriminate.
    cbn [JS.bind].
    destruct (JS.new_Uint8Array _) as [marks| |]; try discriminate.
    cbn [JS.bind].
    destruct (scan_earlier_Normal contour (Earlier.Tracer marks [] [] [] []))
      as (t' & -> & Hs & Hh).
    { split; constructor. }
    cbn [JS.bind].
    destruct (nest_earlier_Normal (Earlier.holes t')
                (Earlier.shells t', Earlier.log t') Hh)
      as ([nested' lines'] & -> & Hnested).
    { simpl. eapply Forall_impl; [exact Hs|]. apply traced_nested. }
    intros [= <- <-]. exact Hnested.
Qed.

End EarlierCall.

(** ** The earlier revision with interpolation *)

(** X17. In a cell that touches no edge of the grid the two revisions
    interpolate alike unless the fraction is NaN: whenever the fractions the
    later revision's [interpolate] reports are not NaN, the earlier
    revision's inline interpolation returns the same coordinate (the same
    absence of one for a move that stays in its cell), and it reports a
    fraction through [debug] exactly when the later one logs one. What is
    left for the two to differ in is the cells along the edges, where the
    later revision sets the outer samples to the cutoff, and a NaN fraction,
    which the earlier revision lets through. *)
Theorem interpolation_agrees_off_the_edge (cutoff : float) (height : Z)
    (startx starty : Z) (surface : Surface) (width x y : Z) :
  x ≠ 0 → y ≠ 0 → x ≠ width - 2 → y ≠ height - 2 →
  (∀ direction frac,
     SegmentFractionIs direction frac
       ∈ (interpolate cutoff height startx starty surface width x y).1 →
     JS.isNaN frac = false) →
  (Earlier.shiftCoordinates true cutoff surface width startx starty x y).2
  = (interpolate cutoff height startx starty surface width x y).2 ∧
  ((Earlier.shiftCoordinates true cutoff surface width startx starty x y).1
   = [] ↔
   (interpolate cutoff height startx starty surface width x y).1 = []).
Proof.
  intros Hx Hy Hw Hh.
  unfold interpolate, cornerSamples, Earlier.shiftCoordinates, crossing.
  cbv zeta.
  rewrite (proj2 (Z.eqb_neq _ _) Hx), (proj2 (Z.eqb_neq _ _) Hy),
    (proj2 (Z.eqb_neq _ _) Hw), (proj2 (Z.eqb_neq _ _) Hh).
  replace ((y + 1) * width + x) with (y * width + x + width) by lia.
  unfold ensureFractionIsNumber, Earlier.infinityToHalf.
  destruct (startx <? x); [|destruct (startx >? x); [|
    destruct (starty >? y); [|destruct (starty <? y); [|tauto]]]];
    destruct (JS.isNaN _) eqn:Hnan, (JS.strictEq _ JS.Infinity); simpl;
    intros Hlog;
    try (specialize (Hlog _ _ (list_elem_of_here _ _)); congruence);
    (split; [reflexivity|split; intros; (discriminate || reflexivity)]).
Qed.

Lemma interpolation_agrees_off_the_edge_witness :
  (Earlier.shiftCoordinates true 60 Examples.low4 4 0 1 1 1).2
  = (interpolate 60 4 0 1 Examples.low4 4 1 1).2 ∧
  ((Earlier.shiftCoordinates true 60 Examples.low4 4 0 1 1 1).1 = [] ↔
   (interpolate 60 4 0 1 Examples.low4 4 1 1).1 = []).
Proof.
  apply (interpolation_agrees_off_the_edge 60 4 0 1 Examples.low4 4 1 1);
    [lia|lia|lia|lia|].
  intros direction frac.
  assert ((interpolate 60 4 0 1 Examples.low4 4 1 1).1
          = [SegmentFractionIs fromLeft JS.Infinity]) as ->
    by (vm_compute; reflexivity).
  intros [= _ ->]%list_elem_of_singleton. reflexivity.
Defined.

Lemma shiftCoordinates_earlier_None interpolation cutoff surface width
    startx starty x y :
  (Earlier.shiftCoordinates interpolation cutoff surface width
     startx starty x y).2 = None ↔ startx = x ∧ starty = y.
Proof.
  unfold Earlier.shiftCoordinates. cbv zeta. rewrite !Z.gtb_ltb.
  destruct (Z.ltb_spec startx x); [destruct (Earlier.infinityToHalf _ _ _ _)|
  destruct (Z.ltb_spec x startx); [destruct (Earlier.infinityToHalf _ _ _ _)|
  destruct (Z.ltb_spec y starty); [destruct (Earlier.infinityToHalf _ _ _ _)|
  destruct (Z.ltb_spec starty y); [destruct (Earlier.infinityToHalf _ _ _ _)|]]]];
    simpl; split; try discriminate; try lia; auto.
Qed.

Lemma shiftCoordinates_earlier_log interpolation cutoff surface width
    startx starty x y :
  Forall (fun l => ¬ defensiveLine l)
    (Earlier.shiftCoordinates interpolation cutoff surface width
       startx starty x y).1.
Proof.
  unfold Earlier.shiftCoordinates. cbv zeta.
  destruct (startx <? x); [|destruct (startx >? x); [|
    destruct (starty >? y); [|destruct (starty <? y); [|constructor]]]];
    unfold Earlier.infinityToHalf;
    destruct (JS.strictEq _ JS.Infinity); simpl; repeat constructor; auto.
Qed.

Section EarlierOnGrid.

Variable surface : Surface.
Variable width : Z.
Variable height : Z.
Variable cutoff : float.
Variable project : Coordinate → Coordinate.
Variable interpolation : bool.

Local Abbreviation quiet := (fun t : Earlier.tracer =>
  Forall (fun l => ¬ defensiveLine l) (Earlier.log t)).

Lemma ringBody_earlier_onGrid contour origx origy c t :
  classified surface width height cutoff contour →
  inGrid width height (x c) (y c) →
  wellEntered surface width height cutoff c →
  quiet t →
  match Earlier.ringBody surface width cutoff project interpolation
          contour origx origy c t with
  | Earlier.Continue c' t' =>
      inGrid width height (x c') (y c') ∧
      wellEntered surface width height cutoff c' ∧ quiet t'
  | Earlier.Break _ t' => quiet t'
  end.
Proof.
  intros Hcontour Hin (H0 & H15 & H5 & H10) Hq.
  destruct (followLoop_wellEntered cutoff height surface width
              (startx c) (starty c) (x c) (y c) Hin H0 H15 H5 H10)
    as (nx & ny & Hfollow & Hin' & Hadj & Hent').
  pose proof (contourCase_range surface width height cutoff (x c) (y c))
    as Hrange.
  destruct (switch_followLoop
              (contourCase surface width height cutoff (x c) (y c))
              (startx c) (starty c) (x c) (y c))
    as (followed & next & Hf & Hswitch); [lia|].
  rewrite Hfollow in Hf. injection Hf as <- <-.
  unfold Earlier.ringBody. cbv zeta.
  destruct (strictEqZ (JS.get (Earlier.found t) _) 1).
  { cbn [Earlier.log]. apply Forall_app. split; [exact Hq|].
    repeat constructor; auto. }
  rewrite (Hcontour _ _ Hin), Hswitch.
  pose proof (shiftCoordinates_earlier_log interpolation cutoff surface width
                (x c) (y c) nx ny) as Hlog.
  pose proof (shiftCoordinates_earlier_None interpolation cutoff surface width
                (x c) (y c) nx ny) as Hnone.
  destruct (Earlier.shiftCoordinates _ _ _ _ _ _ _ _) as [shifted [coord|]].
  2:{ exfalso. destruct Hnone as [Hnone _].
      destruct (Hnone eq_refl) as [Hsx Hsy]. lia. }
  simpl in Hlog.
  assert (Forall (fun l => ¬ defensiveLine l)
            (Earlier.log t ++ (Earlier.lineOf <$> []) ++ shifted)) as Hq'.
  { apply Forall_app. split; [exact Hq|exact Hlog]. }
  destruct (_ >? 10000).
  { cbn [Earlier.log]. apply Forall_app. split; [exact Hq'|].
    repeat constructor; auto. }
  destruct ((nx =? origx) && (ny =? origy)).
  - destruct (_ >? 0); exact Hq'.
  - cbn [x y startx starty Earlier.log]. split; [exact Hin'|].
    split; [exact Hent'|exact Hq'].
Qed.

Lemma ringLoop_earlier_quiet fuel contour origx origy c t t' :
  classified surface width height cutoff contour →
  inGrid width height (x c) (y c) →
  wellEntered surface width height cutoff c →
  quiet t →
  Earlier.ringLoop surface width cutoff project interpolation fuel
    contour origx origy c t = JS.Normal t' →
  quiet t'.
Proof.
  intros Hcontour. revert c t.
  induction fuel as [|fuel IH]; intros c t Hin Hent Hq; simpl;
    [discriminate|].
  pose proof (ringBody_earlier_onGrid contour origx origy c t Hcontour Hin
                Hent Hq) as Hstep.
  destruct (Earlier.ringBody _ _ _ _ _ _ _ _ _ _) as [c1 t1|why1 t1].
  - destruct Hstep as (Hin1 & Hent1 & Hq1). apply IH; assumption.
  - intros [= <-]. exact Hstep.
Qed.

Lemma forEach_earlier_preserves {A : Type} (I : Earlier.tracer → Prop)
    (body : A → Earlier.tracer → JS.completion Earlier.tracer) (l : list A)
    (t t' : Earlier.tracer) :
  (∀ a t t', a ∈ l → I t → body a t = JS.Normal t' → I t') →
  I t → Earlier.forEach body l t = JS.Normal t' → I t'.
Proof.
  revert t. induction l as [|a l IH]; intros t Hbody Ht; simpl.
  - intros [= <-]. exact Ht.
  - destruct (body a t) as [t1| |] eqn:Ha; simpl; try discriminate.
    apply IH.
    + intros a' s s' Ha'. apply Hbody. right. exact Ha'.
    + eapply Hbody; [left|exact Ht|exact Ha].
Qed.

Lemma scan_earlier_quiet contour t t' :
  classified surface width height cutoff contour →
  quiet t →
  Earlier.scan surface width height cutoff project interpolation contour t
  = JS.Normal t' →
  quiet t'.
Proof.
  intros Hcontour. unfold Earlier.scan.
  apply (forEach_earlier_preserves quiet).
  intros origy s s' Hy%elem_of_seqZ Hs.
  apply (forEach_earlier_preserves quiet); [|exact Hs].
  intros origx r r' Hx%elem_of_seqZ Hr. unfold Earlier.scanCell.
  destruct (strictEqZ (JS.get (Earlier.found r) _) 1);
    [intros [= <-]; exact Hr|].
  assert (inGrid width height origx origy) as Hin by (split; lia).
  rewrite (Hcontour _ _ Hin).
  destruct (_ || strictEqZ _ 15) eqn:Hskip; [intros [= <-]; exact Hr|].
  simpl in Hskip.
  repeat (apply orb_false_iff in Hskip as [Hskip ?%Z.eqb_neq]).
  apply Z.eqb_neq in Hskip.
  apply ringLoop_earlier_quiet; [exact Hcontour|exact Hin| |exact Hr].
  unfold wellEntered. simpl. repeat split; try assumption; contradiction.
Qed.

Variable PointFeature : Type.
Variable point : Coordinate → PointFeature.
Variable inside : PointFeature → Polygon → bool.

Lemma nest_earlier_quiet holes st st' :
  Forall (fun l => ¬ defensiveLine l) st.2 →
  Earlier.nest PointFeature point inside holes st = JS.Normal st' →
  Forall (fun l => ¬ defensiveLine l) st'.2.
Proof.
  revert st. induction holes as [|hole holes IH]; intros st Hst; simpl.
  - intros [= <-]. exact Hst.
  - destruct (Earlier.nestHole _ _ _ _ _) as [st1| |] eqn:Hhole; simpl;
      try discriminate.
    apply IH. unfold Earlier.nestHole in Hhole.
    assert (Forall (fun l => ¬ defensiveLine l)
              (st.2 ++ [Earlier.Logged NoFittingShellForHole])) as Hno.
    { apply Forall_app. split; [exact Hst|]. repeat constructor; auto. }
    destruct st.1 as [|outer outers]; [injection Hhole as <-; exact Hno|].
    destruct hole as [|[|first ring] rest]; try discriminate.
    destruct (list_find _ _) as [[i shell]|]; injection Hhole as <-;
      [exact Hst|exact Hno].
Qed.

(** X18. The earlier revision of [jsolines], with or without interpolation,
    never writes a line of its defensive branches: not "Ran off outside of
    ring" nor "Ran off inside of ring", not the wrong-direction line of
    either saddle, not "Unexpected coordinate shift". On the case grid that
    [getContour] makes, a trace only meets cells that have a line, enters a
    saddle only from a side it has a passage for, and always moves. *)
Theorem jsolines_earlier_never_logs_defensive polygons lines :
  Earlier.jsolines surface width height cutoff project interpolation
    PointFeature point inside = JS.Normal (polygons, lines) →
  ∀ l, l ∈ lines →
    l ≠ Earlier.RanOffInsideOfRing ∧
    l ≠ Earlier.Logged RanOffOutsideOfRing ∧
    l ≠ Earlier.Logged Case5WrongDirection ∧
    l ≠ Earlier.Logged Case10WrongDirection ∧
    ∀ startx starty x y,
      l ≠ Earlier.Logged (UnexpectedCoordinateShift startx starty x y).
Proof.
  unfold Earlier.jsolines. rewrite getContour_earlier.
  destruct (getContour surface width height cutoff) as [contour| |] eqn:Hc;
    try discriminate.
  pose proof (getContour_classified _ _ _ _ _ Hc) as Hcontour.
  cbn [JS.bind].
  destruct (JS.new_Uint8Array _) as [marks| |]; try discriminate.
  cbn [JS.bind].
  destruct (Earlier.scan _ _ _ _ _ _ _ _) as [t| |] eqn:Hscan;
    try discriminate.
  cbn [JS.bind]. intros Hnest l Hl.
  apply scan_earlier_quiet in Hscan; [|exact Hcontour|constructor].
  apply nest_earlier_quiet in Hnest; [|exact Hscan].
  pose proof (proj1 (Forall_forall _ _) Hnest l Hl) as Hquiet.
  simpl in Hquiet.
  repeat split; try (intros ->; apply Hquiet; exact I).
  intros sx sy nx ny ->. apply Hquiet. exact I.
Qed.

End EarlierOnGrid.

(** On [low4], where every fraction is Infinity, the earlier revision
    reports eight fractions through [debug], and no defensive line. *)
Lemma jsolines_earlier_never_logs_defensive_witness :
  Earlier.jsolines Examples.low4 4 4 60 Examples.keep true
    Coordinate Examples.asPoint Examples.always
  = JS.Normal
      ([[Examples.block4_midpoints]],
       [Earlier.SegmentFractionIsInfinity fromTop 0 1;
        Earlier.SegmentFractionIsInfinity fromTop 0 2;
        Earlier.SegmentFractionIsInfinity fromLeft 1 2;
        Earlier.SegmentFractionIsInfinity fromLeft 2 2;
        Earlier.SegmentFractionIsInfinity fromBottom 2 1;
        Earlier.SegmentFractionIsInfinity fromBottom 2 0;
        Earlier.SegmentFractionIsInfinity fromRight 1 0;
        Earlier.SegmentFractionIsInfinity fromRight 0 0]) ∧
  Earlier.SegmentFractionIsInfinity fromTop 0 1
  ≠ Earlier.RanOffInsideOfRing ∧
  Earlier.SegmentFractionIsInfinity fromTop 0 1
  ≠ Earlier.Logged RanOffOutsideOfRing.
Proof.
  assert (Earlier.jsolines Examples.low4 4 4 60 Examples.keep true
            Coordinate Examples.asPoint Examples.always
          = JS.Normal
              ([[Examples.block4_midpoints]],
               [Earlier.SegmentFractionIsInfinity fromTop 0 1;
                Earlier.SegmentFractionIsInfinity fromTop 0 2;
                Earlier.SegmentFractionIsInfinity fromLeft 1 2;
                Earlier.SegmentFractionIsInfinity fromLeft 2 2;
                Earlier.SegmentFractionIsInfinity fromBottom 2 1;
                Earlier.SegmentFractionIsInfinity fromBottom 2 0;
                Earlier.SegmentFractionIsInfinity fromRight 1 0;
                Earlier.SegmentFractionIsInfinity fromRight 0 0]))
    as Hcall by (vm_compute; reflexivity).
  split; [exact Hcall|].
  destruct (jsolines_earlier_never_logs_defensive _ _ _ _ _ _ _ _ _ _ _
              Hcall (Earlier.SegmentFractionIsInfinity fromTop 0 1))
    as (Hinside & Houtside & _).
  { apply list_elem_of_here. }
  split; [exact Hinside|exact Houtside].
Defined.

(** On an edge cell the two revisions interpolate differently: entering
    cell (0, 1) of [band5] from above, the later one puts the vertex on the
    edge of the grid, the earlier one between the two samples. *)
Example interpolation_differs_on_the_edge :
  match (Earlier.shiftCoordinates true 60 Examples.band5 5 0 0 0 1).2,
        (interpolate 60 5 0 0 Examples.band5 5 0 1).2 with
  | Some (a, _), Some (b, _) =>
      JS.strictEq b 0 = true ∧ JS.lt 0 a = true ∧ JS.lt a 0.5 = true
  | _, _ => False
  end.
Proof. vm_compute. repeat split. Qed.

(** * The fractions of a trace *)

(** ** Signs of differences and quotients on binary64

    The operations are the ones of [SpecFloat], which the primitive
    operations are specified by; the format is binary64 (53 bits of
    mantissa, exponents from -1074 to 971). *)

(** A mantissa lies between the powers of two its number of digits names. *)
Lemma digits2_pos_bounds (m : positive) :
  2 ^ (Zpos (digits2_pos m) - 1) ≤ Zpos m < 2 ^ Zpos (digits2_pos m).
Proof.
  induction m as [m IH|m IH|]; cbn [digits2_pos];
    rewrite ?Pos2Z.inj_succ.
  - replace (Z.succ (Zpos (digits2_pos m)) - 1)
      with (Z.succ (Zpos (digits2_pos m) - 1)) by lia.
    rewrite !Z.pow_succ_r by lia. lia.
  - replace (Z.succ (Zpos (digits2_pos m)) - 1)
      with (Z.succ (Zpos (digits2_pos m) - 1)) by lia.
    rewrite !Z.pow_succ_r by lia. lia.
  - simpl. lia.
Qed.

(** A number of the format: its exponent is in range, its mantissa has at
    most 53 digits, and exactly 53 above the smallest exponent. *)
Lemma bounded_mantissa (m : positive) (e : Z) :
  bounded prec emax m e = true →
  -1074 ≤ e ≤ 971 ∧ Zpos m < 2 ^ 53 ∧ (-1074 < e → 2 ^ 52 ≤ Zpos m).
Proof.
  unfold bounded, canonical_mantissa, fexp.
  change (SpecFloat.emin prec emax) with (-1074).
  change prec with 53. change emax with 1024.
  intros [Hcanon Hmax%Z.leb_le]%andb_true_iff. apply Z.eqb_eq in Hcanon.
  pose proof (digits2_pos_bounds m) as [Hlow Hhigh].
  split; [lia|]. split.
  - assert (Zpos (digits2_pos m) ≤ 53) as Hd by lia.
    pose proof (Z.pow_le_mono_r 2 _ _ ltac:(lia) Hd). lia.
  - intros He. assert (Zpos (digits2_pos m) = 53) as Hd by lia.
    rewrite Hd in Hlow. exact Hlow.
Qed.

(** The key of a finite number is not zero, has the sign of the number and
    lies strictly between the keys of the infinities. *)
Lemma key_finite_bound s m e :
  bounded prec emax m e = true →
  0 < Zpos m * 2 ^ (e + 1074) < 2 ^ 2099 ∧
  - 2 ^ 2099 < key (S754_finite s m e) < 2 ^ 2099 ∧
  (if s then key (S754_finite s m e) < 0 else 0 < key (S754_finite s m e)).
Proof.
  intros (He & Hm & _)%bounded_mantissa.
  assert (0 < 2 ^ (e + 1074)) as Hpos by (apply Z.pow_pos_nonneg; lia).
  assert (2 ^ (e + 1074) ≤ 2 ^ 2045) as Hle
    by (apply Z.pow_le_mono_r; lia).
  assert (Zpos m * 2 ^ (e + 1074) < 2 ^ 53 * 2 ^ 2045) as Hlt.
  { apply Z.le_lt_trans with (Zpos m * 2 ^ 2045).
    - apply Z.mul_le_mono_nonneg_l; lia.
    - apply Z.mul_lt_mono_pos_r; lia. }
  rewrite <- Z.pow_add_r in Hlt by lia. change (53 + 2045) with 2098 in Hlt.
  assert (2 ^ 2098 < 2 ^ 2099) as Hbig by (apply Z.pow_lt_mono_r; lia).
  assert (0 < Zpos m * 2 ^ (e + 1074)) as Hprod by lia.
  split; [lia|]. destruct s; cbn [key cond_Zopp]; lia.
Qed.

(** Of two canonical mantissas, the one with the larger exponent is the
    larger number. *)
Lemma key_exponent_lt m1 e1 m2 e2 :
  bounded prec emax m1 e1 = true → bounded prec emax m2 e2 = true →
  e1 < e2 →
  Zpos m1 * 2 ^ (e1 + 1074) < Zpos m2 * 2 ^ (e2 + 1074).
Proof.
  intros (He1 & Hm1 & _)%bounded_mantissa (He2 & _ & Hm2)%bounded_mantissa Hlt.
  specialize (Hm2 ltac:(lia)).
  replace (e2 + 1074) with ((e1 + 1074) + (e2 - e1)) by lia.
  rewrite (Z.pow_add_r 2 (e1 + 1074) (e2 - e1)) by lia.
  assert (0 < 2 ^ (e1 + 1074)) as Hpos by (apply Z.pow_pos_nonneg; lia).
  assert (2 ^ 1 ≤ 2 ^ (e2 - e1)) as Hstep by (apply Z.pow_le_mono_r; lia).
  change (2 ^ 1) with 2 in Hstep.
  set (P := 2 ^ (e1 + 1074)) in *. set (Q := 2 ^ (e2 - e1)) in *.
  apply Z.lt_le_trans with (2 ^ 53 * P).
  { apply Z.mul_lt_mono_pos_r; assumption. }
  apply Z.le_trans with (Zpos m2 * 2 * P).
  { apply Z.mul_le_mono_nonneg_r; lia. }
  rewrite <- Z.mul_assoc. apply Z.mul_le_mono_nonneg_l; [lia|].
  rewrite (Z.mul_comm P Q). apply Z.mul_le_mono_nonneg_r; lia.
Qed.

Ltac compare_keys :=
  cbn [key cond_Zopp];
  first [apply Z.compare_lt_iff | apply Z.compare_gt_iff
        | apply Z.compare_eq_iff];
  lia.

(** Comparison of two numbers is comparison of their keys. *)
Lemma SFcompare_key (x y : spec_float) (c : comparison) :
  valid_binary x = true → valid_binary y = true →
  SFcompare x y = Some c → (key x ?= key y) = c.
Proof.
  assert (0 < 2 ^ 2099) as Hinf by (apply Z.pow_pos_nonneg; lia).
  destruct x as [sx|sx| |sx mx ex], y as [sy|sy| |sy my ey];
    cbn [valid_binary SFcompare]; intros Hx Hy; try discriminate;
    try pose proof (key_finite_bound sx mx ex Hx) as (Hpx & Hbx & Hsx);
    try pose proof (key_finite_bound sy my ey Hy) as (Hpy & Hby & Hsy);
    intros [= <-].
  - reflexivity.
  - destruct sy; compare_keys.
  - destruct sy; cbn [key cond_Zopp] in *; compare_keys.
  - destruct sx; compare_keys.
  - destruct sx, sy; compare_keys.
  - destruct sx; cbn [key cond_Zopp] in *; compare_keys.
  - destruct sx; cbn [key cond_Zopp] in *; compare_keys.
  - destruct sy; cbn [key cond_Zopp] in *; compare_keys.
  - pose proof (bounded_mantissa _ _ Hx) as (Hex & _ & _).
    pose proof (bounded_mantissa _ _ Hy) as (Hey & _ & _).
    assert (∀ a b, ex = ey → (Zpos a * 2 ^ (ex + 1074)
                               ?= Zpos b * 2 ^ (ey + 1074))
                             = Pos.compare_cont Eq a b) as Hsame.
    { intros a b <-. rewrite <- Zmult_compare_compat_r
        by (apply Z.lt_gt, Z.pow_pos_nonneg; lia).
      reflexivity. }
    clear Hbx Hby Hsx Hsy. cbn [key].
    destruct sx, sy; cbn [cond_Zopp].
    + rewrite Z.compare_opp.
      destruct (Z.compare_spec ex ey) as [Heq|Hlt|Hgt].
      * rewrite (Hsame my mx Heq)
        || (subst ey; rewrite <- Zmult_compare_compat_r
              by (apply Z.lt_gt, Z.pow_pos_nonneg; lia)).
        change (Zpos my ?= Zpos mx) with (my ?= mx)%positive.
        rewrite (Pos.compare_antisym mx my). reflexivity.
      * apply Z.compare_gt_iff. apply key_exponent_lt; assumption.
      * apply Z.compare_lt_iff. apply key_exponent_lt; assumption.
    + apply Z.compare_lt_iff. lia.
    + apply Z.compare_gt_iff. lia.
    + destruct (Z.compare_spec ex ey) as [Heq|Hlt|Hgt].
      * apply Hsame. exact Heq.
      * apply Z.compare_lt_iff. apply key_exponent_lt; assumption.
      * apply Z.compare_gt_iff. apply key_exponent_lt; assumption.
Qed.

(** Aligning a mantissa to a smaller exponent keeps the value. *)
Lemma shl_align_value (m : positive) (e ez : Z) :
  ez ≤ e → Zpos (shl_align m e ez).1 = Zpos m * 2 ^ (e - ez).
Proof.
  intros Hle. unfold shl_align.
  destruct (ez - e) as [|d|d] eqn:Hd; cbn [fst].
  - replace (e - ez) with 0 by lia. lia.
  - lia.
  - change (Pos.iter xO m d) with (shift_pos d m).
    rewrite shift_pos_correct. replace (e - ez) with (Zpos d) by lia.
    change (Z.pow_pos 2 d) with (2 ^ Zpos d). lia.
Qed.

(** The integer [SFsub] rounds is the difference of the keys, in units of
    the smaller exponent. *)
Lemma SFsub_key sx mx ex sy my ey :
  -1074 ≤ ex → -1074 ≤ ey →
  key (S754_finite sx mx ex) - key (S754_finite sy my ey)
  = (cond_Zopp sx (Zpos (shl_align mx ex (Z.min ex ey)).1)
     - cond_Zopp sy (Zpos (shl_align my ey (Z.min ex ey)).1))
    * 2 ^ (Z.min ex ey + 1074).
Proof.
  intros Hex Hey. rewrite !shl_align_value by lia. cbn [key].
  replace (ex + 1074) with ((ex - Z.min ex ey) + (Z.min ex ey + 1074))
    by lia.
  replace (ey + 1074) with ((ey - Z.min ex ey) + (Z.min ex ey + 1074))
    at 1 by lia.
  rewrite (Z.pow_add_r 2 (ex - Z.min ex ey)),
    (Z.pow_add_r 2 (ey - Z.min ex ey)) by lia.
  destruct sx, sy; cbn [cond_Zopp]; ring.
Qed.

(** Rounding keeps the sign it is given. *)
Lemma binary_round_aux_signed s m e l :
  signed s (binary_round_aux prec emax s m e l).
Proof.
  unfold binary_round_aux.
  destruct (shr_fexp _ _ _ _ _) as [mrs' e'].
  destruct (shr_fexp _ _ _ _ _) as [mrs'' e''].
  destruct (shr_m mrs''); [reflexivity| |exact I].
  destruct (_ <=? _); reflexivity.
Qed.

Lemma binary_normalize_signed (m e : Z) :
  (0 < m → signed false (binary_normalize prec emax m e false)) ∧
  (m < 0 → signed true (binary_normalize prec emax m e false)) ∧
  (m = 0 → binary_normalize prec emax m e false = S754_zero false).
Proof.
  destruct m as [|p|p]; cbn [binary_normalize]; repeat split;
    try (intros; lia); intros _; unfold binary_round;
    destruct (shl_align _ _ _); apply binary_round_aux_signed.
Qed.

(** The sign of a difference is the order of its operands. *)
Lemma SFsub_signed (x y : spec_float) :
  valid_binary x = true → valid_binary y = true →
  x ≠ S754_nan → y ≠ S754_nan →
  (key y < key x → signed false (SFsub prec emax x y)) ∧
  (key x < key y → signed true (SFsub prec emax x y)) ∧
  (key x = key y →
   SFsub prec emax x y = S754_nan ∨ ∃ s, SFsub prec emax x y = S754_zero s).
Proof.
  assert (0 < 2 ^ 2099) as Hinf by (apply Z.pow_pos_nonneg; lia).
  destruct x as [sx|sx| |sx mx ex], y as [sy|sy| |sy my ey];
    cbn [valid_binary SFsub]; intros Hx Hy Hnx Hny; try congruence;
    try pose proof (key_finite_bound sx mx ex Hx) as (Hpx & Hbx & Hsx);
    try pose proof (key_finite_bound sy my ey Hy) as (Hpy & Hby & Hsy).
  - split; [|split]; cbn [key]; try lia. intros _. right.
    destruct sx, sy; eauto.
  - cbn [key cond_Zopp signed]. destruct sy; cbn [cond_Zopp negb];
      repeat split; intros; try lia; reflexivity.
  - cbn [signed]. change (key (S754_zero sx)) with 0.
    destruct sy; cbn [negb]; repeat split; intros; try lia; reflexivity.
  - cbn [key cond_Zopp signed]. destruct sx; cbn [cond_Zopp];
      repeat split; intros; try lia; reflexivity.
  - cbn [key]. destruct sx, sy; cbn [cond_Zopp signed];
      repeat split; intros; try lia; try reflexivity; left; reflexivity.
  - change (key (S754_infinity sx)) with (cond_Zopp sx (2 ^ 2099)).
    cbn [signed]. destruct sx; cbn [cond_Zopp];
      repeat split; intros; try lia; reflexivity.
  - cbn [signed]. change (key (S754_zero sy)) with 0.
    destruct sx; repeat split; intros; try lia; reflexivity.
  - change (key (S754_infinity sy)) with (cond_Zopp sy (2 ^ 2099)).
    cbn [signed]. destruct sy; cbn [cond_Zopp negb];
      repeat split; intros; try lia; reflexivity.
  - pose proof (bounded_mantissa _ _ Hx) as (Hex & _ & _).
    pose proof (bounded_mantissa _ _ Hy) as (Hey & _ & _).
    pose proof (SFsub_key sx mx ex sy my ey ltac:(lia) ltac:(lia)) as Hkey.
    cbv zeta.
    set (M := cond_Zopp sx _ - cond_Zopp sy _) in *.
    assert (0 < 2 ^ (Z.min ex ey + 1074)) as Hpos
      by (apply Z.pow_pos_nonneg; lia).
    destruct (binary_normalize_signed M (Z.min ex ey)) as (Hp & Hn & Hz).
    split; [|split]; intros Hord.
    + apply Hp. nia.
    + apply Hn. nia.
    + right. exists false. apply Hz. nia.
Qed.

(** A quotient of two numbers of the same sign is not −Infinity, and neither
    is a quotient whose numerator is a zero. *)
Lemma SFdiv_signed (s : bool) (n d : spec_float) :
  signed s n → signed s d → SFdiv prec emax n d ≠ S754_infinity true.
Proof.
  destruct n as [sn|sn| |sn mn en], d as [sd|sd| |sd md ed];
    cbn [signed SFdiv]; intros Hn Hd; try discriminate;
    try (subst sn sd; destruct s; discriminate).
  destruct (SFdiv_core_binary _ _ _ _ _ _) as [[mz ez] lz].
  pose proof (binary_round_aux_signed (xorb sn sd) mz ez lz) as Hs.
  subst sn sd. intros Heq. rewrite Heq in Hs. destruct s; discriminate.
Qed.

Lemma SFdiv_zero (n d : spec_float) :
  (n = S754_nan ∨ ∃ s, n = S754_zero s) →
  SFdiv prec emax n d ≠ S754_infinity true.
Proof.
  intros [->|[s ->]]; destruct d; discriminate.
Qed.

(** The fraction of a side that the line crosses: of its two ends, one is
    below the cutoff and the other is not. *)
Lemma fraction_not_neg_infinity (c a b : float) :
  (a <? c)%float ≠ (b <? c)%float →
  Prim2SF ((c - a) / (b - a)) ≠ S754_infinity true.
Proof.
  rewrite !FloatAxioms.ltb_spec, FloatAxioms.div_spec, !FloatAxioms.sub_spec.
  pose proof (FloatAxioms.Prim2SF_valid a) as Ha.
  pose proof (FloatAxioms.Prim2SF_valid b) as Hb.
  pose proof (FloatAxioms.Prim2SF_valid c) as Hc.
  unfold SF64div, SF64sub, SFltb.
  destruct (SFcompare (Prim2SF a) (Prim2SF c)) as [ac|] eqn:Hac.
  2:{ (* a or c is NaN *)
      destruct (SFcompare (Prim2SF b) (Prim2SF c)) as [bc|] eqn:Hbc.
      - destruct (Prim2SF a) as [| | |], (Prim2SF c) as [| | |],
          (Prim2SF b) as [| | |]; discriminate.
      - congruence. }
  destruct (SFcompare (Prim2SF b) (Prim2SF c)) as [bc|] eqn:Hbc.
  2:{ (* b is NaN: the denominator is *)
      intros _.
      assert (Prim2SF b = S754_nan) as ->.
      { destruct (Prim2SF b) as [| | |], (Prim2SF c) as [| | |];
          try discriminate; try reflexivity;
          destruct (Prim2SF a) as [| | |]; discriminate. }
      destruct (SFsub prec emax (Prim2SF c) (Prim2SF a)),
        (Prim2SF a); discriminate. }
  assert (Prim2SF a ≠ S754_nan ∧ Prim2SF b ≠ S754_nan
          ∧ Prim2SF c ≠ S754_nan) as (Hna & Hnb & Hnc).
  { destruct (Prim2SF a) as [| | |], (Prim2SF b) as [| | |],
      (Prim2SF c) as [| | |]; repeat split; discriminate. }
  apply SFcompare_key in Hac; [|assumption..].
  apply SFcompare_key in Hbc; [|assumption..].
  destruct (SFsub_signed (Prim2SF c) (Prim2SF a) Hc Ha Hnc Hna)
    as (Hn_pos & Hn_neg & Hn_zero).
  destruct (SFsub_signed (Prim2SF b) (Prim2SF a) Hb Ha Hnb Hna)
    as (Hd_pos & Hd_neg & _).
  destruct ac, bc; intros Hne; cbn in Hne; try congruence;
    repeat match goal with
           | H : (_ ?= _) = Eq |- _ => apply -> Z.compare_eq_iff in H
           | H : (_ ?= _) = Lt |- _ => apply -> Z.compare_lt_iff in H
           | H : (_ ?= _) = Gt |- _ => apply -> Z.compare_gt_iff in H
           end.
  - (* a = c, b < c *) apply SFdiv_zero, Hn_zero. lia.
  - (* a < c, b = c *) apply (SFdiv_signed false); [apply Hn_pos|apply Hd_pos]; lia.
  - (* a < c, b > c *) apply (SFdiv_signed false); [apply Hn_pos|apply Hd_pos]; lia.
  - (* a > c, b < c *) apply (SFdiv_signed true); [apply Hn_neg|apply Hd_neg]; lia.
Qed.

(** ** Magnitudes of rounded numbers *)

(** One shift to the right halves the mantissa. *)
Lemma shr_1_m (r : shr_record) :
  0 ≤ shr_m r → shr_m (shr_1 r) = shr_m r / 2.
Proof.
  rewrite <- Z.div2_div.
  destruct r as [m rb sb]. destruct m as [|[p|p|]|p]; cbn; intros; try lia;
    reflexivity.
Qed.

Lemma iter_shr_1 (p : positive) (r : shr_record) :
  0 ≤ shr_m r → shr_m (SpecFloat.iter_pos shr_1 p r) = shr_m r / 2 ^ Zpos p.
Proof.
  revert r. induction p as [p IH|p IH|]; intros r Hr; cbn [SpecFloat.iter_pos].
  - assert (0 ≤ shr_m (shr_1 r)) as H1
        by (rewrite shr_1_m by exact Hr; apply Z.div_pos; lia).
    assert (0 < 2 ^ Zpos p) as Hp by (apply Z.pow_pos_nonneg; lia).
    assert (0 ≤ shr_m (SpecFloat.iter_pos shr_1 p (shr_1 r))) as H2
        by (rewrite IH by exact H1; apply Z.div_pos; lia).
    rewrite IH by exact H2. rewrite IH by exact H1. rewrite shr_1_m by exact Hr.
    rewrite !Z.div_div by lia.
    replace (Zpos p~1) with (1 + Zpos p + Zpos p) by lia.
    rewrite !Z.pow_add_r by lia. f_equal. change (2 ^ 1) with 2. ring.
  - assert (0 < 2 ^ Zpos p) as Hp by (apply Z.pow_pos_nonneg; lia).
    assert (0 ≤ shr_m (SpecFloat.iter_pos shr_1 p r)) as H2
        by (rewrite IH by exact Hr; apply Z.div_pos; lia).
    rewrite IH by exact H2. rewrite IH by exact Hr.
    rewrite !Z.div_div by lia.
    replace (Zpos p~0) with (Zpos p + Zpos p) by lia.
    rewrite !Z.pow_add_r by lia. reflexivity.
  - rewrite shr_1_m by exact Hr. reflexivity.
Qed.

Lemma Zdigits2_bounds (m : Z) :
  0 < m → 2 ^ (Zdigits2 m - 1) ≤ m < 2 ^ Zdigits2 m ∧ 0 < Zdigits2 m.
Proof.
  destruct m as [|p|p]; try lia. intros _. cbn [Zdigits2].
  split; [apply digits2_pos_bounds|lia].
Qed.

(** What [shr_fexp] returns: the mantissa shifted to the exponent the format
    wants, when that is a larger one. *)
Lemma shr_fexp_spec (m e : Z) (l : location) :
  0 ≤ m →
  let e' := Z.max e (fexp prec emax (Zdigits2 m + e)) in
  (shr_fexp prec emax m e l).2 = e' ∧
  shr_m (shr_fexp prec emax m e l).1 = m / 2 ^ (e' - e).
Proof.
  intros Hm. cbv zeta. unfold shr_fexp, shr.
  assert (shr_m (shr_record_of_loc m l) = m) as Hrec
    by (destruct l as [|[]]; reflexivity).
  destruct (fexp prec emax (Zdigits2 m + e) - e) as [|n|n] eqn:Hn;
    cbn [fst snd].
  - split; [lia|]. rewrite Hrec. replace (Z.max _ _ - e) with 0 by lia.
    rewrite Z.div_1_r. reflexivity.
  - split; [lia|]. rewrite iter_shr_1 by lia. rewrite Hrec.
    replace (Z.max _ _ - e) with (Zpos n) by lia. reflexivity.
  - split; [lia|]. rewrite Hrec. replace (Z.max _ _ - e) with 0 by lia.
    rewrite Z.div_1_r. reflexivity.
Qed.

Lemma round_nearest_even_bounds (m : Z) (l : location) :
  m ≤ round_nearest_even m l ≤ m + 1.
Proof.
  destruct l as [|[]]; cbn [round_nearest_even]; try lia.
  destruct (Z.even m); lia.
Qed.

Lemma fexp_binary64 (k : Z) : fexp prec emax k = Z.max (k - 53) (-1074).
Proof. reflexivity. Qed.

Lemma pow2_pos (k : Z) : 0 ≤ k → 0 < 2 ^ k.
Proof. intros. apply Z.pow_pos_nonneg; lia. Qed.

Lemma pow2_le (a b : Z) : 0 ≤ b → 2 ^ a ≤ 2 ^ b → 0 ≤ a → a ≤ b.
Proof. intros Hb Hle Ha. apply (Z.pow_le_mono_r_iff 2); lia. Qed.

Lemma pow2_lt (a b : Z) : 0 ≤ b → 2 ^ a < 2 ^ b → a < b.
Proof.
  intros Hb Hlt. destruct (Z.lt_ge_cases a b) as [|Hge]; [assumption|].
  pose proof (Z.pow_le_mono_r 2 b a ltac:(lia) Hge). lia.
Qed.

(** Shifting to a larger exponent does not increase the value. *)
Lemma shr_fexp_le (O m e : Z) (l : location) :
  0 ≤ m → - O ≤ e →
  let r := shr_fexp prec emax m e l in
  0 ≤ shr_m r.1 ∧ e ≤ r.2 ∧
  r.2 = Z.max e (fexp prec emax (Zdigits2 m + e)) ∧
  shr_m r.1 * 2 ^ (r.2 + O) ≤ m * 2 ^ (e + O).
Proof.
  intros Hm He. cbv zeta.
  destruct (shr_fexp_spec m e l Hm) as [-> ->].
  set (e' := Z.max e (fexp prec emax (Zdigits2 m + e))).
  assert (e ≤ e') as Hle by (unfold e'; lia).
  assert (0 < 2 ^ (e' - e)) as Hpos by (apply pow2_pos; lia).
  split; [apply Z.div_pos; lia|]. split; [exact Hle|]. split; [reflexivity|].
  replace (e' + O) with ((e' - e) + (e + O)) by lia.
  rewrite Z.pow_add_r by lia. rewrite Z.mul_assoc.
  apply Z.mul_le_mono_nonneg_r; [apply Z.lt_le_incl, pow2_pos; lia|].
  rewrite Z.mul_comm. apply Z.mul_div_le. exact Hpos.
Qed.

(** Rounding a value below a power of two gives at most that power, and a
    finite number when the power is one of the format. *)
Lemma binary_round_aux_le (O : Z) (s : bool) (m e : Z) (l : location)
    (p : Z) :
  0 ≤ m → - O ≤ e → e ≤ p → -1074 ≤ p →
  m * 2 ^ (e + O) < 2 ^ (p + O) →
  match binary_round_aux prec emax s m e l with
  | S754_zero _ => True
  | S754_finite _ m' e' =>
      Zpos m' * 2 ^ (e' + O) ≤ 2 ^ (p + O) ∧ e ≤ e' ≤ p ∧ -1074 ≤ e'
  | S754_infinity _ => 971 < p
  | S754_nan => False
  end.
Proof.
  intros Hm He Hep Hp Hval. unfold binary_round_aux.
  pose proof (shr_fexp_le O m e l Hm He) as (Hm1 & He1 & He1' & Hv1).
  destruct (shr_fexp prec emax m e l) as [r1 e1]. cbn [fst snd] in *.
  assert (e1 ≤ p) as He1p.
  { rewrite He1', fexp_binary64.
    destruct (Z.eq_dec m 0) as [->|Hne]; [cbn [Zdigits2]; lia|].
    destruct (Zdigits2_bounds m ltac:(lia)) as [[Hlow _] Hd].
    assert (2 ^ (Zdigits2 m - 1 + (e + O)) < 2 ^ (p + O)) as Hlt.
    { rewrite Z.pow_add_r by lia.
      apply Z.le_lt_trans with (m * 2 ^ (e + O)); [|exact Hval].
      apply Z.mul_le_mono_nonneg_r; [apply Z.lt_le_incl, pow2_pos; lia|].
      exact Hlow. }
    apply pow2_lt in Hlt; lia. }
  assert (shr_m r1 < 2 ^ (p - e1)) as Hm1p.
  { apply (Z.mul_lt_mono_pos_r (2 ^ (e1 + O))); [apply pow2_pos; lia|].
    rewrite <- Z.pow_add_r by lia. replace (p - e1 + (e1 + O)) with (p + O)
      by lia. lia. }
  pose proof (round_nearest_even_bounds (shr_m r1) (loc_of_shr_record r1))
    as [Hr_low Hr_high].
  set (m2 := round_nearest_even (shr_m r1) (loc_of_shr_record r1)) in *.
  assert (m2 * 2 ^ (e1 + O) ≤ 2 ^ (p + O)) as Hv2.
  { replace (p + O) with ((p - e1) + (e1 + O)) by lia.
    rewrite (Z.pow_add_r 2 (p - e1) (e1 + O)) by lia.
    apply Z.mul_le_mono_nonneg_r; [apply Z.lt_le_incl, pow2_pos; lia|].
    lia. }
  pose proof (shr_fexp_le O m2 e1 loc_Exact ltac:(lia) ltac:(lia))
    as (Hm3 & He2 & _ & Hv3).
  destruct (shr_fexp prec emax m2 e1 loc_Exact) as [r2 e2].
  cbn [fst snd] in *.
  destruct (shr_m r2) as [|m3|m3]; [exact I| |lia].
  assert (e2 ≤ p) as He2p.
  { assert (2 ^ (e2 + O) ≤ 2 ^ (p + O)) as Hle.
    { apply Z.le_trans with (Zpos m3 * 2 ^ (e2 + O)); [|lia].
      pose proof (pow2_pos (e2 + O) ltac:(lia)). nia. }
    apply pow2_le in Hle; lia. }
  assert (-1074 ≤ e1) as Hmin by (rewrite He1', fexp_binary64; lia).
  destruct (Z.leb_spec e2 (emax - prec)) as [Hfin|Hinf].
  - repeat split; lia.
  - change (emax - prec) with 971 in Hinf. lia.
Qed.

(** Shifting to the exponent of the format keeps the leading bit of a value
    that is not below the smallest number of the format. *)
Lemma shr_fexp_ge (O m e : Z) (l : location) (q : Z) :
  0 < m → - O ≤ e → -1074 ≤ q →
  2 ^ (q + O) ≤ m * 2 ^ (e + O) →
  let r := shr_fexp prec emax m e l in
  2 ^ (q + O) ≤ shr_m r.1 * 2 ^ (r.2 + O).
Proof.
  intros Hm He Hq Hval. cbv zeta.
  destruct (shr_fexp_spec m e l ltac:(lia)) as [-> ->].
  rewrite fexp_binary64.
  destruct (Zdigits2_bounds m Hm) as [[Hlow Hhigh] Hd].
  set (d := Zdigits2 m) in *.
  assert (q ≤ d + e - 1) as Hqd.
  { assert (2 ^ (q + O) < 2 ^ (d + (e + O))) as Hlt.
    { rewrite (Z.pow_add_r 2 d (e + O)) by lia.
      apply Z.le_lt_trans with (m * 2 ^ (e + O)); [exact Hval|].
      apply Z.mul_lt_mono_pos_r; [apply pow2_pos; lia|exact Hhigh]. }
    apply pow2_lt in Hlt; lia. }
  set (e' := Z.max e (Z.max (d + e - 53) (-1074))).
  assert (e ≤ e') as Hle by (unfold e'; lia).
  assert (0 ≤ d - 1 - (e' - e)) as Hroom by (unfold e'; lia).
  assert (2 ^ (d - 1 - (e' - e)) ≤ m / 2 ^ (e' - e)) as Hdiv.
  { rewrite Z.pow_sub_r by lia.
    apply Z.div_le_mono; [apply pow2_pos; lia|exact Hlow]. }
  apply Z.le_trans with (2 ^ (d - 1 - (e' - e)) * 2 ^ (e' + O)).
  - rewrite <- Z.pow_add_r by lia. apply Z.pow_le_mono_r; lia.
  - apply Z.mul_le_mono_nonneg_r; [apply Z.lt_le_incl, pow2_pos; lia|].
    exact Hdiv.
Qed.

(** Rounding a value that is at least a power of two of the format gives at
    least that power. *)
Lemma binary_round_aux_ge (O : Z) (s : bool) (m e : Z) (l : location)
    (q : Z) :
  1074 ≤ O → 0 < m → - O ≤ e → -1074 ≤ q →
  2 ^ (q + O) ≤ m * 2 ^ (e + O) →
  match binary_round_aux prec emax s m e l with
  | S754_finite _ m' e' => 2 ^ (q + O) ≤ Zpos m' * 2 ^ (e' + O)
  | S754_infinity _ => True
  | _ => False
  end.
Proof.
  intros HO Hm He Hq Hval. unfold binary_round_aux.
  pose proof (shr_fexp_ge O m e l q Hm He Hq Hval) as Hv1.
  pose proof (shr_fexp_le O m e l ltac:(lia) He) as (Hm1 & He1 & _ & _).
  destruct (shr_fexp prec emax m e l) as [r1 e1]. cbn [fst snd] in *.
  pose proof (round_nearest_even_bounds (shr_m r1) (loc_of_shr_record r1))
    as [Hr_low Hr_high].
  set (m2 := round_nearest_even (shr_m r1) (loc_of_shr_record r1)) in *.
  assert (0 < 2 ^ (q + O)) as Hpq by (apply pow2_pos; lia).
  assert (0 < 2 ^ (e1 + O)) as Hpe by (apply pow2_pos; lia).
  assert (0 < shr_m r1) as Hpos1 by nia.
  assert (2 ^ (q + O) ≤ m2 * 2 ^ (e1 + O)) as Hv2.
  { apply Z.le_trans with (shr_m r1 * 2 ^ (e1 + O)); [exact Hv1|].
    apply Z.mul_le_mono_nonneg_r; lia. }
  pose proof (shr_fexp_ge O m2 e1 loc_Exact q ltac:(lia) ltac:(lia) Hq Hv2)
    as Hv3.
  pose proof (shr_fexp_le O m2 e1 loc_Exact ltac:(lia) ltac:(lia))
    as (Hm3 & He2 & _ & _).
  destruct (shr_fexp prec emax m2 e1 loc_Exact) as [r2 e2].
  cbn [fst snd] in *.
  destruct (shr_m r2) as [|m3|m3]; [lia| |lia].
  destruct (_ <=? _); [exact Hv3|exact I].
Qed.

(** [binary_round] first aligns the mantissa, keeping the value. *)
Lemma binary_round_bounds (O : Z) (s : bool) (m : positive) (e : Z) :
  1074 ≤ O → -1074 ≤ e →
  (∀ p, e ≤ p → -1074 ≤ p → Zpos m * 2 ^ (e + O) < 2 ^ (p + O) →
     match binary_round prec emax s m e with
     | S754_zero _ => True
     | S754_finite _ m' e' =>
         Zpos m' * 2 ^ (e' + O) ≤ 2 ^ (p + O) ∧ -1074 ≤ e'
     | S754_infinity _ => 971 < p
     | S754_nan => False
     end) ∧
  (∀ q, -1074 ≤ q → 2 ^ (q + O) ≤ Zpos m * 2 ^ (e + O) →
     match binary_round prec emax s m e with
     | S754_finite _ m' e' => 2 ^ (q + O) ≤ Zpos m' * 2 ^ (e' + O)
     | S754_infinity _ => True
     | _ => False
     end).
Proof.
  intros HO He. unfold binary_round.
  set (e0 := fexp prec emax (Zpos (digits2_pos m) + e)).
  assert (-1074 ≤ e0) as He0 by (unfold e0; rewrite fexp_binary64; lia).
  assert (∃ mz ez, shl_align m e e0 = (mz, ez) ∧ -1074 ≤ ez ≤ e ∧
                   Zpos mz * 2 ^ (ez + O) = Zpos m * 2 ^ (e + O))
    as (mz & ez & -> & Hez & Hsame).
  { unfold shl_align. destruct (e0 - e) as [|n|n] eqn:Hn.
    - exists m, e. split; [reflexivity|]. split; [lia|reflexivity].
    - exists m, e. split; [reflexivity|]. split; [lia|reflexivity].
    - exists (Pos.iter xO m n), e0. split; [reflexivity|]. split; [lia|].
      change (Pos.iter xO m n) with (shift_pos n m).
      rewrite shift_pos_correct. change (Z.pow_pos 2 n) with (2 ^ Zpos n).
      replace (e + O) with (Zpos n + (e0 + O)) by lia.
      rewrite (Z.pow_add_r 2 (Zpos n) (e0 + O)) by lia. ring. }
  split.
  - intros p Hep Hp Hval. rewrite <- Hsame in Hval.
    pose proof (binary_round_aux_le O s (Zpos mz) ez loc_Exact p
                  ltac:(lia) ltac:(lia) ltac:(lia) Hp Hval) as Hr.
    destruct (binary_round_aux _ _ _ _ _ _); try exact Hr.
    destruct Hr as (Hv & _ & Hmin). split; assumption.
  - intros q Hq Hval. rewrite <- Hsame in Hval.
    exact (binary_round_aux_ge O s (Zpos mz) ez loc_Exact q
             HO ltac:(lia) ltac:(lia) Hq Hval).
Qed.

Lemma atMost_mono (k k' : Z) (x : spec_float) :
  k ≤ k' → -1074 ≤ k → atMost k x → atMost k' x.
Proof.
  intros Hk Hmin. destruct x as [| | |s m e]; cbn [atMost]; try tauto.
  intros Hx. apply Z.le_trans with (2 ^ (k + 1074)); [exact Hx|].
  apply Z.pow_le_mono_r; lia.
Qed.

Lemma abs_cond_Zopp (s : bool) (z : Z) : Z.abs (cond_Zopp s z) = Z.abs z.
Proof. destruct s; cbn [cond_Zopp]; lia. Qed.

(** The magnitude of a difference of two finite numbers, between the powers
    of two around the difference of their keys. *)
Lemma SFsub_bounds (x y : spec_float) :
  valid_binary x = true → valid_binary y = true →
  (∀ s, x ≠ S754_infinity s) → (∀ s, y ≠ S754_infinity s) →
  x ≠ S754_nan → y ≠ S754_nan →
  (∀ p, -1074 ≤ p → Z.abs (key x - key y) < 2 ^ (p + 1074) →
     match SFsub prec emax x y with
     | S754_zero _ => True
     | S754_finite _ m e => Zpos m * 2 ^ (e + 1074) ≤ 2 ^ (p + 1074)
     | S754_infinity _ => 971 < p
     | S754_nan => False
     end) ∧
  (∀ q, -1074 ≤ q → 2 ^ (q + 1074) ≤ Z.abs (key x - key y) →
     match SFsub prec emax x y with
     | S754_finite _ m e => 2 ^ (q + 1074) ≤ Zpos m * 2 ^ (e + 1074)
     | S754_infinity _ => True
     | _ => False
     end).
Proof.
  destruct x as [sx|sx| |sx mx ex], y as [sy|sy| |sy my ey];
    cbn [valid_binary SFsub]; intros Hx Hy Hix Hiy Hnx Hny;
    try congruence; try (exfalso; eapply Hix; reflexivity);
    try (exfalso; eapply Hiy; reflexivity).
  - split; [intros; destruct sx, sy; exact I|].
    intros q Hq Hle. cbn [key] in Hle.
    pose proof (pow2_pos (q + 1074) ltac:(lia)).
    exfalso. change (0 - 0) with 0 in Hle. lia.
  - change (key (S754_zero sx)) with 0. cbn [key].
    rewrite Z.sub_0_l, Z.abs_opp, abs_cond_Zopp.
    pose proof (key_finite_bound sy my ey Hy) as (Hp & _).
    rewrite Z.abs_eq by lia. split; intros; lia.
  - change (key (S754_zero sy)) with 0. cbn [key].
    rewrite Z.sub_0_r, abs_cond_Zopp.
    pose proof (key_finite_bound sx mx ex Hx) as (Hp & _).
    rewrite Z.abs_eq by lia. split; intros; lia.
  - pose proof (bounded_mantissa _ _ Hx) as (Hex & _ & _).
    pose proof (bounded_mantissa _ _ Hy) as (Hey & _ & _).
    rewrite (SFsub_key sx mx ex sy my ey) by lia. cbv zeta.
    set (M := cond_Zopp sx _ - cond_Zopp sy _).
    set (ez := Z.min ex ey).
    assert (-1074 ≤ ez) as Hez by (unfold ez; lia).
    assert (0 < 2 ^ (ez + 1074)) as Hpos by (apply pow2_pos; lia).
    rewrite Z.abs_mul, (Z.abs_eq (2 ^ _)) by lia.
    destruct M as [|m|m]; cbn [binary_normalize Z.abs].
    + split; [intros; exact I|]. intros q Hq Hle.
      pose proof (pow2_pos (q + 1074) ltac:(lia)). lia.
    + destruct (binary_round_bounds 1074 false m ez ltac:(lia) Hez)
        as [Hup Hlow].
      split.
      * intros p Hp Hval.
        assert (ez ≤ p) as Hezp.
        { assert (2 ^ (ez + 1074) < 2 ^ (p + 1074)) as Hlt by nia.
          apply pow2_lt in Hlt; lia. }
        specialize (Hup p Hezp Hp Hval).
        destruct (binary_round _ _ _ _ _); try exact Hup. apply Hup.
      * intros q Hq Hval. exact (Hlow q Hq Hval).
    + destruct (binary_round_bounds 1074 true m ez ltac:(lia) Hez)
        as [Hup Hlow].
      split.
      * intros p Hp Hval.
        assert (ez ≤ p) as Hezp.
        { assert (2 ^ (ez + 1074) < 2 ^ (p + 1074)) as Hlt by nia.
          apply pow2_lt in Hlt; lia. }
        specialize (Hup p Hezp Hp Hval).
        destruct (binary_round _ _ _ _ _); try exact Hup. apply Hup.
      * intros q Hq Hval. exact (Hlow q Hq Hval).
Qed.

(** A quotient of finite numbers is at most twice the ratio of their
    magnitudes. *)
Lemma SFdiv_bound (sn : bool) (mn : positive) (en : Z) (sd : bool)
    (md : positive) (ed k : Z) :
  bounded prec emax mn en = true → bounded prec emax md ed = true →
  0 ≤ k ≤ 900 →
  Zpos mn * 2 ^ (en + 1074) ≤ 2 ^ k * (Zpos md * 2 ^ (ed + 1074)) →
  atMost (k + 1)
    (SFdiv prec emax (S754_finite sn mn en) (S754_finite sd md ed)).
Proof.
  intros (Hen & _ & _)%bounded_mantissa (Hed & _ & _)%bounded_mantissa
    Hk Hratio.
  cbn [SFdiv]. unfold SFdiv_core_binary.
  set (d1 := Zdigits2 (Zpos mn)). set (d2 := Zdigits2 (Zpos md)).
  set (e' := Z.min (fexp prec emax (d1 + en - (d2 + ed))) (en - ed)).
  set (s := en - ed - e').
  assert (0 ≤ s) as Hs by (unfold s, e'; lia).
  set (m' := match s with
             | 0 => Zpos mn
             | Zpos _ => Z.shiftl (Zpos mn) s
             | Zneg _ => 0
             end).
  assert (m' = Zpos mn * 2 ^ s) as Hm'.
  { unfold m'. destruct s as [|p|p] eqn:Hsp; [lia| |lia].
    rewrite Z.shiftl_mul_pow2 by lia. reflexivity. }
  clearbody m'.
  destruct (Z.div_eucl m' (Zpos md)) as [q r] eqn:Hdiv.
  assert (q = m' / Zpos md) as Hq by (unfold Z.div; rewrite Hdiv; reflexivity).
  clear Hdiv.
  destruct (Zdigits2_bounds (Zpos mn) ltac:(lia)) as [[Hn_low _] Hd1].
  destruct (Zdigits2_bounds (Zpos md) ltac:(lia)) as [[_ Hd_high] Hd2].
  fold d1 in Hn_low, Hd1. fold d2 in Hd_high, Hd2.
  assert (0 < 2 ^ (en + 1074)) as Hpn by (apply pow2_pos; lia).
  assert (0 < 2 ^ (ed + 1074)) as Hpd by (apply pow2_pos; lia).
  assert (0 < 2 ^ k) as Hpk by (apply pow2_pos; lia).
  (* the magnitudes *)
  assert (d1 + en - (d2 + ed) ≤ k) as Hmag.
  { assert (2 ^ (d1 - 1 + (en + 1074)) < 2 ^ (k + (d2 + (ed + 1074))))
      as Hlt.
    { rewrite (Z.pow_add_r 2 (d1 - 1) (en + 1074)) by lia.
      rewrite (Z.pow_add_r 2 k), (Z.pow_add_r 2 d2) by lia.
      apply Z.le_lt_trans with (Zpos mn * 2 ^ (en + 1074)).
      - apply Z.mul_le_mono_nonneg_r; lia.
      - apply Z.le_lt_trans with (2 ^ k * (Zpos md * 2 ^ (ed + 1074)));
          [exact Hratio|].
        apply Z.mul_lt_mono_pos_l; [exact Hpk|].
        apply Z.mul_lt_mono_pos_r; assumption. }
    apply pow2_lt in Hlt; lia. }
  assert (e' ≤ k + 1 ∧ -3000 ≤ e') as [He'k He'min].
  { unfold e'. rewrite fexp_binary64. lia. }
  assert (0 ≤ q) as Hq0 by (rewrite Hq; apply Z.div_pos; lia).
  assert (q * 2 ^ (e' + 3000) < 2 ^ (k + 1 + 3000)) as Hval.
  { apply Z.le_lt_trans with (2 ^ (k + 3000));
      [|apply Z.pow_lt_mono_r; lia].
    apply (Z.mul_le_mono_pos_r _ _ (Zpos md)); [lia|].
    assert (q * Zpos md ≤ m') as Hqm
      by (rewrite Hq, Z.mul_comm; apply Z.mul_div_le; lia).
    apply Z.le_trans with (m' * 2 ^ (e' + 3000)).
    { rewrite <- Z.mul_assoc, (Z.mul_comm (2 ^ _)), Z.mul_assoc.
      apply Z.mul_le_mono_nonneg_r; [apply Z.lt_le_incl, pow2_pos; lia|].
      exact Hqm. }
    rewrite Hm', <- Z.mul_assoc, <- Z.pow_add_r by lia.
    replace (s + (e' + 3000)) with ((en + 1074) + (1926 - ed)) by (unfold s; lia).
    rewrite (Z.pow_add_r 2 (en + 1074)) by lia. rewrite Z.mul_assoc.
    apply Z.le_trans
      with (2 ^ k * (Zpos md * 2 ^ (ed + 1074)) * 2 ^ (1926 - ed)).
    { apply Z.mul_le_mono_nonneg_r; [apply Z.lt_le_incl, pow2_pos; lia|].
      exact Hratio. }
    replace (k + 3000) with (k + ((ed + 1074) + (1926 - ed))) by lia.
    rewrite (Z.pow_add_r 2 k), (Z.pow_add_r 2 (ed + 1074)) by lia.
    apply Z.eq_le_incl. ring. }
  pose proof (binary_round_aux_le 3000 (xorb sn sd) q e'
                (new_location (Zpos md) r) (k + 1) Hq0 ltac:(lia) He'k
                ltac:(lia) Hval) as Hr.
  destruct (binary_round_aux _ _ _ _ _ _) as [| | |sf mf ef]; cbn [atMost];
    [exact I|lia|exact Hr|].
  destruct Hr as (Hv & _ & Hmin).
  apply (Z.mul_le_mono_pos_r _ _ (2 ^ 1926)); [apply pow2_pos; lia|].
  rewrite <- Z.mul_assoc, <- !Z.pow_add_r by lia.
  replace (ef + 1074 + 1926) with (ef + 3000) by lia.
  replace (k + 1 + 1074 + 1926) with (k + 1 + 3000) by lia. exact Hv.
Qed.

Lemma SFadd_key sx mx ex sy my ey :
  -1074 ≤ ex → -1074 ≤ ey →
  key (S754_finite sx mx ex) + key (S754_finite sy my ey)
  = (cond_Zopp sx (Zpos (shl_align mx ex (Z.min ex ey)).1)
     + cond_Zopp sy (Zpos (shl_align my ey (Z.min ex ey)).1))
    * 2 ^ (Z.min ex ey + 1074).
Proof.
  intros Hex Hey. rewrite !shl_align_value by lia. cbn [key].
  replace (ex + 1074) with ((ex - Z.min ex ey) + (Z.min ex ey + 1074))
    by lia.
  replace (ey + 1074) with ((ey - Z.min ex ey) + (Z.min ex ey + 1074))
    at 1 by lia.
  rewrite (Z.pow_add_r 2 (ex - Z.min ex ey)),
    (Z.pow_add_r 2 (ey - Z.min ex ey)) by lia.
  destruct sx, sy; cbn [cond_Zopp]; ring.
Qed.

(** A sum of two small numbers is a small number: no overflow. *)
Lemma SFadd_atMost (x y : spec_float) (k : Z) :
  valid_binary x = true → valid_binary y = true →
  -1074 ≤ k ≤ 900 → atMost k x → atMost k y →
  atMost (k + 2) (SFadd prec emax x y).
Proof.
  intros Hx Hy Hk.
  destruct x as [sx|sx| |sx mx ex], y as [sy|sy| |sy my ey];
    cbn [atMost SFadd valid_binary] in *; try tauto; intros Hax Hay.
  - destruct sx, sy; exact I.
  - apply Z.le_trans with (2 ^ (k + 1074)); [exact Hay|].
    apply Z.pow_le_mono_r; lia.
  - apply Z.le_trans with (2 ^ (k + 1074)); [exact Hax|].
    apply Z.pow_le_mono_r; lia.
  - pose proof (bounded_mantissa _ _ Hx) as (Hex & _ & _).
    pose proof (bounded_mantissa _ _ Hy) as (Hey & _ & _).
    pose proof (SFadd_key sx mx ex sy my ey ltac:(lia) ltac:(lia)) as Hkey.
    cbv zeta.
    set (M := cond_Zopp sx _ + cond_Zopp sy _) in *.
    set (ez := Z.min ex ey) in *.
    assert (-1074 ≤ ez) as Hez by (unfold ez; lia).
    assert (0 < 2 ^ (ez + 1074)) as Hpos by (apply pow2_pos; lia).
    assert (Z.abs M * 2 ^ (ez + 1074) < 2 ^ (k + 2 + 1074)) as Hval.
    { replace (Z.abs M * 2 ^ (ez + 1074))
        with (Z.abs (M * 2 ^ (ez + 1074)))
        by (rewrite Z.abs_mul, (Z.abs_eq (2 ^ _)) by lia; reflexivity).
      rewrite <- Hkey. cbn [key].
      assert (0 < 2 ^ (ex + 1074)) by (apply pow2_pos; lia).
      assert (0 < 2 ^ (ey + 1074)) by (apply pow2_pos; lia).
      replace (k + 2 + 1074) with (2 + (k + 1074)) by lia.
      rewrite (Z.pow_add_r 2 2) by lia. change (2 ^ 2) with 4.
      assert (0 < 2 ^ (k + 1074)) by (apply pow2_pos; lia).
      destruct sx, sy; cbn [cond_Zopp]; lia. }
    destruct M as [|m|m]; cbn [binary_normalize Z.abs] in *; [exact I| |].
    + destruct (binary_round_bounds 1074 false m ez ltac:(lia) Hez)
        as [Hup _].
      assert (ez ≤ k + 2) as Hezp.
      { assert (2 ^ (ez + 1074) < 2 ^ (k + 2 + 1074)) as Hlt by nia.
        apply pow2_lt in Hlt; lia. }
      specialize (Hup (k + 2) Hezp ltac:(lia) Hval).
      destruct (binary_round _ _ _ _ _); cbn [atMost]; try exact Hup;
        [lia|apply Hup].
    + destruct (binary_round_bounds 1074 true m ez ltac:(lia) Hez)
        as [Hup _].
      assert (ez ≤ k + 2) as Hezp.
      { assert (2 ^ (ez + 1074) < 2 ^ (k + 2 + 1074)) as Hlt by nia.
        apply pow2_lt in Hlt; lia. }
      specialize (Hup (k + 2) Hezp ltac:(lia) Hval).
      destruct (binary_round _ _ _ _ _); cbn [atMost]; try exact Hup;
        [lia|apply Hup].
Qed.

(** The number of a cell coordinate is at most 2^63. *)
Lemma ofZ_atMost (z : Z) : atMost 63 (Prim2SF (JS.ofZ z)).
Proof.
  assert (∀ n, atMost 63 (Prim2SF (of_uint63 n))) as Huint.
  { intros n. rewrite FloatAxioms.of_uint63_spec.
    pose proof (Uint63.to_Z_bounded n) as Hn.
    change Uint63.wB with (2 ^ 63) in Hn.
    destruct (Uint63Axioms.to_Z n) as [|m|m];
      cbn [binary_normalize]; [exact I| |lia].
    destruct (binary_round_bounds 1074 false m 0 ltac:(lia) ltac:(lia))
      as [Hup _].
    specialize (Hup 63 ltac:(lia) ltac:(lia)).
    assert (Zpos m * 2 ^ (0 + 1074) < 2 ^ (63 + 1074)) as Hval.
    { rewrite (Z.pow_add_r 2 63 1074) by lia.
      apply Z.mul_lt_mono_pos_r; [apply pow2_pos; lia|lia]. }
    specialize (Hup Hval).
    destruct (binary_round _ _ _ _ _); cbn [atMost]; try exact Hup;
      [lia|apply Hup]. }
  destruct z as [|p|p]; cbn [JS.ofZ].
  - exact I.
  - apply Huint.
  - rewrite FloatAxioms.opp_spec.
    specialize (Huint (Uint63Axioms.of_Z (Zpos p))).
    destruct (Prim2SF _); cbn [SFopp atMost] in *; assumption.
Qed.

Lemma atMost_isFinite (k : Z) (x : float) :
  atMost k (Prim2SF x) → JS.isFinite x = true.
Proof.
  unfold JS.isFinite, is_finite, is_nan, is_infinity.
  rewrite !FloatAxioms.eqb_spec, FloatAxioms.abs_spec.
  pose proof (FloatAxioms.Prim2SF_valid x) as Hvalid.
  destruct (Prim2SF x) as [s|s| |s m e] eqn:Hx; cbn [atMost];
    [intros _; destruct s; reflexivity|contradiction|contradiction|].
  intros _. unfold SFeqb.
  destruct (SFcompare (S754_finite s m e) (S754_finite s m e)) as [c|]
    eqn:Hc; [|destruct s; discriminate].
  apply SFcompare_key in Hc; [|assumption..].
  rewrite Z.compare_refl in Hc. subst c. destruct s; reflexivity.
Qed.

(** A cell coordinate, and a cell coordinate moved by a small number, are
    finite numbers. *)
Lemma coordinate_isFinite (z : Z) (f : float) :
  atMost 3 (Prim2SF f) →
  JS.isFinite (JS.ofZ z) = true ∧ JS.isFinite (JS.ofZ z + f) = true.
Proof.
  intros Hf. split; [exact (atMost_isFinite 63 _ (ofZ_atMost z))|].
  apply (atMost_isFinite 65). rewrite FloatAxioms.add_spec.
  apply (SFadd_atMost _ _ 63); try apply FloatAxioms.Prim2SF_valid;
    [lia|apply ofZ_atMost|].
  apply (atMost_mono 3); [lia|lia|exact Hf].
Qed.

Lemma SFsub_finite_operands (x y : spec_float) s m e :
  SFsub prec emax x y = S754_finite s m e →
  (∀ s, x ≠ S754_infinity s) ∧ (∀ s, y ≠ S754_infinity s) ∧
  x ≠ S754_nan ∧ y ≠ S754_nan.
Proof.
  destruct x as [sx|sx| |sx mx ex], y as [sy|sy| |sy my ey];
    cbn [SFsub]; try discriminate; try (destruct sx, sy; discriminate);
    intros _; repeat split; discriminate.
Qed.

(** The fraction of a side that the line crosses is NaN, +Infinity, or a
    number of magnitude at most 4. *)
Lemma fraction_small (c a b : float) :
  (a <? c)%float ≠ (b <? c)%float →
  Prim2SF ((c - a) / (b - a)) = S754_nan ∨
  Prim2SF ((c - a) / (b - a)) = S754_infinity false ∨
  atMost 2 (Prim2SF ((c - a) / (b - a))).
Proof.
  intros Hcross.
  pose proof (fraction_not_neg_infinity c a b Hcross) as Hneg.
  revert Hneg. rewrite FloatAxioms.div_spec.
  pose proof (FloatAxioms.Prim2SF_valid (c - a)) as Hvn.
  pose proof (FloatAxioms.Prim2SF_valid (b - a)) as Hvd.
  pose proof (FloatAxioms.sub_spec c a) as Hn.
  pose proof (FloatAxioms.sub_spec b a) as Hd.
  unfold SF64div, SF64sub in *.
  destruct (Prim2SF (c - a)) as [sn|sn| |sn mn en] eqn:En,
    (Prim2SF (b - a)) as [sd|sd| |sd md ed] eqn:Ed;
    cbn [SFdiv]; intros Hneg; try (left; reflexivity);
    try (right; right; exact I);
    try (destruct (xorb sn sd); [exfalso; apply Hneg; reflexivity|];
         right; left; reflexivity).
  right. right.
  symmetry in Hn, Hd.
  destruct (SFsub_finite_operands _ _ _ _ _ Hn) as (Hic & Hia & Hnc & Hna).
  destruct (SFsub_finite_operands _ _ _ _ _ Hd) as (Hib & _ & Hnb & _).
  pose proof (FloatAxioms.Prim2SF_valid a) as Ha.
  pose proof (FloatAxioms.Prim2SF_valid b) as Hb.
  pose proof (FloatAxioms.Prim2SF_valid c) as Hc.
  destruct (SFsub_bounds (Prim2SF c) (Prim2SF a) Hc Ha Hic Hia Hnc Hna)
    as [Hn_up _].
  destruct (SFsub_bounds (Prim2SF b) (Prim2SF a) Hb Ha Hib Hia Hnb Hna)
    as [_ Hd_low].
  rewrite Hn in Hn_up. rewrite Hd in Hd_low.
  (* the order of the three samples *)
  assert (Z.abs (key (Prim2SF c) - key (Prim2SF a))
          ≤ Z.abs (key (Prim2SF b) - key (Prim2SF a))) as Hord.
  { revert Hcross. rewrite !FloatAxioms.ltb_spec. unfold SFltb.
    destruct (SFcompare (Prim2SF a) (Prim2SF c)) as [ac|] eqn:Hac;
      [|destruct (Prim2SF a), (Prim2SF c); try discriminate; congruence].
    destruct (SFcompare (Prim2SF b) (Prim2SF c)) as [bc|] eqn:Hbc;
      [|destruct (Prim2SF b), (Prim2SF c); try discriminate; congruence].
    apply SFcompare_key in Hac; [|assumption..].
    apply SFcompare_key in Hbc; [|assumption..].
    destruct ac, bc; intros Hne; cbn in Hne; try congruence;
      repeat match goal with
             | H : (_ ?= _) = Eq |- _ => apply -> Z.compare_eq_iff in H
             | H : (_ ?= _) = Lt |- _ => apply -> Z.compare_lt_iff in H
             | H : (_ ?= _) = Gt |- _ => apply -> Z.compare_gt_iff in H
             end; lia. }
  set (N := Z.abs (key (Prim2SF c) - key (Prim2SF a))) in *.
  set (D := Z.abs (key (Prim2SF b) - key (Prim2SF a))) in *.
  apply SFdiv_bound with (k := 1); [exact Hvn|exact Hvd|lia|].
  destruct (Z.eq_dec N 0) as [HN0|HN0].
  - (* equal samples: the difference is at most the smallest number *)
    specialize (Hn_up (-1074) ltac:(lia)).
    rewrite HN0 in Hn_up. specialize (Hn_up ltac:(reflexivity)).
    change (2 ^ (-1074 + 1074)) with 1 in Hn_up.
    assert (0 < 2 ^ (ed + 1074)) as Hpd.
    { apply pow2_pos. apply bounded_mantissa in Hvd. lia. }
    change (2 ^ 1) with 2. nia.
  - assert (0 < N) as HN by (unfold N in *; lia).
    destruct (Z.log2_spec N HN) as [Hlow Hhigh].
    pose proof (Z.log2_nonneg N) as Hlog.
    specialize (Hn_up (Z.log2 N + 1 - 1074) ltac:(lia)).
    replace (Z.log2 N + 1 - 1074 + 1074) with (Z.succ (Z.log2 N)) in Hn_up
      by lia.
    specialize (Hn_up Hhigh).
    specialize (Hd_low (Z.log2 N - 1074) ltac:(lia)).
    replace (Z.log2 N - 1074 + 1074) with (Z.log2 N) in Hd_low by lia.
    specialize (Hd_low ltac:(lia)).
    rewrite Z.pow_succ_r in Hn_up by lia. change (2 ^ 1) with 2. lia.
Qed.

Lemma half_atMost : atMost 2 (Prim2SF 0.5).
Proof. cbn. apply Z.leb_le. vm_compute. reflexivity. Qed.

(** What comes out of the guard is a small number, for a fraction that is
    NaN, +Infinity or small. *)
Lemma ensureFractionIsNumber_atMost (frac : float) (direction : side) :
  Prim2SF frac = S754_nan ∨ Prim2SF frac = S754_infinity false ∨
  atMost 2 (Prim2SF frac) →
  atMost 2 (Prim2SF (ensureFractionIsNumber frac direction).2).
Proof.
  unfold ensureFractionIsNumber, JS.isNaN, JS.strictEq, JS.Infinity, is_nan.
  rewrite !FloatAxioms.eqb_spec.
  intros [Hf|[Hf|Hf]].
  - rewrite Hf. apply half_atMost.
  - rewrite Hf. apply half_atMost.
  - destruct (_ || _); [apply half_atMost|exact Hf].
Qed.

(** ** The side a move crosses *)

Lemma lt_irrefl (c : float) : JS.lt c c = false.
Proof.
  unfold JS.lt. rewrite FloatAxioms.ltb_spec. unfold SFltb.
  destruct (SFcompare (Prim2SF c) (Prim2SF c)) as [[]|] eqn:Hc;
    try reflexivity.
  apply SFcompare_key in Hc; try apply FloatAxioms.Prim2SF_valid.
  rewrite Z.compare_refl in Hc. discriminate.
Qed.

(** A number that is not −Infinity comes out of the guard finite. *)
Lemma ensureFractionIsNumber_finite (frac : float) (direction : side) :
  Prim2SF frac ≠ S754_infinity true →
  JS.isFinite (ensureFractionIsNumber frac direction).2 = true ∧
  (JS.isFinite frac = false →
   ensureFractionIsNumber frac direction
   = ([SegmentFractionIs direction frac], 0.5%float)).
Proof.
  intros Hneg. unfold ensureFractionIsNumber.
  destruct (JS.isNaN frac || JS.strictEq frac JS.Infinity) eqn:Hbad.
  { split; [vm_compute|]; reflexivity. }
  cbn [snd].
  assert (JS.isFinite frac = true) as Hfinite; [|rewrite Hfinite; auto; split; [reflexivity|discriminate]].
  apply orb_false_iff in Hbad as [Hnan Hinf].
  unfold JS.isFinite, is_finite. unfold JS.isNaN in Hnan. rewrite Hnan.
  cbn [orb]. apply negb_true_iff.
  revert Hinf. unfold JS.strictEq, JS.Infinity, is_infinity.
  rewrite !FloatAxioms.eqb_spec, FloatAxioms.abs_spec.
  destruct (Prim2SF frac) as [s|[]| |s m e]; vm_compute; congruence.
Qed.

Section OnATrace.

Variable cutoff : float.
Variable height : Z.
Variable surface : Surface.
Variable width : Z.

(** The case of a cell, read off the samples [interpolate] works with:
    setting a sample to the cutoff clears its bit as the edge-closing rule
    does. *)
Lemma cornerSamples_bits (x y : Z) :
  let '(topLeft, topRight, botLeft, botRight) :=
    cornerSamples cutoff height surface width x y in
  let idx := contourCase surface width height cutoff x y in
  Z.testbit idx 3 = JS.lt topLeft cutoff ∧
  Z.testbit idx 2 = JS.lt topRight cutoff ∧
  Z.testbit idx 1 = JS.lt botRight cutoff ∧
  Z.testbit idx 0 = JS.lt botLeft cutoff.
Proof.
  pose proof (contourCase_bits surface width height cutoff x y)
    as (H3 & H2 & H1 & H0).
  cbv zeta in *. unfold cornerSamples. cbv zeta.
  rewrite H3, H2, H1, H0.
  destruct (x =? 0), (y =? 0), (y =? height - 2), (x =? width - 2);
    cbn [negb]; rewrite ?lt_irrefl, ?andb_true_r, ?andb_false_r;
    repeat split; reflexivity.
Qed.

(** Where the table moves, the side of the new cell it comes in by has one
    end below the cutoff and one not. *)
Lemma followLoop_crossed prevx prevy sx sy followed nx ny :
  inGrid width height sx sy →
  followLoop (Some (contourCase surface width height cutoff sx sy))
    prevx prevy sx sy = (followed, Some (nx, ny)) →
  let '(topLeft, topRight, botLeft, botRight) :=
    cornerSamples cutoff height surface width nx ny in
  (sx < nx → JS.lt topLeft cutoff ≠ JS.lt botLeft cutoff) ∧
  (nx < sx → JS.lt topRight cutoff ≠ JS.lt botRight cutoff) ∧
  (ny < sy → JS.lt botLeft cutoff ≠ JS.lt botRight cutoff) ∧
  (sy < ny → JS.lt topLeft cutoff ≠ JS.lt topRight cutoff).
Proof.
  intros Hin Hfollow.
  assert (inGrid width height nx ny) as Hin'.
  { destruct (followLoop_inGrid surface width height cutoff prevx prevy
                sx sy Hin) as (f' & nx' & ny' & Hf' & Hgrid).
    - intros H0. rewrite H0 in Hfollow. discriminate.
    - intros H15. rewrite H15 in Hfollow. discriminate.
    - rewrite Hfollow in Hf'. injection Hf' as _ <- <-. exact Hgrid. }
  pose proof (cornerSamples_bits nx ny) as Hbits.
  destruct (cornerSamples cutoff height surface width nx ny)
    as [[[topLeft topRight] botLeft] botRight].
  cbv zeta in Hbits. destruct Hbits as (H3 & H2 & H1 & H0).
  rewrite <- H3, <- H2, <- H1, <- H0.
  apply followLoop_exit_bits in Hfollow
    as [(-> & -> & _)|(_ & [Hm|[Hm|[Hm|Hm]]])];
    [lia|..]; destruct Hm as (-> & -> & Hset & Hclear).
  - destruct (contourCase_neighbours surface width height cutoff (sx - 1) sy)
      as [Hn _].
    replace (sx - 1 + 1) with sx in Hn by lia.
    destruct (Hn Hin' Hin) as [Hn3 Hn0].
    repeat split; intros; try lia. congruence.
  - destruct (contourCase_neighbours surface width height cutoff sx sy)
      as [Hn _].
    destruct (Hn Hin Hin') as [Hn3 Hn0].
    repeat split; intros; try lia. congruence.
  - destruct (contourCase_neighbours surface width height cutoff sx sy)
      as [_ Hn].
    destruct (Hn Hin Hin') as [Hn3 Hn2].
    repeat split; intros; try lia. congruence.
  - destruct (contourCase_neighbours surface width height cutoff sx (sy - 1))
      as [_ Hn].
    replace (sy - 1 + 1) with sy in Hn by lia.
    destruct (Hn Hin' Hin) as [Hn3 Hn2].
    repeat split; intros; try lia. congruence.
Qed.

Lemma not_neg_infinity (f : float) :
  Prim2SF f ≠ S754_infinity true → f ≠ neg_infinity.
Proof. intros Hf ->. apply Hf. reflexivity. Qed.

(** The fraction of a move of a trace: NaN, +Infinity, or a small number. *)
Lemma interpolate_traced prevx prevy sx sy followed nx ny logged coord :
  inGrid width height sx sy →
  followLoop (Some (contourCase surface width height cutoff sx sy))
    prevx prevy sx sy = (followed, Some (nx, ny)) →
  interpolate cutoff height sx sy surface width nx ny
  = (logged, Some coord) →
  ∃ computed from,
    (Prim2SF computed = S754_nan ∨ Prim2SF computed = S754_infinity false ∨
     atMost 2 (Prim2SF computed)) ∧
    logged = (ensureFractionIsNumber computed from).1 ∧
    let used := (ensureFractionIsNumber computed from).2 in
    coord = (JS.ofZ nx, (JS.ofZ ny + used)%float) ∨
    coord = (JS.ofZ (nx + 1), (JS.ofZ ny + used)%float) ∨
    coord = ((JS.ofZ nx + used)%float, JS.ofZ (ny + 1)) ∨
    coord = ((JS.ofZ nx + used)%float, JS.ofZ ny).
Proof.
  intros Hin Hfollow.
  pose proof (followLoop_crossed _ _ _ _ _ _ _ Hin Hfollow) as Hcross.
  unfold interpolate, crossing.
  destruct (cornerSamples cutoff height surface width nx ny)
    as [[[topLeft topRight] botLeft] botRight].
  destruct Hcross as (Hleft & Hright & Hbottom & Htop).
  rewrite !Z.gtb_ltb.
  destruct (Z.ltb_spec sx nx) as [Hl|_];
    [|destruct (Z.ltb_spec nx sx) as [Hr|_];
      [|destruct (Z.ltb_spec ny sy) as [Hb|_];
        [|destruct (Z.ltb_spec sy ny) as [Ht|_]; [|discriminate]]]];
    match goal with
    | |- context [ensureFractionIsNumber ?f ?d] =>
        destruct (ensureFractionIsNumber f d) as [l u] eqn:He;
        intros [= <- <-]; exists f, d; rewrite He; cbn [fst snd];
        split; [apply fraction_small; auto|split; [reflexivity|tauto]]
    end.
Qed.

(** The coordinate of a move of a trace is a pair of finite numbers. *)
Lemma interpolate_traced_finite prevx prevy sx sy followed nx ny logged
    coord :
  inGrid width height sx sy →
  followLoop (Some (contourCase surface width height cutoff sx sy))
    prevx prevy sx sy = (followed, Some (nx, ny)) →
  interpolate cutoff height sx sy surface width nx ny
  = (logged, Some coord) →
  JS.isFinite coord.1 = true ∧ JS.isFinite coord.2 = true.
Proof.
  intros Hin Hfollow Hcoord.
  destruct (interpolate_traced _ _ _ _ _ _ _ _ _ Hin Hfollow Hcoord)
    as (computed & from & Hsmall & _ & Hform).
  apply (ensureFractionIsNumber_atMost computed from) in Hsmall.
  apply (atMost_mono 2 3) in Hsmall; [|lia|lia].
  cbv zeta in Hform.
  destruct Hform as [-> | [-> | [-> | ->]]]; cbn [fst snd]; split;
    first [apply (coordinate_isFinite _ _ Hsmall)].
Qed.

End OnATrace.

Section Moves.

Variable cutoff : float.
Variable height : Z.
Variable maxCoordinates : Z.
Variable project : Coordinate → Coordinate.
Variable interpolation : bool.
Variable surface : Surface.
Variable width : Z.
Variable PointFeature : Type.
Variable point : Coordinate → PointFeature.
Variable inside : PointFeature → Polygon → bool.

(** Every coordinate the scan collects is the coordinate of a move the exit
    table made from a cell of the grid. *)
Lemma scan_moves (P : Coordinate → Prop) contour t t' :
  classified surface width height cutoff contour →
  (∀ prevx prevy sx sy followed nx ny shifted m,
     inGrid width height sx sy →
     followLoop (Some (contourCase surface width height cutoff sx sy))
       prevx prevy sx sy = (followed, Some (nx, ny)) →
     shiftCoordinates cutoff height interpolation surface width sx sy nx ny
     = (shifted, Some m) →
     P (project m)) →
  Forall (Forall (Forall P)) (shells t) ∧
  Forall (Forall (Forall P)) (holes t) →
  scan cutoff height maxCoordinates project interpolation surface width
    contour t = JS.Normal t' →
  Forall (Forall (Forall P)) (shells t') ∧
  Forall (Forall (Forall P)) (holes t').
Proof.
  intros Hcontour Hmove.
  apply (scan_invariant cutoff height maxCoordinates project interpolation
           surface width
           (fun t => Forall (Forall (Forall P)) (shells t) ∧
                     Forall (Forall (Forall P)) (holes t))
           (fun c t => (Forall (Forall (Forall P)) (shells t) ∧
                        Forall (Forall (Forall P)) (holes t)) ∧
                       Forall P (coords c)));
    [exact Hcontour|intros; split; [assumption|constructor]|].
  intros origx origy c s Hin Hent [[Hs Hh] Hc].
  destruct (ringBody _ _ _ _ _ _ _ _ _ _ _ _) as [c' s'|why s'|e] eqn:Hbody;
    [| |exact I].
  - apply ringBody_Continue in Hbody
      as (followed & shifted & coord & Hfollow & Hshift & _ & _ & _ & _ & _
          & _ & _ & -> & _ & -> & -> & _).
    rewrite (Hcontour _ _ Hin) in Hfollow.
    split; [split; assumption|].
    apply Forall_app. split; [exact Hc|]. apply Forall_singleton.
    exact (Hmove _ _ _ _ _ _ _ _ _ Hin Hfollow Hshift).
  - apply ringBody_Break in Hbody. cbv zeta in Hbody.
    destruct why.
    + destruct Hbody as (_ & -> & -> & _). split; assumption.
    + destruct Hbody as (_ & -> & -> & _). split; assumption.
    + destruct Hbody as (? & ? & ? & ? & _ & _ & -> & -> & _).
      split; assumption.
    + destruct Hbody as (? & ? & ? & ? & ? & _ & _ & _ & -> & -> & _).
      split; assumption.
    + destruct Hbody
        as (followed & shifted & coord & Hfollow & Hshift & _ & _ & -> & ->
            & _).
      rewrite (Hcontour _ _ Hin) in Hfollow.
      split; [|exact Hh]. apply Forall_app. split; [exact Hs|].
      apply Forall_singleton, Forall_singleton, Forall_closing.
      apply Forall_app. split; [exact Hc|]. apply Forall_singleton.
      exact (Hmove _ _ _ _ _ _ _ _ _ Hin Hfollow Hshift).
    + destruct Hbody
        as (followed & shifted & coord & Hfollow & Hshift & _ & _ & -> & ->
            & _).
      rewrite (Hcontour _ _ Hin) in Hfollow.
      split; [exact Hs|]. apply Forall_app. split; [exact Hh|].
      apply Forall_singleton, Forall_singleton, Forall_closing.
      apply Forall_app. split; [exact Hc|]. apply Forall_singleton.
      exact (Hmove _ _ _ _ _ _ _ _ _ Hin Hfollow Hshift).
Qed.

Lemma jsolines_moves (P : Coordinate → Prop) polygons logged :
  (∀ prevx prevy sx sy followed nx ny shifted m,
     inGrid width height sx sy →
     followLoop (Some (contourCase surface width height cutoff sx sy))
       prevx prevy sx sy = (followed, Some (nx, ny)) →
     shiftCoordinates cutoff height interpolation surface width sx sy nx ny
     = (shifted, Some m) →
     P (project m)) →
  jsolines cutoff height maxCoordinates project interpolation surface width
    PointFeature point inside = JS.Normal (polygons, logged) →
  Forall (Forall (Forall P)) polygons.
Proof.
  intros Hmove (contour & marks & t & Hcontour & Hscan & Hnest)%jsolines_Normal.
  apply (scan_moves P contour _ _ Hcontour Hmove) in Hscan
    as [Hs Hh]; [|split; constructor].
  apply nest_accounts in Hnest as (dropped & _ & Hlen & Hkeep & _).
  simpl in *. apply Forall_lookup. intros i polygon Hi.
  destruct (lookup_lt_is_Some_2 (shells t) i) as [shell Hshell].
  { rewrite <- Hlen. eapply lookup_lt_Some, Hi. }
  destruct (Hkeep i shell Hshell) as (added & Hi' & Hadded).
  assert (Some polygon = Some (shell ++ added)) as [= ->]
    by (rewrite <- Hi; exact Hi').
  apply Forall_app. split.
  - exact (proj1 (Forall_lookup _ _) Hs i shell Hshell).
  - apply Forall_forall. intros ring Hring.
    destruct (proj1 (Forall_forall _ _) Hadded ring Hring)
      as (hole & Hhole & Hhead).
    pose proof (proj1 (Forall_forall _ _) Hh hole Hhole) as Hrings.
    destruct hole as [|r rs]; [discriminate|].
    injection Hhead as ->. apply Forall_cons in Hrings as [Hr _]. exact Hr.
Qed.

End Moves.

(** C5. The guard puts 0.5 in the place of a fraction that is NaN or
    +Infinity, with a diagnostic, and leaves a finite fraction as it is.
    The fraction [interpolate] computes for a move of a trace, a move the
    exit table makes from a cell of the grid, is never −Infinity: the side
    the move crosses has one end below the cutoff and the other not, so the
    quotient is NaN, +Infinity, or a number of magnitude at most 4. Hence
    whenever that fraction is not finite, 0.5 takes its place and a
    diagnostic is logged, what is added to the cell coordinate is finite,
    and so are both numbers of the coordinate [interpolate] returns. In
    interpolating mode every vertex of every ring a call returns is the
    projection of a pair of finite numbers: no coordinate that is not finite
    is handed on. *)
Theorem interpolate_fraction_finite :
  (∀ frac direction,
     (JS.isNaN frac = true ∨ JS.strictEq frac JS.Infinity = true →
      ensureFractionIsNumber frac direction
      = ([SegmentFractionIs direction frac], 0.5%float)) ∧
     (JS.isFinite frac = true →
      ensureFractionIsNumber frac direction = ([], frac))) ∧
  (∀ cutoff height surface width prevx prevy sx sy followed nx ny
     logged coord,
     inGrid width height sx sy →
     followLoop (Some (contourCase surface width height cutoff sx sy))
       prevx prevy sx sy = (followed, Some (nx, ny)) →
     interpolate cutoff height sx sy surface width nx ny
     = (logged, Some coord) →
     (∃ computed from,
        computed ≠ neg_infinity ∧
        (JS.isFinite computed = false →
         ensureFractionIsNumber computed from
         = ([SegmentFractionIs from computed], 0.5%float)) ∧
        logged = (ensureFractionIsNumber computed from).1 ∧
        JS.isFinite (ensureFractionIsNumber computed from).2 = true ∧
        let used := (ensureFractionIsNumber computed from).2 in
        coord = (JS.ofZ nx, (JS.ofZ ny + used)%float) ∨
        coord = (JS.ofZ (nx + 1), (JS.ofZ ny + used)%float) ∨
        coord = ((JS.ofZ nx + used)%float, JS.ofZ (ny + 1)) ∨
        coord = ((JS.ofZ nx + used)%float, JS.ofZ ny)) ∧
     JS.isFinite coord.1 = true ∧ JS.isFinite coord.2 = true) ∧
  (∀ cutoff height maxCoordinates project surface width
     (PointFeature : Type) (point : Coordinate → PointFeature)
     (inside : PointFeature → Polygon → bool) polygons logged,
     jsolines cutoff height maxCoordinates project true surface width
       PointFeature point inside = JS.Normal (polygons, logged) →
     ∀ polygon ring vertex,
       polygon ∈ polygons → ring ∈ polygon → vertex ∈ ring →
       ∃ m, vertex = project m ∧
         JS.isFinite m.1 = true ∧ JS.isFinite m.2 = true).
Proof.
  split; [|split].
  - intros frac direction. split.
    + intros Hbad. unfold ensureFractionIsNumber.
      assert (JS.isNaN frac || JS.strictEq frac JS.Infinity = true) as ->
        by (apply orb_true_iff; exact Hbad).
      reflexivity.
    + intros Hfinite. unfold ensureFractionIsNumber.
      rewrite (isFinite_passes frac Hfinite). reflexivity.
  - intros cutoff height surface width prevx prevy sx sy followed nx ny
      logged coord Hin Hfollow Hcoord.
    split;
      [|exact (interpolate_traced_finite cutoff height surface width _ _ _
                 _ _ _ _ _ _ Hin Hfollow Hcoord)].
    destruct (interpolate_traced cutoff height surface width _ _ _ _ _ _ _
                _ _ Hin Hfollow Hcoord)
      as (computed & from & Hsmall & Hlog & Hform).
    assert (Prim2SF computed ≠ S754_infinity true) as Hneg.
    { intros Hinf. rewrite Hinf in Hsmall.
      destruct Hsmall as [Hs|[Hs|Hs]]; [discriminate..|exact Hs]. }
    destruct (ensureFractionIsNumber_finite computed from Hneg)
      as [Hfinite Hbad].
    exists computed, from.
    split; [apply not_neg_infinity; exact Hneg|]. auto.
  - intros cutoff height maxCoordinates project surface width PointFeature
      point inside polygons logged Hcall polygon ring vertex Hp Hr Hv.
    assert (Forall (Forall (Forall
              (fun v => ∃ m, v = project m ∧
                 JS.isFinite m.1 = true ∧ JS.isFinite m.2 = true)))
              polygons)
      as Hrings.
    { apply (jsolines_moves cutoff height maxCoordinates project true
               surface width PointFeature point inside _ polygons logged);
        [|exact Hcall].
      intros prevx prevy sx sy followed nx ny shifted m Hin Hfollow Hshift.
      exists m. split; [reflexivity|]. unfold shiftCoordinates in Hshift.
      exact (interpolate_traced_finite cutoff height surface width _ _ _ _
               _ _ _ _ _ Hin Hfollow Hshift). }
    pose proof (proj1 (Forall_forall _ _) Hrings polygon Hp) as Hpolygon.
    pose proof (proj1 (Forall_forall _ _) Hpolygon ring Hr) as Hring.
    exact (proj1 (Forall_forall _ _) Hring vertex Hv).
Qed.

(** A move of a trace with a fraction that is a number: from cell (1, 1) of
    [band5] the table goes right, and the line crosses the left side of cell
    (2, 1) at 50/90 of the way from the sample 10 to the sample 100. *)
Example interpolate_band5_move :
  inGrid 5 5 1 1 ∧
  followLoop (Some (contourCase Examples.band5 5 5 60 1 1)) 1 2 1 1
  = ([], Some (2, 1)) ∧
  interpolate 60 5 1 1 Examples.band5 5 2 1
  = ([], Some (2, 0x1.8e38e38e38e39p+0)%float).
Proof. split; [unfold inGrid; lia|]. vm_compute. split; reflexivity. Qed.

(** A move of a trace with a fraction that is not: on [cliff5] the fraction
    across the left side of cell (2, 1) is ∞ / ∞, NaN; 0.5 takes its place
    and the diagnostic is logged. The whole call logs eight of them and
    returns finite coordinates only. *)
Example interpolate_cliff5_move :
  inGrid 5 5 1 1 ∧
  followLoop (Some (contourCase Examples.cliff5 5 5 60 1 1)) 1 2 1 1
  = ([], Some (2, 1)) ∧
  interpolate 60 5 1 1 Examples.cliff5 5 2 1
  = ([SegmentFractionIs fromLeft nan], Some (2, 1.5)%float) ∧
  match jsolines 60 5 MAX_COORDS Examples.keep true Examples.cliff5 5
          Coordinate Examples.asPoint Examples.always with
  | JS.Normal (polygons, logged) =>
      length logged = 8%nat ∧
      forallb (forallb (forallb
        (fun m => JS.isFinite m.1 && JS.isFinite m.2))) polygons = true
  | _ => False
  end.
Proof.
  split; [unfold inGrid; lia|]. vm_compute. repeat split; reflexivity.
Qed.
